(** * crema: storage codecs and the singleflight loader

    A shallow embedding of [codec.go] and [loader.go] of the crema cache
    library, and the properties of them that the specification states.

    Conventions of the embedding.
    - A Go function returning [(T, error)] is a function into
      [T * option error]; [None] is the nil error.  Both components are
      kept, as in Go, so that "returns the zero value together with the
      error" can be stated.
    - [[]byte] is [list byte]; the nil slice and the empty slice are both
      [[]] (the code only ever takes their length).
    - [int] is [Z].  The product [GOMAXPROCS * 2] is written with its
      64-bit wrap-around.  The reference counter of an inflight record
      moves by one per goroutine that enters or leaves [load], far from the
      bounds of an [int], and is incremented and decremented in [Z].
    - A pointer to an [inflight[V]] is an address into an explicit heap. *)

From stdpp Require Import base option list gmap sets strings pretty.
From Stdlib Require Import ZArith Lia Init.Byte.
From Stdlib Require Strings.Byte.

Open Scope Z_scope.

(** ** Errors *)

Module GoError.

(** The error values that occur in the files.  [errors.New] allocates a
    value that is equal only to itself, so each package-level sentinel is a
    constructor of its own, and no error of a collaborator, whatever its
    text, is equal to one; [fmt.Errorf] without the [%w] verb builds a fresh
    value that wraps nothing, and with it a value whose [Unwrap] method
    returns the operand. *)
Inductive error : Type :=
  | ErrDecompressZeroLengthData      (* errors.New("invalid data for decompression") *)
  | ErrUnsupportedCompressionTypeID  (* errors.New("unsupported compression type ID") *)
  | Errorf_unsupported_compression_type (typeID : byte)
      (* fmt.Errorf("unsupported compression type: %d", typeID) *)
  | Canceled                         (* context.Canceled *)
  | DeadlineExceeded                 (* context.DeadlineExceeded *)
  | rueidis_Nil                      (* rueidis.Nil *)
  | Foreign (msg : string)           (* raised by a collaborator: inner codec,
                                        zlib, encoding/json, the user's loader *)
  | Wrapped (msg : string) (inner : error).
      (* fmt.Errorf("...%w...", inner) with the text [msg], or any other
         error whose Unwrap method returns [inner] *)

#[global] Instance byte_eq_dec : EqDecision byte := Strings.Byte.byte_eq_dec.

#[global] Instance error_eq_dec : EqDecision error.
Proof. solve_decision. Defined.

(** The [Error()] method. *)
Definition Error (e : error) : string :=
  match e with
  | ErrDecompressZeroLengthData => "invalid data for decompression"
  | ErrUnsupportedCompressionTypeID => "unsupported compression type ID"
  | Errorf_unsupported_compression_type typeID =>
      "unsupported compression type: " +:+ pretty (Strings.Byte.to_N typeID)
  | Canceled => "context canceled"
  | DeadlineExceeded => "context deadline exceeded"
  | rueidis_Nil => "redis nil message"
  | Foreign msg => msg
  | Wrapped msg _ => msg
  end.

(** [errors.Unwrap] *)
Definition Unwrap (e : error) : option error :=
  match e with
  | Wrapped _ inner => Some inner
  | _ => None
  end.

(** The loop of [errors.Is] on a non-nil error: [e] is [target], or the
    error [e] unwraps to is, and so on down the chain.  No value here has an
    [Is] method or unwraps to several errors. *)
Fixpoint errors_is (e target : error) : bool :=
  bool_decide (e = target)
  || match e with
     | Wrapped _ inner => errors_is inner target
     | _ => false
     end.

(** [errors.Is err target] for a non-nil [target]: a nil [err] is not
    [target]. *)
Definition errors_Is (err : option error) (target : error) : bool :=
  match err with
  | None => false
  | Some e => errors_is e target
  end.

End GoError.
Export GoError.

(** ** codec.go

    The codec with the pool of scratch buffers.  An earlier form of the file
    allocates a buffer per call instead; it returns the same values. *)

Module Codec.

(** [CacheObject[V]]: the payload and its absolute expiry (int64). *)
Record CacheObject (V : Type) : Type := mkCacheObject {
  Value : V;
  ExpireAtMillis : Z
}.
Arguments mkCacheObject {V} _ _.
Arguments Value {V} _.
Arguments ExpireAtMillis {V} _.

(** [CacheObject[V]{}] *)
Definition zeroCacheObject {V : Type} (zeroV : V) : CacheObject V :=
  mkCacheObject zeroV 0.

(** [len(b)] as an [int]. *)
Definition len {A : Type} (b : list A) : Z := Z.of_nat (length b).

(** [CacheStorageCodec[V, S]].  An implementation is a Go object that may
    carry state of its own (the test suite has one that records what it was
    handed), so both methods pass a state [St] through. *)
Record CacheStorageCodec (V S St : Type) : Type := mkCodec {
  Encode : CacheObject V → St → (S * option error) * St;
  Decode : S → St → (CacheObject V * option error) * St
}.
Arguments mkCodec {V S St} _ _.
Arguments Encode {V S St} _ _ _.
Arguments Decode {V S St} _ _ _.

(** [NoopCacheStorageCodec[V]]: the storage value is the cache object. *)
Definition NoopCacheStorageCodec (V St : Type)
  : CacheStorageCodec V (CacheObject V) St :=
  mkCodec (λ value s, ((value, None), s))
          (λ data s, ((data, None), s)).

Definition CompressionTypeIDNone : byte := x00.
Definition CompressionTypeIDZlib : byte := x01.
Definition DefaultCompressThresholdBytes : Z := 1024 * 2.

(** '\n' *)
Definition newline : byte := x0a.

Section JSON.
Context {V : Type} (zeroV : V).

(** [encoding/json] is a collaborator.  [json_Marshal] is the JSON text an
    [Encoder] with [SetEscapeHTML(false)] produces for a value, or the error
    it reports; [json_Unmarshal data] is [json.Unmarshal(data, &out)] on a
    zero [out]: the contents of [out] afterwards and the error. *)
Variable json_Marshal : CacheObject V → list byte * option error.
Variable json_Unmarshal : list byte → CacheObject V * option error.

(** The [Encode] method of [json.Encoder]: "writes the JSON encoding of v to the stream,
    followed by a newline character"; nothing is written on an error. *)
Definition Encoder_Encode (buf : list byte) (v : CacheObject V)
  : list byte * option error :=
  match json_Marshal v with
  | (text, None) => (buf ++ text ++ [newline], None)
  | (_, Some e) => (buf, Some e)
  end.

(** [b[:len(b)-1]] when the last byte is a newline, [b] otherwise. *)
Definition strip_newline (b : list byte) : list byte :=
  if bool_decide (0 < len b) && bool_decide (last b = Some newline)
  then take (length b - 1) b
  else b.

Definition JSON_Encode (value : CacheObject V) : list byte * option error :=
  let buf := [] in
  match Encoder_Encode buf value with
  | (_, Some e) => ([], Some e)
  | (b, None) => (strip_newline b, None)
  end.

Definition JSON_Decode (data : list byte) : CacheObject V * option error :=
  match json_Unmarshal data with
  | (_, Some e) => (zeroCacheObject zeroV, Some e)
  | (out, None) => (out, None)
  end.

(** [JSONByteStringCodec[V]] *)
Definition JSONByteStringCodec (St : Type) : CacheStorageCodec V (list byte) St :=
  mkCodec (λ value s, (JSON_Encode value, s))
          (λ data s, (JSON_Decode data, s)).

Definition JSON_CanReleaseBufferOnDecode : bool := true.

End JSON.

Section BinaryCompression.
Context {V St : Type} (zeroV : V).

(** [compress/zlib] is a collaborator: [zlib_deflate data] is what a
    [zlib.Writer] has written to its destination after [Write(data)] and
    [Close()], with the error either call reported; [zlib_inflate data] is
    what [ReadFrom] a [zlib.Reader] over [data] appended to its buffer, with
    the error of [NewReader] or of the read. *)
Variable zlib_deflate : list byte → list byte * option error.
Variable zlib_inflate : list byte → list byte * option error.

(** [binaryCompressionCodec[V]].  The buffer pool holds scratch buffers
    whose contents are arbitrary: [pooled] below is whatever buffer
    [bufPool.Get()] hands out. *)
Record binaryCompressionCodec : Type := mkBinaryCompressionCodec {
  inner : CacheStorageCodec V (list byte) St;
  compressThresholdBytes : Z;
  canReleaseBufferOnDecode : bool
}.

(** [NewBinaryCompressionCodec]; [policy] is the result of the type
    assertion [any(inner).(BufferReleasePolicy)]: the answer of the inner
    codec's [CanReleaseBufferOnDecode] if it has that method. *)
Definition NewBinaryCompressionCodec
    (inner : CacheStorageCodec V (list byte) St) (policy : option bool)
    (compressThresholdBytes : Z) : binaryCompressionCodec :=
  let canReleaseBufferOnDecode :=
    match policy with
    | Some can => can
    | None => false
    end in
  mkBinaryCompressionCodec inner compressThresholdBytes canReleaseBufferOnDecode.

(** [bytes.Buffer] by its contents. *)
Definition Buffer_Reset (buf : list byte) : list byte := [].

Definition acquireBuffer (pooled : list byte) : list byte :=
  Buffer_Reset pooled.

Definition compressZlib (buf data : list byte) : list byte * option error :=
  match zlib_deflate data with
  | (out, None) => (buf ++ out, None)
  | (out, Some e) => (buf ++ out, Some e)
  end.

Definition decompressZlib (buf data : list byte) : list byte * option error :=
  match zlib_inflate data with
  | (out, None) => (buf ++ out, None)
  | (out, Some e) => (buf ++ out, Some e)
  end.

Definition binary_Encode (b : binaryCompressionCodec) (pooled : list byte)
    (value : CacheObject V) (s : St) : (list byte * option error) * St :=
  let '((innerBuf, err), s) := Encode (inner b) value s in
  match err with
  | Some e => (([], Some e), s)
  | None =>
      if bool_decide (compressThresholdBytes b < 0)
         || bool_decide (len innerBuf < compressThresholdBytes b)
      then ((CompressionTypeIDNone :: innerBuf, None), s)
      else
        let compressBuf := acquireBuffer pooled in
        match compressZlib compressBuf innerBuf with
        | (_, Some e) => (([], Some e), s)
        | (compressBuf, None) => ((CompressionTypeIDZlib :: compressBuf, None), s)
        end
  end.

Definition binary_Decode (b : binaryCompressionCodec) (pooled : list byte)
    (data : list byte) (s : St) : (CacheObject V * option error) * St :=
  match data with
  | [] => ((zeroCacheObject zeroV, Some ErrDecompressZeroLengthData), s)
  | compressionTypeID :: compressedData =>
      if bool_decide (compressionTypeID = CompressionTypeIDNone) then
        Decode (inner b) compressedData s
      else if bool_decide (compressionTypeID = CompressionTypeIDZlib) then
        let decompressBuf := acquireBuffer pooled in
        match decompressZlib decompressBuf compressedData with
        | (_, Some e) => ((zeroCacheObject zeroV, Some e), s)
        | (decompressBuf, None) => Decode (inner b) decompressBuf s
        end
      else
        ((zeroCacheObject zeroV,
          Some (Errorf_unsupported_compression_type compressionTypeID)), s)
  end.

(** The value [NewBinaryCompressionCodec] returns, as a [CacheStorageCodec]. *)
Definition BinaryCompressionCodec (b : binaryCompressionCodec) (pooled : list byte)
  : CacheStorageCodec V (list byte) St :=
  mkCodec (binary_Encode b pooled) (binary_Decode b pooled).

End BinaryCompression.

Arguments binaryCompressionCodec : clear implicits.

(** A codec round-trips an object when decoding what a successful [Encode]
    returned succeeds with that object, in whatever state the codec is by
    then. *)
Definition round_trips {V S' St' : Type} (c : CacheStorageCodec V S' St')
    (o : CacheObject V) : Prop :=
  ∀ s data s1, Encode c o s = ((data, None), s1) →
  ∀ s2, (Decode c data s2).1 = (o, None).

(** An inner codec instrumented with the number of [Decode] calls it has
    served, to state that a path does not reach the inner decoder. *)
Definition counted {V T St : Type} (c : CacheStorageCodec V T St)
  : CacheStorageCodec V T (St * nat) :=
  mkCodec (λ value '(s, n), let '(r, s') := Encode c value s in (r, (s', n)))
          (λ data '(s, n), let '(r, s') := Decode c data s in (r, (s', S n))).

(** Stand-ins for the collaborators, to run the codecs on concrete frames:
    a codec over raw byte payloads (as [bufferCheckingCodec] of the test
    suite: the payload is the encoding) and a framing that prefixes one
    byte where zlib would compress. *)
Definition rawCodec : CacheStorageCodec (list byte) (list byte) unit :=
  mkCodec (λ value s, ((Value value, None), s))
          (λ data s, ((mkCacheObject data 0, None), s)).

Definition toy_deflate (data : list byte) : list byte * option error :=
  (x78 :: data, None).

Definition toy_inflate (data : list byte) : list byte * option error :=
  match data with
  | x78 :: rest => (rest, None)
  | _ => ([], Some (Foreign "zlib: invalid header"))
  end.

Definition hello : CacheObject (list byte) :=
  mkCacheObject [x68; x65; x6c; x6c; x6f] 0.

End Codec.

(** ** encoding/json on [CacheObject[string]]

    [encoding/json] and [unicode/utf8] are collaborators of
    [JSONByteStringCodec].  This module writes out what they do for the
    payload type [string], after the documentation and the code of the
    two packages: string values encode as JSON strings coerced to valid
    UTF-8, replacing invalid bytes with the Unicode replacement rune. *)

Module GoJSON.
Import Codec.

(** A Go [string] is a sequence of bytes, which need not be UTF-8. *)
Abbreviation go_string := (list byte).

(** The bytes of a text in ASCII. *)
Definition bytes (s : string) : list byte := String.list_byte_of_string s.

(** A byte as a number, and the conversion [byte(n)], which keeps the low
    eight bits. *)
Definition byte_val (b : byte) : Z := Z.of_N (Byte.to_N b).

Definition byte_of (n : Z) : byte :=
  default x00 (Byte.of_N (Z.to_N (n mod 256))).

Definition dquote : byte := x22.     (* the double quote *)
Definition backslash : byte := x5c.

(** *** unicode/utf8 *)

Definition RuneError : Z := 0xFFFD.
Definition RuneSelf : Z := 0x80.
Definition MaxRune : Z := 0x10FFFF.
Definition surrogateMin : Z := 0xD800.
Definition surrogateMax : Z := 0xDFFF.

(** The tables [first] and [acceptRanges] of the package: for a first
    byte that starts a sequence of several bytes, the length of the
    sequence and the range of its second byte. *)
Definition first (x : Z) : option (nat * Z * Z) :=
  if (x <? 0xC2) || (0xF4 <? x) then None
  else if x <? 0xE0 then Some (2%nat, 0x80, 0xBF)
  else if x =? 0xE0 then Some (3%nat, 0xA0, 0xBF)
  else if x =? 0xED then Some (3%nat, 0x80, 0x9F)
  else if x <? 0xF0 then Some (3%nat, 0x80, 0xBF)
  else if x =? 0xF0 then Some (4%nat, 0x90, 0xBF)
  else if x =? 0xF4 then Some (4%nat, 0x80, 0x8F)
  else Some (4%nat, 0x80, 0xBF).

(** A continuation byte is outside [locb, hicb]. *)
Definition not_cont (b : Z) : bool := (b <? 0x80) || (0xBF <? b).

(** [utf8.DecodeRune(p)]: the rune at the head of [p] and its width in
    bytes; [(RuneError, 1)] for a byte that starts no well-formed
    sequence, [(RuneError, 0)] for the empty slice. *)
Definition DecodeRune (p : list byte) : Z * nat :=
  match p with
  | [] => (RuneError, 0%nat)
  | p0 :: p' =>
      let x := byte_val p0 in
      if x <? RuneSelf then (x, 1%nat)
      else
        match first x with
        | None => (RuneError, 1%nat)
        | Some (sz, lo, hi) =>
            if (length p <? sz)%nat then (RuneError, 1%nat)
            else
              match p' with
              | [] => (RuneError, 1%nat)
              | p1 :: p'' =>
                  let b1 := byte_val p1 in
                  if (b1 <? lo) || (hi <? b1) then (RuneError, 1%nat)
                  else if (sz <=? 2)%nat then
                    (Z.lor (Z.shiftl (Z.land x 0x1F) 6) (Z.land b1 0x3F), 2%nat)
                  else
                    match p'' with
                    | [] => (RuneError, 1%nat)
                    | p2 :: p''' =>
                        let b2 := byte_val p2 in
                        if not_cont b2 then (RuneError, 1%nat)
                        else if (sz <=? 3)%nat then
                          (Z.lor (Z.lor (Z.shiftl (Z.land x 0x0F) 12)
                                        (Z.shiftl (Z.land b1 0x3F) 6))
                                 (Z.land b2 0x3F), 3%nat)
                        else
                          match p''' with
                          | [] => (RuneError, 1%nat)
                          | p3 :: _ =>
                              let b3 := byte_val p3 in
                              if not_cont b3 then (RuneError, 1%nat)
                              else
                                (Z.lor (Z.lor (Z.lor (Z.shiftl (Z.land x 0x07) 18)
                                                     (Z.shiftl (Z.land b1 0x3F) 12))
                                              (Z.shiftl (Z.land b2 0x3F) 6))
                                       (Z.land b3 0x3F), 4%nat)
                          end
                    end
              end
        end
  end.

(** [utf8.EncodeRune] for a rune that is not negative: the bytes
    written. *)
Definition EncodeRune (r : Z) : list byte :=
  if r <=? 0x7F then [byte_of r]
  else if r <=? 0x7FF then
    [byte_of (Z.lor 0xC0 (Z.shiftr r 6));
     byte_of (Z.lor 0x80 (Z.land r 0x3F))]
  else if (MaxRune <? r) || ((surrogateMin <=? r) && (r <=? surrogateMax)) then
    [xef; xbf; xbd]
  else if r <=? 0xFFFF then
    [byte_of (Z.lor 0xE0 (Z.shiftr r 12));
     byte_of (Z.lor 0x80 (Z.land (Z.shiftr r 6) 0x3F));
     byte_of (Z.lor 0x80 (Z.land r 0x3F))]
  else
    [byte_of (Z.lor 0xF0 (Z.shiftr r 18));
     byte_of (Z.lor 0x80 (Z.land (Z.shiftr r 12) 0x3F));
     byte_of (Z.lor 0x80 (Z.land (Z.shiftr r 6) 0x3F));
     byte_of (Z.lor 0x80 (Z.land r 0x3F))].

(** The rune at the head of [p] is the error rune of width one: the byte
    there starts no well-formed sequence. *)
Definition invalid_at (p : list byte) : bool :=
  bool_decide ((DecodeRune p).1 = RuneError) && bool_decide ((DecodeRune p).2 = 1%nat).

(** [utf8.Valid(p)].  The fuel counts the runes still to be read. *)
Fixpoint Valid_from (fuel : nat) (p : list byte) : bool :=
  match fuel, p with
  | _, [] => true
  | O, _ :: _ => false
  | S fuel, _ :: _ =>
      if invalid_at p then false
      else Valid_from fuel (drop (DecodeRune p).2 p)
  end.

Definition Valid (p : list byte) : bool := Valid_from (length p) p.

(** A string coerced to valid UTF-8: each byte that starts no well-formed
    sequence is replaced by the encoding of U+FFFD, and the well-formed
    sequences stay. *)
Fixpoint coerced_from (fuel : nat) (p : list byte) : list byte :=
  match fuel, p with
  | _, [] => []
  | O, _ :: _ => []
  | S fuel, _ :: _ =>
      (if invalid_at p then [xef; xbf; xbd] else take (DecodeRune p).2 p)
      ++ coerced_from fuel (drop (DecodeRune p).2 p)
  end.

Definition coerced (p : list byte) : list byte := coerced_from (length p) p.

(** *** strconv *)

(** The decimal digit [d] in ASCII. *)
Definition digit (d : Z) : byte := byte_of (0x30 + d).

(** The decimal digits of [u], the most significant first.  The fuel
    bounds their number. *)
Fixpoint formatBits (fuel : nat) (u : Z) : list byte :=
  match fuel with
  | O => []
  | S fuel =>
      (if u <? 10 then [] else formatBits fuel (u / 10)) ++ [digit (u mod 10)]
  end.

(** [strconv.AppendInt(nil, i, 10)] *)
Definition AppendInt (i : Z) : list byte :=
  if i <? 0 then x2d :: formatBits (S (Z.to_nat (Z.log2 (- i)))) (- i)
  else formatBits (S (Z.to_nat (Z.log2 i))) i.

(** *** Marshal *)

(** [hex] of the package: the digits 0 to 9 and a to f. *)
Definition hex (n : Z) : byte :=
  if n <? 10 then byte_of (0x30 + n) else byte_of (0x61 + (n - 10)).

(** [safeSet]: the ASCII characters written as they are when HTML escaping
    is off, all but the control characters, the quote and the backslash. *)
Definition safeSet (b : byte) : bool :=
  bool_decide (0x20 ≤ byte_val b) && negb (bool_decide (b = dquote))
  && negb (bool_decide (b = backslash)).

(** The escape written for an ASCII byte outside [safeSet].  Releases of
    Go before 1.22 write the backspace and the form feed as [\u0008] and
    [\u000c]; [string_literal] below reads both forms as the same
    character. *)
Definition escape (b : byte) : list byte :=
  if bool_decide (b = backslash) || bool_decide (b = dquote) then [backslash; b]
  else if bool_decide (b = x08) then backslash :: bytes "b"
  else if bool_decide (b = x0c) then backslash :: bytes "f"
  else if bool_decide (b = x0a) then backslash :: bytes "n"
  else if bool_decide (b = x0d) then backslash :: bytes "r"
  else if bool_decide (b = x09) then backslash :: bytes "t"
  else backslash :: bytes "u00" ++ [hex (Z.shiftr (byte_val b) 4); hex (Z.land (byte_val b) 0xF)].

(** The loop of [appendString] with [escapeHTML] off: what is written
    between the quotes for [src].  The fuel counts the iterations left. *)
Fixpoint appendString_from (fuel : nat) (src : list byte) : list byte :=
  match fuel, src with
  | _, [] => []
  | O, _ :: _ => []
  | S fuel, b :: rest =>
      if byte_val b <? RuneSelf then
        (if safeSet b then [b] else escape b) ++ appendString_from fuel rest
      else
        let c := (DecodeRune src).1 in
        let size := (DecodeRune src).2 in
        (if invalid_at src then backslash :: bytes "ufffd"
         else if bool_decide (c = 0x2028) || bool_decide (c = 0x2029)
              then backslash :: bytes "u202" ++ [hex (Z.land c 0xF)]
              else take size src)
        ++ appendString_from fuel (drop size src)
  end.

Definition appendString (src : go_string) : list byte :=
  [dquote] ++ appendString_from (length src) src ++ [dquote].

(** Modelled from the spec: the declaration of [CacheObject] is not among
    the sources; the object is written with the keys of the schema the
    specification gives, [Value] and then [ExpireAtMillis], without
    white space, as [encoding/json] writes a struct. *)
Definition key_Value : list byte := [dquote] ++ bytes "Value" ++ [dquote].

Definition key_ExpireAtMillis : list byte :=
  [dquote] ++ bytes "ExpireAtMillis" ++ [dquote].

(** The text [json.Marshal] writes for a [CacheObject[string]]; neither a
    string nor an [int64] makes it fail. *)
Definition Marshal_text (v : CacheObject go_string) : list byte :=
  bytes "{" ++ key_Value ++ bytes ":" ++ appendString (Value v)
  ++ bytes "," ++ key_ExpireAtMillis ++ bytes ":" ++ AppendInt (ExpireAtMillis v)
  ++ bytes "}".

Definition Marshal (v : CacheObject go_string) : list byte * option error :=
  (Marshal_text v, None).

(** *** Unmarshal *)

(** [getu4]: the number that four hexadecimal digits write. *)
Definition hex_val (c : byte) : option Z :=
  let x := byte_val c in
  if (0x30 <=? x) && (x <=? 0x39) then Some (x - 0x30)
  else if (0x61 <=? x) && (x <=? 0x66) then Some (x - 0x61 + 10)
  else if (0x41 <=? x) && (x <=? 0x46) then Some (x - 0x41 + 10)
  else None.

Definition getu4 (h1 h2 h3 h4 : byte) : option Z :=
  a ← hex_val h1; b ← hex_val h2; c ← hex_val h3; d ← hex_val h4;
  Some (((a * 16 + b) * 16 + c) * 16 + d).

(** The character a two-byte escape stands for. *)
Definition unescape (e : byte) : option byte :=
  if bool_decide (e = dquote) || bool_decide (e = backslash) || bool_decide (e = x2f)
  then Some e
  else if bool_decide (e = x62) then Some x08
  else if bool_decide (e = x66) then Some x0c
  else if bool_decide (e = x6e) then Some x0a
  else if bool_decide (e = x72) then Some x0d
  else if bool_decide (e = x74) then Some x09
  else None.

Definition prepend (l : list byte) (r : option (list byte * list byte))
  : option (list byte * list byte) :=
  '(value, rest) ← r; Some (l ++ value, rest).

(** A string literal, read from behind its opening quote: the string it
    stands for, as [unquote] builds it, and the text behind the closing
    quote.  An escape is replaced by its character, [\uXXXX] by the
    encoding of that rune, and every other byte from 0x80 on is coerced to
    well-formed UTF-8.  [None] for a text that is no string literal, and
    for an escaped surrogate, which this model leaves out. *)
Fixpoint string_literal (fuel : nat) (s : list byte)
  : option (list byte * list byte) :=
  match fuel, s with
  | O, _ => None
  | _, [] => None
  | S fuel, c :: rest =>
      if bool_decide (c = dquote) then Some ([], rest)
      else if bool_decide (c = backslash) then
        match rest with
        | [] => None
        | e :: rest' =>
            if bool_decide (e = x75) then
              match rest' with
              | h1 :: h2 :: h3 :: h4 :: rest'' =>
                  rr ← getu4 h1 h2 h3 h4;
                  if (surrogateMin <=? rr) && (rr <=? surrogateMax) then None
                  else prepend (EncodeRune rr) (string_literal fuel rest'')
              | _ => None
              end
            else
              c' ← unescape e; prepend [c'] (string_literal fuel rest')
        end
      else if byte_val c <? 0x20 then None
      else if byte_val c <? RuneSelf then prepend [c] (string_literal fuel rest)
      else
        prepend (EncodeRune (DecodeRune s).1)
                (string_literal fuel (drop (DecodeRune s).2 s))
  end.

(** [text] without the prefix [p], if it starts with it. *)
Fixpoint strip_prefix (p text : list byte) : option (list byte) :=
  match p, text with
  | [], _ => Some text
  | _ :: _, [] => None
  | a :: p, b :: text => if bool_decide (a = b) then strip_prefix p text else None
  end.

(** The digits at the head of a text as a number, and the text behind
    them. *)
Fixpoint digits_value (text : list byte) (acc : Z) : Z * list byte :=
  match text with
  | c :: rest =>
      if (0x30 <=? byte_val c) && (byte_val c <=? 0x39)
      then digits_value rest (acc * 10 + (byte_val c - 0x30))
      else (acc, text)
  | [] => (acc, [])
  end.

Definition is_digit (c : byte) : bool :=
  (0x30 <=? byte_val c) && (byte_val c <=? 0x39).

(** An integer literal of JSON at the head of a text: an optional minus
    sign, then a single zero or digits that do not start with a zero. *)
Definition integer_literal (text : list byte) : option (Z * list byte) :=
  let '(neg, ds) :=
    match text with
    | c :: rest => if bool_decide (c = x2d) then (true, rest) else (false, text)
    | [] => (false, text)
    end in
  match ds with
  | d :: ds' =>
      if negb (is_digit d) then None
      else if bool_decide (d = x30) && match ds' with
                                       | d' :: _ => is_digit d'
                                       | [] => false
                                       end
      then None
      else
        let '(n, rest) := digits_value ds 0 in
        Some (if neg then - n else n, rest)
  | [] => None
  end.

(** The values of an [int64]. *)
Definition is_int64 (n : Z) : Prop := - 2 ^ 63 ≤ n < 2 ^ 63.

(** [json.Unmarshal(data, &out)] on a zero [out] of type
    [CacheObject[string]], for a text of the form [Marshal] writes: the
    two keys in their order, a string literal, an integer literal that
    fits an [int64], no white space.  Such a text is decoded without an
    error, and the result is what [out] holds.  [None] stands for every
    other text: the model does not say what [json.Unmarshal] does
    there. *)
Definition Unmarshal (data : list byte) : option (CacheObject go_string) :=
  rest ← strip_prefix (bytes "{" ++ key_Value ++ bytes ":" ++ [dquote]) data;
  '(value, rest) ← string_literal (length rest) rest;
  rest ← strip_prefix (bytes "," ++ key_ExpireAtMillis ++ bytes ":") rest;
  '(n, rest) ← integer_literal rest;
  if bool_decide (rest = bytes "}") && bool_decide (is_int64 n)
  then Some (mkCacheObject value n)
  else None.

(** A decoder [json_Unmarshal] does what [json.Unmarshal] does on the texts
    that [Unmarshal] covers. *)
Definition decodes_as_Unmarshal
    (json_Unmarshal : list byte → CacheObject go_string * option error) : Prop :=
  ∀ data out, Unmarshal data = Some out → json_Unmarshal data = (out, None).

(** A decoder to run the codec with: [json.Unmarshal] where the model
    covers the text, and an error everywhere else. *)
Definition Unmarshal_or_error (data : list byte)
  : CacheObject go_string * option error :=
  match Unmarshal data with
  | Some out => (out, None)
  | None => (zeroCacheObject [], Some (Foreign "json: text outside the model"))
  end.

End GoJSON.

(** ** The buffer pool of the compression codec *)

Module CodecPool.
Import Codec.

(** The [bytes.Buffer]s a [binaryCompressionCodec] has allocated, by
    address, and its [bufPool].
    - [contents]: the bytes of each buffer.
    - [bufPool]: the buffers inside the [sync.Pool].
    - [next_buf]: the address of the next buffer [New] allocates. *)
Record buffers : Type := mkBuffers {
  contents : gmap nat (list byte);
  bufPool : list nat;
  next_buf : nat
}.

(** [sync.Pool{New: ...}] of [NewBinaryCompressionCodec]: nothing allocated
    yet. *)
Definition newBufPool : buffers := mkBuffers ∅ [] 0.

(** [buf.Bytes()] *)
Definition Buffer_Bytes (p : buffers) (buf : nat) : list byte :=
  default [] (contents p !! buf).

(** A write on the buffer at [buf] that leaves it with the bytes [bs]. *)
Definition Buffer_set (p : buffers) (buf : nat) (bs : list byte) : buffers :=
  mkBuffers (<[buf := bs]> (contents p)) (bufPool p) (next_buf p).

(** [b.bufPool.Get()]: the buffer at index [pick] of the pool, which leaves
    the pool, or, when the pool has none there, the buffer
    [bytes.NewBuffer(nil)] that [New] allocates. *)
Definition bufPool_Get (p : buffers) (pick : nat) : nat * buffers :=
  match bufPool p !! pick with
  | Some buf => (buf, mkBuffers (contents p) (delete pick (bufPool p)) (next_buf p))
  | None =>
      (next_buf p,
       mkBuffers (<[next_buf p := []]> (contents p)) (bufPool p) (S (next_buf p)))
  end.

(** [b.bufPool.Put(buf)] *)
Definition bufPool_Put (p : buffers) (buf : nat) : buffers :=
  mkBuffers (contents p) (buf :: bufPool p) (next_buf p).

(** [b.acquireBuffer()] *)
Definition acquireBuffer (p : buffers) (pick : nat) : nat * buffers :=
  let '(buf, p) := bufPool_Get p pick in
  (buf, Buffer_set p buf (Buffer_Reset (Buffer_Bytes p buf))).

(** [b.returnBuffer(buf)] *)
Definition returnBuffer (p : buffers) (buf : nat) : buffers :=
  bufPool_Put (Buffer_set p buf (Buffer_Reset (Buffer_Bytes p buf))) buf.

Section Pooled.
Context {V St : Type} (zeroV : V).
Variable zlib_deflate : list byte → list byte * option error.
Variable zlib_inflate : list byte → list byte * option error.

(** [Encode], with the buffers it works on.  The frame is a copy made
    before the deferred [returnBuffer] runs; the deferred call runs on both
    ways out of the function once the buffer has been acquired. *)
Definition pooled_Encode (b : binaryCompressionCodec V St) (p : buffers)
    (pick : nat) (value : CacheObject V) (s : St)
  : ((list byte * option error) * St) * buffers :=
  let '((innerBuf, err), s) := Encode (inner b) value s in
  match err with
  | Some e => ((([], Some e), s), p)
  | None =>
      if bool_decide (compressThresholdBytes b < 0)
         || bool_decide (len innerBuf < compressThresholdBytes b)
      then (((CompressionTypeIDNone :: innerBuf, None), s), p)
      else
        let '(compressBuf, p) := acquireBuffer p pick in
        let '(written, err) :=
          compressZlib zlib_deflate (Buffer_Bytes p compressBuf) innerBuf in
        let p := Buffer_set p compressBuf written in
        match err with
        | Some e => ((([], Some e), s), returnBuffer p compressBuf)
        | None =>
            (((CompressionTypeIDZlib :: Buffer_Bytes p compressBuf, None), s),
             returnBuffer p compressBuf)
        end
  end.

(** [Decode], with the buffers it works on.  The last component is the
    buffer whose bytes ([decompressBuf.Bytes()], a view of the buffer and not
    a copy) the inner decoder was handed, if it was handed one. *)
Definition pooled_Decode (b : binaryCompressionCodec V St) (p : buffers)
    (pick : nat) (data : list byte) (s : St)
  : ((CacheObject V * option error) * St) * buffers * option nat :=
  match data with
  | [] => (((zeroCacheObject zeroV, Some ErrDecompressZeroLengthData), s), p, None)
  | compressionTypeID :: compressedData =>
      if bool_decide (compressionTypeID = CompressionTypeIDNone) then
        (Decode (inner b) compressedData s, p, None)
      else if bool_decide (compressionTypeID = CompressionTypeIDZlib) then
        let '(decompressBuf, p) := acquireBuffer p pick in
        let '(written, err) :=
          decompressZlib zlib_inflate (Buffer_Bytes p decompressBuf) compressedData in
        let p := Buffer_set p decompressBuf written in
        let p' :=
          if canReleaseBufferOnDecode b then returnBuffer p decompressBuf else p in
        match err with
        | Some e => (((zeroCacheObject zeroV, Some e), s), p', None)
        | None =>
            (Decode (inner b) (Buffer_Bytes p decompressBuf) s, p', Some decompressBuf)
        end
      else
        (((zeroCacheObject zeroV,
           Some (Errorf_unsupported_compression_type compressionTypeID)), s),
         p, None)
  end.

(** A call on the codec, and a sequence of calls on one codec. *)
Inductive call : Type :=
  | CallEncode (pick : nat) (value : CacheObject V)
  | CallDecode (pick : nat) (data : list byte).

Definition do_call (b : binaryCompressionCodec V St) (ps : buffers * St) (c : call)
  : buffers * St :=
  match c with
  | CallEncode pick value =>
      let '((_, s), p) := pooled_Encode b ps.1 pick value ps.2 in (p, s)
  | CallDecode pick data =>
      let '((_, s), p, _) := pooled_Decode b ps.1 pick data ps.2 in (p, s)
  end.

Definition do_calls (b : binaryCompressionCodec V St) (ps : buffers * St)
    (cs : list call) : buffers * St :=
  foldl (do_call b) ps cs.

End Pooled.

Arguments call : clear implicits.

(** The buffer at [buf] is allocated, holds [bs] and is outside the pool. *)
Definition kept (p : buffers) (buf : nat) (bs : list byte) : Prop :=
  contents p !! buf = Some bs ∧ buf ∉ bufPool p.

(** What holds of the buffers between calls: the pool has no buffer twice,
    every buffer in it is allocated and empty, and addresses from [next_buf]
    on are unused. *)
Record pool_ok (p : buffers) : Prop := mkPoolOk {
  pool_nodup : NoDup (bufPool p);
  pool_empty : ∀ buf, buf ∈ bufPool p → contents p !! buf = Some [];
  pool_bound : ∀ buf, is_Some (contents p !! buf) → (buf < next_buf p)%nat
}.

End CodecPool.

(** ** ext/rueidis: the Redis cache provider *)

Module RedisProvider.

(** [rueidis.RedisMessage], by what [parseRedisGetMessage] asks of it:
    [IsNil()] and the result of [AsBytes()]. *)
Record RedisMessage : Type := mkRedisMessage {
  IsNil : bool;
  AsBytes : list byte * option error
}.

(** [parseRedisGetMessage(msg, err)]: the value, whether the key was found,
    and the error. *)
Definition parseRedisGetMessage (msg : RedisMessage) (err : option error)
  : list byte * bool * option error :=
  if IsNil msg then ([], false, None)
  else
    match err with
    | Some e =>
        if errors_Is err rueidis_Nil then ([], false, None)
        else ([], false, Some e)
    | None =>
        match AsBytes msg with
        | (_, Some e) => ([], false, Some e)
        | (value, None) => (value, true, None)
        end
    end.

End RedisProvider.

(** ** The context package, as far as loader.go uses it *)

Module GoContext.

(** The identity of a [CancelFunc].  Those the loader creates for its
    inflight records ([inr]) are kept apart from those of the callers'
    environment ([inl]), which never holds the former. *)
Abbreviation cancel_id := (nat + nat)%type.

(** Contexts by the calls that build them. *)
Inductive Context : Type :=
  | Background
  | WithCancel (parent : Context) (id : cancel_id)
  | WithDeadline (parent : Context) (d : Z) (id : cancel_id)
  | WithoutCancel (parent : Context).

(** What a context can observe: the cancel functions called so far and the
    wall clock. *)
Record world : Type := mkWorld {
  w_cancelled : gset cancel_id;
  w_now : Z
}.

(** [ctx.Deadline()]: the earliest deadline up to the nearest
    [WithoutCancel], which hides those of its parent. *)
Fixpoint Deadline (c : Context) : option Z :=
  match c with
  | Background => None
  | WithCancel parent _ => Deadline parent
  | WithDeadline parent d _ =>
      match Deadline parent with
      | Some d' => Some (Z.min d d')
      | None => Some d
      end
  | WithoutCancel _ => None
  end.

(** Whether [ctx.Done()] is closed: the context's own cancel function was
    called, its deadline has passed, or its parent is done; a
    [WithoutCancel] context is never done. *)
Fixpoint Done (w : world) (c : Context) : bool :=
  match c with
  | Background => false
  | WithCancel parent id => bool_decide (id ∈ w_cancelled w) || Done w parent
  | WithDeadline parent d id =>
      bool_decide (id ∈ w_cancelled w) || bool_decide (d ≤ w_now w) || Done w parent
  | WithoutCancel _ => false
  end.

(** [context.WithTimeout(parent, timeout)] at time [now]. *)
Definition WithTimeout (now : Z) (parent : Context) (timeout : Z) (id : cancel_id)
  : Context :=
  WithDeadline parent (now + timeout) id.

(** The values [ctx.Err()] can have once the context is done. *)
Definition is_ctx_err (e : error) : bool :=
  bool_decide (e = Canceled) || bool_decide (e = DeadlineExceeded).

End GoContext.

(** ** loader.go *)

Module Loader.
Import GoContext.

Definition minShardCount : Z := 8.
Definition maxShardCount : Z := 32.
Definition shardMultiplier : Z := 2.

(** Arithmetic on [int] wraps around at 64 bits. *)
Definition wrap_int (z : Z) : Z := (z + 2 ^ 63) `mod` 2 ^ 64 - 2 ^ 63.

(** The package variable [shardCount]; [gomaxprocs] is
    [runtime.GOMAXPROCS(0)]. *)
Definition shardCount (gomaxprocs : Z) : Z :=
  Z.max (Z.min (wrap_int (gomaxprocs * shardMultiplier)) maxShardCount)
        minShardCount.

(** [clamp(x, lo, hi)] of the specification. *)
Definition clamp (x lo hi : Z) : Z :=
  if bool_decide (x < lo) then lo else if bool_decide (hi < x) then hi else x.

Section Loader.
Context {V : Type} (zeroV : V).

(** [hashKey]: [maphash.String(mapHashSeed, key)], a uint64.  The seed is
    made once, when the package is initialised. *)
Variable hashKey : string → Z.

(** [inflight[V]].  [cancel] is the identity of the record's cancel
    function and [doneCh] that of its channel. *)
Record inflight : Type := mkInflight {
  ctx : Context;
  cancel : cancel_id;
  refs : Z;
  val : V;
  err : option error;
  doneCh : nat;
  done : bool;
  pooled : bool
}.

Definition set_refs (inf : inflight) (n : Z) : inflight :=
  mkInflight (ctx inf) (cancel inf) n (val inf) (err inf) (doneCh inf)
             (done inf) (pooled inf).

Definition set_pooled (inf : inflight) (p : bool) : inflight :=
  mkInflight (ctx inf) (cancel inf) (refs inf) (val inf) (err inf) (doneCh inf)
             (done inf) p.

(** [inf.val = v; inf.err = err; inf.done = true] *)
Definition set_result (inf : inflight) (v : V) (e : option error) : inflight :=
  mkInflight (ctx inf) (cancel inf) (refs inf) v e (doneCh inf) true (pooled inf).

(** Calls on the [MetricsProvider], as the loader makes them. *)
Inductive metric : Type :=
  | RecordLoad (c : Context)
  | RecordLoadConcurrency (c : Context) (refs : Z).

(** The loader and the part of the Go runtime it works on.
    - [shards]: the [inflight] map of each [singleflightShard]; every access
      is made with the shard's mutex held, so each of [acquireInflight],
      [finishInflight] and [releaseInflight] below is one atomic step.
    - [heap]: the inflight records allocated so far, by address.
    - [inflightPool]: the records inside the [sync.Pool].
    - [closed]: the channels that have been closed; [next_chan] names the
      next channel [make] returns.
    - [cancelled], [now]: the world the contexts observe.
    - [metrics]: the calls made on the metrics provider, oldest first.
    - [puts] and [completions] are history, not data of the program: the
      [Put] calls made on the pool, each with the channel the record had at
      that moment (a channel is made per [newInflight], so it names one life
      of the record), and what [finishInflight] stored, by channel. *)
Record state : Type := mkState {
  shards : list (gmap string nat);
  heap : gmap nat inflight;
  next_addr : nat;
  inflightPool : list nat;
  closed : gset nat;
  next_chan : nat;
  cancelled : gset cancel_id;
  next_cancel : nat;
  now : Z;
  metrics : list metric;
  puts : list (nat * nat);
  completions : gmap nat (V * option error)
}.

Definition the_world (st : state) : world := mkWorld (cancelled st) (now st).

(** [newSingleflightLoader]: [shardCount] shards with empty maps and an
    empty pool. *)
Definition newSingleflightLoader (gomaxprocs : Z) : state :=
  mkState (replicate (Z.to_nat (shardCount gomaxprocs)) ∅) ∅ 0 [] ∅ 0 ∅ 0 0 [] [] ∅.

(** The index of [shardFor(key)] in [l.shards]. *)
Definition shardFor (st : state) (key : string) : nat :=
  Z.to_nat (hashKey key `mod` Z.of_nat (length (shards st))).

(** [l.inflightPool.Get()]: a record of the pool, here the one at index
    [pick], which leaves the pool; or, when the pool has none there, the
    record [New] allocates.  A [sync.Pool] may also drop what it holds; a
    record it has dropped is one that no [pick] selects.  Result: the
    address, the remaining pool and the next free address. *)
Definition pool_Get (st : state) (pick : nat) : nat * list nat * nat :=
  match inflightPool st !! pick with
  | Some a => (a, delete pick (inflightPool st), next_addr st)
  | None => (next_addr st, inflightPool st, S (next_addr st))
  end.

(** [newInflight(ctx)]: every field of the record obtained from the pool
    is overwritten. *)
Definition newInflight (st : state) (c : Context) (pick : nat) : state * nat :=
  let id : cancel_id := inr (next_cancel st) in
  let c' := WithCancel (WithoutCancel c) id in
  let '(a, pool', next_addr') := pool_Get st pick in
  let inf := mkInflight c' id 1 zeroV None (next_chan st) false false in
  (mkState (shards st) (<[a := inf]> (heap st)) next_addr' pool'
           (closed st) (S (next_chan st)) (cancelled st) (S (next_cancel st))
           (now st) (metrics st) (puts st) (completions st),
   a).

Definition set_shard (st : state) (i : nat) (m : gmap string nat) : state :=
  mkState (<[i := m]> (shards st)) (heap st) (next_addr st) (inflightPool st)
          (closed st) (next_chan st) (cancelled st) (next_cancel st) (now st)
          (metrics st) (puts st) (completions st).

Definition set_heap (st : state) (a : nat) (inf : inflight) : state :=
  mkState (shards st) (<[a := inf]> (heap st)) (next_addr st) (inflightPool st)
          (closed st) (next_chan st) (cancelled st) (next_cancel st) (now st)
          (metrics st) (puts st) (completions st).

(** [l.inflightPool.Put(inf)] after [inf.pooled = true]. *)
Definition pool_Put (st : state) (a : nat) (inf : inflight) : state :=
  mkState (shards st) (<[a := set_pooled inf true]> (heap st)) (next_addr st)
          (a :: inflightPool st)
          (closed st) (next_chan st) (cancelled st) (next_cancel st) (now st)
          (metrics st) ((a, doneCh inf) :: puts st) (completions st).

(** [acquireInflight(ctx, key)]: the record, the leader flag and the shard.
    [None] is a run-time panic (no shard, or a map entry that points
    nowhere); the receive from [inf.doneCh] in the [select] succeeds exactly
    when that channel is closed. *)
Definition acquireInflight (st : state) (c : Context) (key : string) (pick : nat)
  : option (state * (nat * bool * nat)) :=
  let shard := shardFor st key in
  m ← shards st !! shard;
  match m !! key with
  | Some a =>
      inf ← heap st !! a;
      if bool_decide (doneCh inf ∈ closed st) then
        let '(st1, newInf) := newInflight st c pick in
        Some (set_shard st1 shard (<[key := newInf]> m), (newInf, true, shard))
      else
        Some (set_heap st a (set_refs inf (refs inf + 1)), (a, false, shard))
  | None =>
      let '(st1, newInf) := newInflight st c pick in
      Some (set_shard st1 shard (<[key := newInf]> m), (newInf, true, shard))
  end.

(** A call on [l.metrics]. *)
Definition record_metric (st : state) (m : metric) : state :=
  mkState (shards st) (heap st) (next_addr st) (inflightPool st) (closed st)
          (next_chan st) (cancelled st) (next_cancel st) (now st)
          (metrics st ++ [m]) (puts st) (completions st).

(** [inf.val = v; inf.err = err; inf.done = true; close(inf.doneCh)] *)
Definition store_result (st : state) (a : nat) (inf : inflight) (v : V)
    (e : option error) : state :=
  mkState (shards st) (<[a := set_result inf v e]> (heap st)) (next_addr st)
          (inflightPool st) ({[doneCh inf]} ∪ closed st) (next_chan st)
          (cancelled st) (next_cancel st) (now st) (metrics st) (puts st)
          (<[doneCh inf := (v, e)]> (completions st)).

(** [inf.cancel()] *)
Definition call_cancel (st : state) (id : cancel_id) : state :=
  mkState (shards st) (heap st) (next_addr st) (inflightPool st) (closed st)
          (next_chan st) ({[id]} ∪ cancelled st) (next_cancel st) (now st)
          (metrics st) (puts st) (completions st).

(** [finishInflight(inf, shard, v, err)].  Closing a closed channel
    panics. *)
Definition finishInflight (st : state) (a : nat) (shard : nat) (v : V)
    (e : option error) : option state :=
  inf ← heap st !! a;
  if bool_decide (doneCh inf ∈ closed st) then None
  else
    let refs0 := refs inf in
    let ctx0 := ctx inf in
    let inf1 := set_result inf v e in
    let st1 := store_result st a inf v e in
    let st2 :=
      if bool_decide (refs inf1 ≤ 0) && negb (pooled inf1)
      then pool_Put st1 a inf1
      else st1 in
    Some (record_metric st2 (RecordLoadConcurrency ctx0 refs0)).

(** [releaseInflight(key, inf, shard)]. *)
Definition releaseInflight (st : state) (key : string) (a : nat) (shard : nat)
  : option state :=
  inf ← heap st !! a;
  m ← shards st !! shard;
  let inf1 := set_refs inf (refs inf - 1) in
  let st1 := set_heap st a inf1 in
  if bool_decide (refs inf1 ≤ 0) then
    let st2 :=
      if bool_decide (m !! key = Some a)
      then set_shard st1 shard (delete key m)
      else st1 in
    let st3 := call_cancel st2 (cancel inf1) in
    Some (if done inf1 && negb (pooled inf1) then pool_Put st3 a inf1 else st3)
  else Some st1.

(** The end of [singleflightLoader.load]: what the caller returns once it
    has read [inf.val] and [inf.err]. *)
Definition load_result (v : V) (e : option error) (leader : bool)
  : V * bool * option error :=
  match e with
  | Some e' => (zeroV, leader, Some e')
  | None => (v, leader, None)
  end.

(** [directLoader.load(ctx, key, loader)] *)
Definition directLoader_load (c : Context) (key : string)
    (loader : Context → V * option error) : V * bool * option error :=
  let '(v, e) := loader c in
  match e with
  | Some e' => (zeroV, true, Some e')
  | None => (v, true, None)
  end.

(** *** The goroutines around the loader

    [singleflightLoader.load] blocks in a [select] and its leader runs the
    fetch on a goroutine of its own, so a call is a sequence of steps that
    interleave with those of other calls.  A caller is at one of the
    following points of [load]. *)
Inductive caller : Type :=
  | Calling (c : Context) (key : string)
      (* entered [load] *)
  | Acquired (c : Context) (key : string) (inf : nat) (leader : bool)
             (shard : nat) (to_spawn : bool)
      (* [acquireInflight] returned; [to_spawn]: the [go] statement is
         still to be run *)
  | Waiting (c : Context) (key : string) (inf : nat) (leader : bool)
            (shard : nat) (ch : nat)
      (* blocked in the [select] on [ctx.Done()] and on [ch], the value
         [inf.doneCh] had when the [select] was entered *)
  | Woken (c : Context) (key : string) (inf : nat) (leader : bool)
          (shard : nat) (ch : nat)
      (* received from [inf.doneCh] *)
  | Loaded (key : string) (inf : nat) (leader : bool) (shard : nat)
           (v : V) (e : option error) (ch : nat)
      (* has read [inf.val] and [inf.err] *)
  | Cancelled (key : string) (inf : nat) (leader : bool) (shard : nat)
              (e : error)
      (* received from [ctx.Done()]; [e] is [ctx.Err()], which no longer
         changes once the context is done *)
  | Returned (v : V) (leader : bool) (e : option error) (served : option nat).
      (* [served]: the channel whose close woke the caller, if one did *)

(** The goroutine a leader starts. *)
Inductive task : Type :=
  | Spawned (c : Context) (inf : nat) (shard : nat)
      (* about to call [l.metrics.RecordLoad(ctx)] *)
  | Fetching (inf : nat) (shard : nat)
      (* inside [loader(inf.ctx)] *)
  | Exited.

Record system : Type := mkSystem {
  ldr : state;
  callers : list caller;
  tasks : list task
}.

(** What can happen next.  The environment decides when a goroutine enters
    [load], which record the pool hands out, what the fetch returns, when a
    cancel function is called and how time passes. *)
Inductive action : Type :=
  | ActCall (c : Context) (key : string)
  | ActAcquire (tid : nat) (pick : nat)
  | ActSpawn (tid : nat)
  | ActSelect (tid : nat)
  | ActCtxDone (tid : nat) (e : error)
  | ActDoneCh (tid : nat)
  | ActRead (tid : nat)
  | ActRelease (tid : nat)
  | ActRecordLoad (k : nat)
  | ActFinish (k : nat) (v : V) (e : option error)
  | ActCancel (n : nat)
  | ActTick (d : Z).

Definition set_caller (s : system) (st : state) (tid : nat) (c : caller) : system :=
  mkSystem st (<[tid := c]> (callers s)) (tasks s).

Definition set_task (s : system) (st : state) (k : nat) (t : task) : system :=
  mkSystem st (callers s) (<[k := t]> (tasks s)).

Definition set_world (st : state) (cs : gset cancel_id) (t : Z) : state :=
  mkState (shards st) (heap st) (next_addr st) (inflightPool st) (closed st)
          (next_chan st) cs (next_cancel st) t
          (metrics st) (puts st) (completions st).

(** One step; [None] when the action is not enabled in [s], or when the
    code would panic there.  The steps are the critical sections of the
    shard mutex and, between them, what a goroutine does on its own.
    [finishInflight] is one step together with the
    [RecordLoadConcurrency] call that follows its unlock: the call takes the
    [ctx] and [refs] read under the lock and touches nothing else. *)
Definition step (s : system) (act : action) : option system :=
  match act with
  | ActCall c key =>
      Some (mkSystem (ldr s) (callers s ++ [Calling c key]) (tasks s))
  | ActAcquire tid pick =>
      match callers s !! tid with
      | Some (Calling c key) =>
          '(st, (inf, leader, shard)) ← acquireInflight (ldr s) c key pick;
          Some (set_caller s st tid (Acquired c key inf leader shard leader))
      | _ => None
      end
  | ActSpawn tid =>
      match callers s !! tid with
      | Some (Acquired c key inf leader shard true) =>
          Some (mkSystem (ldr s)
                  (<[tid := Acquired c key inf leader shard false]> (callers s))
                  (tasks s ++ [Spawned c inf shard]))
      | _ => None
      end
  | ActSelect tid =>
      match callers s !! tid with
      | Some (Acquired c key inf leader shard false) =>
          i ← heap (ldr s) !! inf;
          Some (set_caller s (ldr s) tid (Waiting c key inf leader shard (doneCh i)))
      | _ => None
      end
  | ActCtxDone tid e =>
      match callers s !! tid with
      | Some (Waiting c key inf leader shard ch) =>
          if Done (the_world (ldr s)) c && is_ctx_err e
          then Some (set_caller s (ldr s) tid (Cancelled key inf leader shard e))
          else None
      | _ => None
      end
  | ActDoneCh tid =>
      match callers s !! tid with
      | Some (Waiting c key inf leader shard ch) =>
          if bool_decide (ch ∈ closed (ldr s))
          then Some (set_caller s (ldr s) tid (Woken c key inf leader shard ch))
          else None
      | _ => None
      end
  | ActRead tid =>
      match callers s !! tid with
      | Some (Woken c key inf leader shard ch) =>
          i ← heap (ldr s) !! inf;
          Some (set_caller s (ldr s) tid (Loaded key inf leader shard (val i) (err i) ch))
      | _ => None
      end
  | ActRelease tid =>
      match callers s !! tid with
      | Some (Loaded key inf leader shard v e ch) =>
          st ← releaseInflight (ldr s) key inf shard;
          let '(v', leader', e') := load_result v e leader in
          Some (set_caller s st tid (Returned v' leader' e' (Some ch)))
      | Some (Cancelled key inf leader shard e) =>
          st ← releaseInflight (ldr s) key inf shard;
          Some (set_caller s st tid (Returned zeroV leader (Some e) None))
      | _ => None
      end
  | ActRecordLoad k =>
      match tasks s !! k with
      | Some (Spawned c inf shard) =>
          Some (set_task s (record_metric (ldr s) (RecordLoad c)) k (Fetching inf shard))
      | _ => None
      end
  | ActFinish k v e =>
      match tasks s !! k with
      | Some (Fetching inf shard) =>
          st ← finishInflight (ldr s) inf shard v e;
          Some (set_task s st k Exited)
      | _ => None
      end
  | ActCancel n =>
      Some (mkSystem (set_world (ldr s) ({[inl n]} ∪ cancelled (ldr s)) (now (ldr s)))
                     (callers s) (tasks s))
  | ActTick d =>
      if bool_decide (0 ≤ d)
      then Some (mkSystem (set_world (ldr s) (cancelled (ldr s)) (now (ldr s) + d))
                          (callers s) (tasks s))
      else None
  end.

(** The same steps as a relation, one rule for each way [step] succeeds. *)
Inductive steps_to (s : system) : action → system → Prop :=
  | steps_call c key :
      steps_to s (ActCall c key)
        (mkSystem (ldr s) (callers s ++ [Calling c key]) (tasks s))
  | steps_acquire tid pick c key st inf leader shard :
      callers s !! tid = Some (Calling c key) →
      acquireInflight (ldr s) c key pick = Some (st, (inf, leader, shard)) →
      steps_to s (ActAcquire tid pick)
        (set_caller s st tid (Acquired c key inf leader shard leader))
  | steps_spawn tid c key inf leader shard :
      callers s !! tid = Some (Acquired c key inf leader shard true) →
      steps_to s (ActSpawn tid)
        (mkSystem (ldr s)
           (<[tid := Acquired c key inf leader shard false]> (callers s))
           (tasks s ++ [Spawned c inf shard]))
  | steps_select tid c key inf leader shard i :
      callers s !! tid = Some (Acquired c key inf leader shard false) →
      heap (ldr s) !! inf = Some i →
      steps_to s (ActSelect tid)
        (set_caller s (ldr s) tid (Waiting c key inf leader shard (doneCh i)))
  | steps_ctx_done tid e c key inf leader shard ch :
      callers s !! tid = Some (Waiting c key inf leader shard ch) →
      Done (the_world (ldr s)) c = true → is_ctx_err e = true →
      steps_to s (ActCtxDone tid e)
        (set_caller s (ldr s) tid (Cancelled key inf leader shard e))
  | steps_done_ch tid c key inf leader shard ch :
      callers s !! tid = Some (Waiting c key inf leader shard ch) →
      ch ∈ closed (ldr s) →
      steps_to s (ActDoneCh tid)
        (set_caller s (ldr s) tid (Woken c key inf leader shard ch))
  | steps_read tid c key inf leader shard ch i :
      callers s !! tid = Some (Woken c key inf leader shard ch) →
      heap (ldr s) !! inf = Some i →
      steps_to s (ActRead tid)
        (set_caller s (ldr s) tid (Loaded key inf leader shard (val i) (err i) ch))
  | steps_release_loaded tid key inf leader shard v e ch st :
      callers s !! tid = Some (Loaded key inf leader shard v e ch) →
      releaseInflight (ldr s) key inf shard = Some st →
      steps_to s (ActRelease tid)
        (set_caller s st tid
           (Returned (load_result v e leader).1.1 (load_result v e leader).1.2
                     (load_result v e leader).2 (Some ch)))
  | steps_release_cancelled tid key inf leader shard e st :
      callers s !! tid = Some (Cancelled key inf leader shard e) →
      releaseInflight (ldr s) key inf shard = Some st →
      steps_to s (ActRelease tid)
        (set_caller s st tid (Returned zeroV leader (Some e) None))
  | steps_record_load k c inf shard :
      tasks s !! k = Some (Spawned c inf shard) →
      steps_to s (ActRecordLoad k)
        (set_task s (record_metric (ldr s) (RecordLoad c)) k (Fetching inf shard))
  | steps_finish k v e inf shard st :
      tasks s !! k = Some (Fetching inf shard) →
      finishInflight (ldr s) inf shard v e = Some st →
      steps_to s (ActFinish k v e) (set_task s st k Exited)
  | steps_cancel n :
      steps_to s (ActCancel n)
        (mkSystem (set_world (ldr s) ({[inl n]} ∪ cancelled (ldr s)) (now (ldr s)))
                  (callers s) (tasks s))
  | steps_tick d :
      0 ≤ d →
      steps_to s (ActTick d)
        (mkSystem (set_world (ldr s) (cancelled (ldr s)) (now (ldr s) + d))
                  (callers s) (tasks s)).

(** The system a program starts in, and a run of it. *)
Definition initial (gomaxprocs : Z) : system :=
  mkSystem (newSingleflightLoader gomaxprocs) [] [].

Fixpoint run (s : system) (acts : list action) : option system :=
  match acts with
  | [] => Some s
  | act :: acts => s' ← step s act; run s' acts
  end.

Inductive reachable (gomaxprocs : Z) : system → Prop :=
  | reachable_initial : reachable gomaxprocs (initial gomaxprocs)
  | reachable_step s act s' :
      reachable gomaxprocs s → step s act = Some s' → reachable gomaxprocs s'.

End Loader.

Arguments inflight : clear implicits.
Arguments state : clear implicits.
Arguments caller : clear implicits.
Arguments system : clear implicits.
Arguments action : clear implicits.

(** Modelled from the spec: the context [newInflight] gives a record when
    the loader was built with a [maxLoadTimeout].  The loader tests call
    [newSingleflightLoader(metrics, timeout)] and doc.go names
    [WithMaxLoadTimeout], but the [loader.go] at hand has the constructor
    without that argument; its [newInflight] is the case
    [maxLoadTimeout = 0] below.  The spec: "derived from a blank parent (so
    caller cancellations do not cancel it) and, if a configured
    [maxLoadTimeout > 0] is set, bounded by that deadline.  A zero/unset
    timeout means no deadline."  [now] is the time of the call. *)
Definition loadContext (maxLoadTimeout : Z) (now : Z) (c : Context)
    (id : cancel_id) : Context :=
  if bool_decide (0 < maxLoadTimeout)
  then WithTimeout now (WithoutCancel c) maxLoadTimeout id
  else WithCancel (WithoutCancel c) id.

End Loader.

(** ** Invariants of the loader *)

Module LoaderInv.
Import GoContext Loader.

(** [tally f l]: the sum of [f] over [l]; used to count the goroutines that
    stand in some relation to a record. *)
Fixpoint tally {A : Type} (f : A → Z) (l : list A) : Z :=
  match l with
  | [] => 0
  | x :: l => f x + tally f l
  end.

Section Invariants.
Context {V : Type} (zeroV : V).

(** The record a caller holds a reference on, with the key and the shard
    it will release it under. *)
Definition caller_ref (c : caller V) : option (nat * string * nat) :=
  match c with
  | Calling _ _ => None
  | Acquired _ key inf _ shard _ => Some (inf, key, shard)
  | Waiting _ key inf _ shard _ => Some (inf, key, shard)
  | Woken _ key inf _ shard _ => Some (inf, key, shard)
  | Loaded key inf _ shard _ _ _ => Some (inf, key, shard)
  | Cancelled key inf _ shard _ => Some (inf, key, shard)
  | Returned _ _ _ _ => None
  end.

Definition holds (a : nat) (c : caller V) : Z :=
  match caller_ref c with
  | Some (inf, _, _) => if bool_decide (inf = a) then 1 else 0
  | None => 0
  end.

(** The number of callers that hold a reference on the record at [a]. *)
Definition holders (a : nat) (cs : list (caller V)) : Z := tally (holds a) cs.

(** A fetch for the record at [a] is still to complete: a leader is about
    to start its goroutine, or the goroutine runs. *)
Definition to_start (a : nat) (c : caller V) : Z :=
  match c with
  | Acquired _ _ inf _ _ true => if bool_decide (inf = a) then 1 else 0
  | _ => 0
  end.

Definition runs (a : nat) (t : task) : Z :=
  match t with
  | Spawned _ inf _ | Fetching inf _ => if bool_decide (inf = a) then 1 else 0
  | Exited => 0
  end.

Definition pending (a : nat) (s : system V) : Z :=
  tally (to_start a) (callers s) + tally (runs a) (tasks s).

Definition is_exited (t : task) : Z :=
  match t with Exited => 1 | _ => 0 end.

Definition is_concurrency (m : metric) : Z :=
  match m with RecordLoadConcurrency _ _ => 1 | RecordLoad _ => 0 end.

(** Invariants of the loader's own data. *)
Record wf (st : state V) : Prop := mkWf {
  wf_heap_bound : ∀ a inf, heap st !! a = Some inf →
    (a < next_addr st)%nat ∧ (doneCh inf < next_chan st)%nat;
  wf_closed_bound : ∀ ch, ch ∈ closed st → (ch < next_chan st)%nat;
  wf_done_closed : ∀ a inf, heap st !! a = Some inf →
    done inf = true ↔ doneCh inf ∈ closed st;
  wf_chan_inj : ∀ a b ia ib, heap st !! a = Some ia → heap st !! b = Some ib →
    doneCh ia = doneCh ib → a = b;
  wf_map : ∀ i m k a, shards st !! i = Some m → m !! k = Some a →
    ∃ inf, heap st !! a = Some inf ∧ 1 ≤ refs inf ∧ pooled inf = false;
  wf_map_unique : ∀ i m k i' m' k' a,
    shards st !! i = Some m → m !! k = Some a →
    shards st !! i' = Some m' → m' !! k' = Some a → i = i' ∧ k = k';
  wf_pooled : ∀ a inf, heap st !! a = Some inf → pooled inf = true →
    done inf = true ∧ refs inf ≤ 0;
  wf_pool : ∀ a, a ∈ inflightPool st →
    ∃ inf, heap st !! a = Some inf ∧ pooled inf = true;
  wf_pool_nodup : NoDup (inflightPool st);
  wf_puts : ∀ b ch, (b, ch) ∈ puts st →
    (ch < next_chan st)%nat ∧
    ∀ a inf, heap st !! a = Some inf → doneCh inf = ch → pooled inf = true;
  wf_puts_nodup : NoDup ((puts st).*2);
  wf_completions : ∀ a inf, heap st !! a = Some inf → done inf = true →
    completions st !! doneCh inf = Some (val inf, err inf);
  wf_completions_closed : ∀ ch, is_Some (completions st !! ch) → ch ∈ closed st
}.

(** What a caller knows about the record it holds. *)
Definition caller_ok (st : state V) (c : caller V) : Prop :=
  match c with
  | Calling _ _ => True
  | Acquired _ _ a leader shard to_spawn =>
      is_Some (heap st !! a) ∧ (shard < length (shards st))%nat ∧
      (to_spawn = true → leader = true)
  | Waiting _ _ a _ shard ch =>
      (∃ inf, heap st !! a = Some inf ∧ doneCh inf = ch) ∧
      (shard < length (shards st))%nat
  | Woken _ _ a _ shard ch =>
      (∃ inf, heap st !! a = Some inf ∧ doneCh inf = ch) ∧
      (shard < length (shards st))%nat ∧ ch ∈ closed st
  | Loaded _ a _ shard v e ch =>
      (∃ inf, heap st !! a = Some inf ∧ doneCh inf = ch) ∧
      (shard < length (shards st))%nat ∧
      completions st !! ch = Some (v, e)
  | Cancelled _ a _ shard _ =>
      is_Some (heap st !! a) ∧ (shard < length (shards st))%nat
  | Returned v leader e (Some ch) =>
      ∃ v0 e0, completions st !! ch = Some (v0, e0) ∧
               (v, leader, e) = load_result zeroV v0 e0 leader
  | Returned _ _ _ None => True
  end.

Definition task_ok (st : state V) (t : task) : Prop :=
  match t with
  | Spawned _ a _ | Fetching a _ => is_Some (heap st !! a)
  | Exited => True
  end.

(** Invariants of the whole system. *)
Record inv (s : system V) : Prop := mkInv {
  inv_wf : wf (ldr s);
  inv_shards : shards (ldr s) ≠ [];
  inv_refs : ∀ a inf, heap (ldr s) !! a = Some inf →
    refs inf = holders a (callers s);
  inv_pending : ∀ a inf, heap (ldr s) !! a = Some inf →
    pending a s = if done inf then 0 else 1;
  inv_holder : ∀ i m k a tid c key shard,
    shards (ldr s) !! i = Some m → m !! k = Some a →
    callers s !! tid = Some c → caller_ref c = Some (a, key, shard) →
    i = shard ∧ k = key;
  inv_callers : ∀ tid c, callers s !! tid = Some c → caller_ok (ldr s) c;
  inv_tasks : ∀ k t, tasks s !! k = Some t → task_ok (ldr s) t;
  inv_metrics :
    tally is_concurrency (metrics (ldr s)) = tally is_exited (tasks s);
  inv_metrics_nonneg : ∀ c n,
    RecordLoadConcurrency c n ∈ metrics (ldr s) → 0 ≤ n
}.

(** The record [newInflight] writes. *)
Definition fresh_record (st : state V) (c : Context) : inflight V :=
  mkInflight (WithCancel (WithoutCancel c) (inr (next_cancel st)))
             (inr (next_cancel st)) 1 zeroV None (next_chan st) false false.

(** The state [releaseInflight] leaves when the count has dropped to zero,
    before the record may go to the pool. *)
Definition released (st : state V) (key : string) (a : nat) (shard : nat)
    (inf : inflight V) (m : gmap string nat) : state V :=
  let inf1 := set_refs inf (refs inf - 1) in
  let st1 := set_heap st a inf1 in
  call_cancel (if bool_decide (m !! key = Some a)
               then set_shard st1 shard (delete key m)
               else st1)
              (cancel inf1).
Arguments released : simpl never.

(** What a step does to the pool.  Either no [Put] is made, the pool gains
    nothing and no record's [pooled] flag becomes true; or exactly one record
    is [Put], its flag goes from false to true in this step, and it is done
    with no reference left.  In both cases a flag that is true stays true
    for as long as the record keeps its channel. *)
Definition no_put (st st' : state V) : Prop :=
  puts st' = puts st ∧
  (∀ a, a ∈ inflightPool st' → a ∈ inflightPool st) ∧
  (∀ a inf inf', heap st !! a = Some inf → heap st' !! a = Some inf' →
     pooled inf = false → pooled inf' = false).

Definition one_put (st st' : state V) : Prop :=
  ∃ a inf inf',
    heap st !! a = Some inf ∧ heap st' !! a = Some inf' ∧
    pooled inf = false ∧ pooled inf' = true ∧
    done inf' = true ∧ refs inf' ≤ 0 ∧ doneCh inf' = doneCh inf ∧
    puts st' = (a, doneCh inf') :: puts st ∧
    inflightPool st' = a :: inflightPool st ∧
    (∀ b ib ib', b ≠ a → heap st !! b = Some ib → heap st' !! b = Some ib' →
       pooled ib' = pooled ib).

Definition stays_pooled (st st' : state V) : Prop :=
  ∀ a inf inf', heap st !! a = Some inf → heap st' !! a = Some inf' →
    pooled inf = true → doneCh inf' = doneCh inf → pooled inf' = true.

Definition put_effect (st st' : state V) : Prop :=
  (no_put st st' ∨ one_put st st') ∧ stays_pooled st st'.

End Invariants.

Arguments inv_wf {V zeroV} s _.
Arguments inv_shards {V zeroV} s _.
Arguments inv_refs {V zeroV} s _.
Arguments inv_pending {V zeroV} s _.
Arguments inv_holder {V zeroV} s _.
Arguments inv_callers {V zeroV} s _.
Arguments inv_tasks {V zeroV} s _.
Arguments inv_metrics {V zeroV} s _.
Arguments inv_metrics_nonneg {V zeroV} s _.

(** *** Scenarios to run the loader on *)

(** A hash to run the loader with, payloads in [Z], and a caller context
    that its owner can cancel. *)
Definition demo_hash (key : string) : Z := Z.of_nat (String.length key).

Definition demo_ctx : Context := WithCancel Background (inl 0%nat).

(** One caller for the key "k": it leads, starts the fetch and waits. *)
Definition one_waiting : list (action Z) :=
  [ActCall demo_ctx "k"; ActAcquire 0 0; ActSpawn 0; ActSelect 0;
   ActRecordLoad 0].

(** Scenario 3 of the spec: the only caller gives up before the fetch
    completes. *)
Definition abandoned_fetch : list (action Z) :=
  one_waiting ++
  [ActCancel 0; ActCtxDone 0 Canceled; ActRelease 0; ActFinish 0 7 None].

(** The fetch fails with "boom" (and a value); the caller's context is
    cancelled before its [select] runs again, and the [select] takes the
    [ctx.Done()] branch. *)
Definition failed_fetch_cancelled_caller : list (action Z) :=
  [ActFinish 0 7 (Some (Foreign "boom")); ActCancel 0; ActCtxDone 0 Canceled;
   ActRelease 0].

(** Scenario 1 of the spec, with a failing fetch: a second caller joins
    while the fetch runs, and both wait for it. *)
Definition two_callers_failed_fetch : list (action Z) :=
  one_waiting ++
  [ActCall Background "k"; ActAcquire 1 0; ActSelect 1;
   ActFinish 0 7 (Some (Foreign "boom"));
   ActDoneCh 0; ActDoneCh 1; ActRead 1; ActRead 0; ActRelease 0; ActRelease 1].

(** Two loads of the same key, one after the other: the second one gets
    the record of the first from the pool. *)
Definition two_loads_in_turn : list (action Z) :=
  [ActCall Background "k"; ActAcquire 0 0; ActSpawn 0; ActSelect 0;
   ActRecordLoad 0; ActFinish 0 7 None; ActDoneCh 0; ActRead 0; ActRelease 0;
   ActCall Background "k"; ActAcquire 1 0; ActSpawn 1; ActSelect 1;
   ActRecordLoad 1; ActFinish 1 8 None; ActDoneCh 1; ActRead 1; ActRelease 1].

(** TestSingleflightLoader_PoolPutOnlyAfterDone, up to its first record:
    [(refs, done, pooled)] after the release, after the finish and after the
    extra release. *)
Definition pool_put_only_after_done : option (list (Z * bool * bool)) :=
  let observe (st : state Z) (a : nat) :=
    (λ inf, (refs inf, done inf, pooled inf)) <$> heap st !! a in
  let st0 := newSingleflightLoader 4 in
  let '(st1, inf) := newInflight 0 st0 Background 0 in
  let shard := shardFor demo_hash st1 "key" in
  m ← shards st1 !! shard;
  let st2 := set_shard st1 shard (<["key"%string := inf]> m) in
  st3 ← releaseInflight st2 "key" inf shard;
  o3 ← observe st3 inf;
  st4 ← finishInflight st3 inf shard 10 None;
  o4 ← observe st4 inf;
  st5 ← releaseInflight st4 "key" inf shard;
  o5 ← observe st5 inf;
  Some [o3; o4; o5].

End LoaderInv.

(** ** Further invariants of the loader *)

Module LoaderRecords.
Import GoContext Loader LoaderInv.

Section Records.
Context {V : Type} (zeroV : V).
Variable hashKey : string → Z.

(** Some shard map points to the record at [a]. *)
Definition registered (st : state V) (a : nat) : Prop :=
  ∃ i m k, shards st !! i = Some m ∧ m !! k = Some a.

(** Every map entry lies in the shard that [shardFor] selects for its
    key. *)
Definition keys_in_own_shard (st : state V) : Prop :=
  ∀ i m k a, shards st !! i = Some m → m !! k = Some a →
    i = shardFor hashKey st k.

(** What the records of the heap keep between the critical sections.
    - [rec_ctx]: the context of a record is the one [newInflight] built, and
      its cancel function is one the loader made.
    - [rec_cancel_inj]: no two records share a cancel function.
    - [rec_cancelled], [rec_released]: the cancel function of a record has
      been called exactly when its count has dropped to zero, and then no
      map points to the record.
    - [rec_fresh]: a record that is not done carries the zero value and no
      error. *)
Record records_ok (st : state V) : Prop := mkRecordsOk {
  rec_ctx : ∀ a inf, heap st !! a = Some inf →
    ∃ c n, ctx inf = WithCancel (WithoutCancel c) (inr n) ∧
           cancel inf = inr n ∧ (n < next_cancel st)%nat;
  rec_cancel_inj : ∀ a b ia ib,
    heap st !! a = Some ia → heap st !! b = Some ib →
    cancel ia = cancel ib → a = b;
  rec_cancelled_bound : ∀ n : nat,
    inr n ∈ cancelled st → (n < next_cancel st)%nat;
  rec_cancelled : ∀ a inf, heap st !! a = Some inf →
    cancel inf ∈ cancelled st → refs inf ≤ 0 ∧ ¬ registered st a;
  rec_released : ∀ a inf, heap st !! a = Some inf →
    refs inf ≤ 0 → cancel inf ∈ cancelled st;
  rec_fresh : ∀ a inf, heap st !! a = Some inf →
    done inf = false → val inf = zeroV ∧ err inf = None
}.

(** The invariants of the system together. *)
Definition inv_records (s : system V) : Prop :=
  inv zeroV s ∧ records_ok (ldr s) ∧ keys_in_own_shard (ldr s).

(** The map entries for records other than the one at [a] are the same in
    both states. *)
Definition same_entries_but (a : nat) (st st' : state V) : Prop :=
  ∀ i k b, b ≠ a →
    (∃ m, shards st' !! i = Some m ∧ m !! k = Some b)
    ↔ (∃ m, shards st !! i = Some m ∧ m !! k = Some b).

(** The leader flag a caller carries. *)
Definition is_leader (c : caller V) : bool :=
  match c with
  | Calling _ _ => false
  | Acquired _ _ _ leader _ _ | Waiting _ _ _ leader _ _
  | Woken _ _ _ leader _ _ | Loaded _ _ leader _ _ _ _
  | Cancelled _ _ leader _ _ | Returned _ leader _ _ => leader
  end.

(** The fetch a caller takes part in, named by the channel of the record
    it holds, or by the channel that served it once it has returned. *)
Definition fetch_of (st : state V) (c : caller V) : option nat :=
  match c with
  | Returned _ _ _ served => served
  | _ => '(a, _, _) ← caller_ref c; doneCh <$> heap st !! a
  end.

Definition leads (ch : nat) (st : state V) (c : caller V) : Z :=
  if is_leader c && bool_decide (fetch_of st c = Some ch) then 1 else 0.

(** Calls of [RecordLoad], and the goroutines that have made theirs. *)
Definition is_load (m : metric) : Z :=
  match m with RecordLoad _ => 1 | RecordLoadConcurrency _ _ => 0 end.

Definition started (t : task) : Z :=
  match t with Spawned _ _ _ => 0 | Fetching _ _ | Exited => 1 end.

Definition is_fetching (t : task) : Z :=
  match t with Fetching _ _ => 1 | _ => 0 end.

(** The caller [tid] can get out of [load]: some continuation of the run
    takes it to the return. *)
Definition can_return (s : system V) (tid : nat) : Prop :=
  ∃ acts s' v leader e served,
    run zeroV hashKey s acts = Some s' ∧
    callers s' !! tid = Some (Returned v leader e served).

End Records.

(** Scenarios: a second caller joins the fetch of the first; the first
    caller has returned and its record lies in the pool. *)
Definition two_waiting : list (action Z) :=
  one_waiting ++ [ActCall Background "k"; ActAcquire 1 0; ActSelect 1].

Definition one_load_done : list (action Z) :=
  [ActCall Background "k"; ActAcquire 0 0; ActSpawn 0; ActSelect 0;
   ActRecordLoad 0; ActFinish 0 7 None; ActDoneCh 0; ActRead 0; ActRelease 0].

End LoaderRecords.

(** ** encoding/json writes a string and reads it back *)

Module GoJSONFacts.
Import Codec GoJSON.

Lemma byte_val_range (b : byte) : 0 ≤ byte_val b < 256.
Proof.
  unfold byte_val. pose proof (Strings.Byte.to_N_bounded b) as H.
  lia.
Qed.

Lemma byte_of_val (b : byte) : byte_of (byte_val b) = b.
Proof.
  unfold byte_of, byte_val.
  rewrite Z.mod_small by (pose proof (Strings.Byte.to_N_bounded b); lia).
  by rewrite N2Z.id, Strings.Byte.of_to_N.
Qed.

Lemma byte_val_inj (a b : byte) : byte_val a = byte_val b → a = b.
Proof. intros H. by rewrite <- (byte_of_val a), H, byte_of_val. Qed.

Lemma land_mul_pow2_small (a b n : Z) :
  0 ≤ n → 0 ≤ b < 2 ^ n → Z.land (a * 2 ^ n) b = 0.
Proof.
  intros Hn Hb. apply Z.bits_inj'. intros i Hi.
  rewrite Z.land_spec, Z.bits_0.
  destruct (Z.lt_ge_cases i n) as [Hlt|Hge].
  - by rewrite Z.mul_pow2_bits_low by lia.
  - destruct (decide (b = 0)) as [->|Hb0].
    + by rewrite Z.bits_0, andb_false_r.
    + rewrite (Z.bits_above_log2 b i), andb_false_r; [done|lia|].
      assert (Z.log2 b < n) by (apply Z.log2_lt_pow2; lia). lia.
Qed.

Lemma lor_add (hi lo n : Z) :
  0 ≤ n → 0 ≤ lo < 2 ^ n → hi mod 2 ^ n = 0 → Z.lor hi lo = hi + lo.
Proof.
  intros Hn Hlo Hhi.
  assert (hi = (hi / 2 ^ n) * 2 ^ n) as Eh.
  { pose proof (Z.div_mod hi (2 ^ n)). lia. }
  pose proof (Z.add_lor_land hi lo) as H.
  rewrite Eh in H at 2. rewrite land_mul_pow2_small in H by done.
  lia.
Qed.

Lemma land_3F a : Z.land a 0x3F = a mod 64.
Proof. apply (Z.land_ones a 6). lia. Qed.
Lemma land_1F a : Z.land a 0x1F = a mod 32.
Proof. apply (Z.land_ones a 5). lia. Qed.
Lemma land_0F a : Z.land a 0x0F = a mod 16.
Proof. apply (Z.land_ones a 4). lia. Qed.
Lemma land_07 a : Z.land a 0x07 = a mod 8.
Proof. apply (Z.land_ones a 3). lia. Qed.

Ltac pow2 :=
  repeat match goal with
  | |- context [2 ^ ?k] =>
      let v := eval vm_compute in (2 ^ k) in change (2 ^ k) with v
  | H : context [2 ^ ?k] |- _ =>
      let v := eval vm_compute in (2 ^ k) in change (2 ^ k) with v in H
  end.

Ltac arith := pow2; Z.div_mod_to_equations; lia.

Lemma rune2_value x b1 :
  Z.lor (Z.shiftl (Z.land x 0x1F) 6) (Z.land b1 0x3F) = (x mod 32) * 64 + b1 mod 64.
Proof.
  rewrite land_1F, land_3F, Z.shiftl_mul_pow2 by lia.
  apply (lor_add _ _ 6); [lia|arith|arith].
Qed.

Lemma rune3_value x b1 b2 :
  Z.lor (Z.lor (Z.shiftl (Z.land x 0x0F) 12) (Z.shiftl (Z.land b1 0x3F) 6))
        (Z.land b2 0x3F)
  = (x mod 16) * 4096 + (b1 mod 64) * 64 + b2 mod 64.
Proof.
  rewrite land_0F, !land_3F, !Z.shiftl_mul_pow2 by lia.
  rewrite (lor_add (x mod 16 * 2 ^ 12) _ 12); [|lia|arith|arith].
  apply (lor_add _ _ 6); [lia|arith|arith].
Qed.

Lemma rune4_value x b1 b2 b3 :
  Z.lor (Z.lor (Z.lor (Z.shiftl (Z.land x 0x07) 18) (Z.shiftl (Z.land b1 0x3F) 12))
               (Z.shiftl (Z.land b2 0x3F) 6))
        (Z.land b3 0x3F)
  = (x mod 8) * 262144 + (b1 mod 64) * 4096 + (b2 mod 64) * 64 + b3 mod 64.
Proof.
  rewrite land_07, !land_3F, !Z.shiftl_mul_pow2 by lia.
  rewrite (lor_add (x mod 8 * 2 ^ 18) _ 18); [|lia|arith|arith].
  rewrite (lor_add (x mod 8 * 2 ^ 18 + _) _ 12); [|lia|arith|arith].
  apply (lor_add _ _ 6); [lia|arith|arith].
Qed.

(** The bytes [EncodeRune] writes, in arithmetic. *)
Lemma lead_byte t r k n :
  0 ≤ n → 0 ≤ k → t mod 2 ^ n = 0 → 0 ≤ r / 2 ^ k < 2 ^ n →
  Z.lor t (Z.shiftr r k) = t + r / 2 ^ k.
Proof.
  intros Hn Hk Ht Hr. rewrite Z.shiftr_div_pow2 by done.
  by apply (lor_add _ _ n).
Qed.

Lemma cont_byte r k :
  0 ≤ k → Z.lor 0x80 (Z.land (Z.shiftr r k) 0x3F) = 0x80 + (r / 2 ^ k) mod 64.
Proof.
  intros Hk. rewrite land_3F, Z.shiftr_div_pow2 by done.
  apply (lor_add _ _ 6); [lia|arith|done].
Qed.

Lemma cont_byte0 r : Z.lor 0x80 (Z.land r 0x3F) = 0x80 + r mod 64.
Proof. rewrite land_3F. apply (lor_add _ _ 6); [lia|arith|done]. Qed.

Lemma EncodeRune_2 (p0 p1 : byte) :
  0xC2 ≤ byte_val p0 ≤ 0xDF → 0x80 ≤ byte_val p1 ≤ 0xBF →
  EncodeRune ((byte_val p0 mod 32) * 64 + byte_val p1 mod 64) = [p0; p1].
Proof.
  intros H0 H1. unfold EncodeRune.
  set (r := _ + _).
  assert (0x80 ≤ r ≤ 0x7FF) as Hr by (unfold r; arith).
  destruct (Z.leb_spec r 0x7F); [lia|].
  destruct (Z.leb_spec r 0x7FF); [|lia].
  rewrite (lead_byte _ _ _ 6), cont_byte0; [|lia|lia|done|arith].
  f_equal; [|f_equal]; rewrite <- byte_of_val; f_equal; unfold r; arith.
Qed.

Lemma EncodeRune_3 (p0 p1 p2 : byte) :
  0xE0 ≤ byte_val p0 ≤ 0xEF → 0x80 ≤ byte_val p1 ≤ 0xBF →
  0x80 ≤ byte_val p2 ≤ 0xBF →
  (byte_val p0 = 0xE0 → 0xA0 ≤ byte_val p1) →
  (byte_val p0 = 0xED → byte_val p1 ≤ 0x9F) →
  EncodeRune ((byte_val p0 mod 16) * 4096 + (byte_val p1 mod 64) * 64
              + byte_val p2 mod 64) = [p0; p1; p2].
Proof.
  intros H0 H1 H2 Hlo Hhi. unfold EncodeRune, MaxRune, surrogateMin, surrogateMax.
  set (r := _ + _).
  assert (0x800 ≤ r ≤ 0xFFFF ∧ ¬ (0xD800 ≤ r ≤ 0xDFFF)) as [Hr Hs]
    by (unfold r; arith).
  destruct (Z.leb_spec r 0x7F); [lia|].
  destruct (Z.leb_spec r 0x7FF); [lia|].
  destruct (Z.ltb_spec 0x10FFFF r); [lia|].
  destruct (Z.leb_spec 0xD800 r), (Z.leb_spec r 0xDFFF); simpl; try lia;
    (destruct (Z.leb_spec r 0xFFFF); [|lia]);
    rewrite (lead_byte _ _ _ 5), cont_byte, cont_byte0 by (done || arith);
    (f_equal; [|f_equal; [|f_equal]]); rewrite <- byte_of_val; f_equal;
    unfold r; arith.
Qed.

Lemma EncodeRune_4 (p0 p1 p2 p3 : byte) :
  0xF0 ≤ byte_val p0 ≤ 0xF4 → 0x80 ≤ byte_val p1 ≤ 0xBF →
  0x80 ≤ byte_val p2 ≤ 0xBF → 0x80 ≤ byte_val p3 ≤ 0xBF →
  (byte_val p0 = 0xF0 → 0x90 ≤ byte_val p1) →
  (byte_val p0 = 0xF4 → byte_val p1 ≤ 0x8F) →
  EncodeRune ((byte_val p0 mod 8) * 262144 + (byte_val p1 mod 64) * 4096
              + (byte_val p2 mod 64) * 64 + byte_val p3 mod 64)
  = [p0; p1; p2; p3].
Proof.
  intros H0 H1 H2 H3 Hlo Hhi.
  unfold EncodeRune, MaxRune, surrogateMin, surrogateMax.
  set (r := _ + _).
  assert (0x10000 ≤ r ≤ 0x10FFFF) as Hr by (unfold r; arith).
  destruct (Z.leb_spec r 0x7F); [lia|].
  destruct (Z.leb_spec r 0x7FF); [lia|].
  destruct (Z.ltb_spec 0x10FFFF r); [lia|].
  destruct (Z.leb_spec 0xD800 r), (Z.leb_spec r 0xDFFF); simpl; try lia;
    (destruct (Z.leb_spec r 0xFFFF); [lia|]);
    rewrite (lead_byte _ _ _ 4), !cont_byte, cont_byte0 by (done || arith);
    (f_equal; [|f_equal; [|f_equal; [|f_equal]]]); rewrite <- byte_of_val; f_equal;
    unfold r; arith.
Qed.

Lemma first_spec x sz lo hi :
  first x = Some (sz, lo, hi) →
  0x80 ≤ lo ∧ hi ≤ 0xBF ∧
  ((sz = 2%nat ∧ 0xC2 ≤ x ≤ 0xDF)
   ∨ (sz = 3%nat ∧ 0xE0 ≤ x ≤ 0xEF ∧ (x = 0xE0 → 0xA0 ≤ lo) ∧ (x = 0xED → hi ≤ 0x9F))
   ∨ (sz = 4%nat ∧ 0xF0 ≤ x ≤ 0xF4 ∧ (x = 0xF0 → 0x90 ≤ lo) ∧ (x = 0xF4 → hi ≤ 0x8F))).
Proof.
  unfold first.
  destruct (Z.ltb_spec x 0xC2), (Z.ltb_spec 0xF4 x); simpl; try done.
  destruct (Z.ltb_spec x 0xE0); [intros [= <- <- <-]; lia|].
  destruct (Z.eqb_spec x 0xE0); [intros [= <- <- <-]; lia|].
  destruct (Z.eqb_spec x 0xED); [intros [= <- <- <-]; lia|].
  destruct (Z.ltb_spec x 0xF0); [intros [= <- <- <-]; lia|].
  destruct (Z.eqb_spec x 0xF0); [intros [= <- <- <-]; lia|].
  destruct (Z.eqb_spec x 0xF4); intros [= <- <- <-]; lia.
Qed.

Lemma not_cont_false b : not_cont b = false → 0x80 ≤ b ≤ 0xBF.
Proof.
  unfold not_cont. destruct (Z.ltb_spec b 0x80), (Z.ltb_spec 0xBF b); simpl; lia || done.
Qed.

(** A well-formed sequence of several bytes at the head of a string:
    [EncodeRune] writes the rune back as the bytes it was read from, and
    the bytes behind the sequence do not matter. *)
Lemma DecodeRune_multi (p0 : byte) (rest : list byte) :
  RuneSelf ≤ byte_val p0 → invalid_at (p0 :: rest) = false →
  ∃ c size,
    DecodeRune (p0 :: rest) = (c, size) ∧ (2 ≤ size ≤ 4)%nat ∧
    (size ≤ length (p0 :: rest))%nat ∧
    EncodeRune c = take size (p0 :: rest) ∧
    ∀ t, DecodeRune (take size (p0 :: rest) ++ t) = (c, size).
Proof.
  intros Hx Hinv. unfold invalid_at in Hinv. unfold DecodeRune in *.
  unfold RuneSelf in *.
  destruct (Z.ltb_spec (byte_val p0) 0x80) as [|_]; [lia|].
  destruct (first (byte_val p0)) as [[[sz lo] hi]|] eqn:Hf; [|done].
  pose proof (first_spec _ _ _ _ Hf) as (Hlo & Hhi & Hsz).
  destruct (length (p0 :: rest) <? sz)%nat eqn:Hlen; [done|].
  apply Nat.ltb_ge in Hlen.
  destruct rest as [|p1 r1]; [done|].
  destruct (Z.ltb_spec (byte_val p1) lo) as [|Hp1l],
           (Z.ltb_spec hi (byte_val p1)) as [|Hp1h];
    simpl in Hinv; try done.
  destruct Hsz as [(-> & Hp0)|[(-> & Hp0 & Ha & Hb)|(-> & Hp0 & Ha & Hb)]]; simpl in *.
  - clear Hinv. eexists _, 2%nat. split; [done|]. split; [lia|]. split; [lia|].
    rewrite rune2_value. split.
    + apply EncodeRune_2; lia.
    + intros t. simpl.
      destruct (Z.ltb_spec (byte_val p0) 0x80) as [|_]; [lia|].
      rewrite Hf. simpl.
      destruct (Z.ltb_spec (byte_val p1) lo), (Z.ltb_spec hi (byte_val p1));
        simpl; try lia.
      by rewrite rune2_value.
  - destruct r1 as [|p2 r2]; [done|].
    destruct (not_cont (byte_val p2)) eqn:H2; [done|].
    pose proof (not_cont_false _ H2) as H2'. clear Hinv.
    eexists _, 3%nat. split; [done|]. split; [lia|]. split; [simpl; lia|].
    rewrite rune3_value. split.
    + apply EncodeRune_3; lia.
    + intros t. simpl.
      destruct (Z.ltb_spec (byte_val p0) 0x80) as [|_]; [lia|].
      rewrite Hf. simpl.
      destruct (Z.ltb_spec (byte_val p1) lo), (Z.ltb_spec hi (byte_val p1));
        simpl; try lia.
      by rewrite H2, rune3_value.
  - destruct r1 as [|p2 r2]; [done|].
    destruct (not_cont (byte_val p2)) eqn:H2; [done|].
    pose proof (not_cont_false _ H2) as H2'.
    destruct r2 as [|p3 r3]; [done|].
    destruct (not_cont (byte_val p3)) eqn:H3; [done|].
    pose proof (not_cont_false _ H3) as H3'. clear Hinv.
    eexists _, 4%nat. split; [done|]. split; [lia|]. split; [simpl; lia|].
    rewrite rune4_value. split.
    + apply EncodeRune_4; lia.
    + intros t. simpl.
      destruct (Z.ltb_spec (byte_val p0) 0x80) as [|_]; [lia|].
      rewrite Hf. simpl.
      destruct (Z.ltb_spec (byte_val p1) lo), (Z.ltb_spec hi (byte_val p1));
        simpl; try lia.
      by rewrite H2, H3, rune4_value.
Qed.

(** Every rune read from a string that is not empty has a width between
    one and four, within the string. *)
Lemma DecodeRune_width (p0 : byte) (rest : list byte) :
  (1 ≤ (DecodeRune (p0 :: rest)).2 ≤ length (p0 :: rest))%nat.
Proof.
  destruct (decide (byte_val p0 < RuneSelf)) as [Hlt|Hge].
  - unfold DecodeRune. destruct (Z.ltb_spec (byte_val p0) RuneSelf); [|lia].
    simpl. lia.
  - destruct (invalid_at (p0 :: rest)) eqn:Hinv.
    + unfold invalid_at in Hinv. apply andb_true_iff in Hinv as [_ Hs].
      apply bool_decide_eq_true in Hs. rewrite Hs. simpl. lia.
    + destruct (DecodeRune_multi p0 rest) as (c & size & -> & ? & ? & _);
        [lia|done|]. simpl in *. lia.
Qed.

Lemma DecodeRune_ascii (p0 : byte) (rest : list byte) :
  byte_val p0 < RuneSelf → DecodeRune (p0 :: rest) = (byte_val p0, 1%nat).
Proof.
  intros Hlt. unfold DecodeRune.
  by destruct (Z.ltb_spec (byte_val p0) RuneSelf); [|lia].
Qed.

Lemma invalid_at_ascii (p0 : byte) (rest : list byte) :
  byte_val p0 < RuneSelf → invalid_at (p0 :: rest) = false.
Proof.
  intros Hlt. unfold invalid_at. rewrite DecodeRune_ascii by done. simpl.
  rewrite bool_decide_false; [done|]. unfold RuneError, RuneSelf in *. lia.
Qed.

Lemma invalid_at_width (p : list byte) :
  invalid_at p = true → DecodeRune p = (RuneError, 1%nat).
Proof.
  unfold invalid_at. intros [H1 H2]%andb_true_iff.
  apply bool_decide_eq_true in H1, H2.
  destruct (DecodeRune p) as [c size]. simpl in *. by subst.
Qed.

(** *** Reading back what [appendString] wrote *)

Lemma string_literal_ascii (b : byte) (text : list byte) (fuel : nat) :
  byte_val b < RuneSelf →
  string_literal (S fuel) ((if safeSet b then [b] else escape b) ++ text)
  = prepend [b] (string_literal fuel text).
Proof.
  intros Hb.
  destruct b; try (exfalso; vm_compute in Hb; discriminate); reflexivity.
Qed.

Lemma string_literal_raw (p0 : byte) (text : list byte) (fuel : nat) :
  RuneSelf ≤ byte_val p0 →
  string_literal (S fuel) (p0 :: text)
  = prepend (EncodeRune (DecodeRune (p0 :: text)).1)
            (string_literal fuel (drop (DecodeRune (p0 :: text)).2 (p0 :: text))).
Proof.
  intros Hb. unfold RuneSelf in Hb. cbn [string_literal].
  rewrite (bool_decide_false (p0 = dquote))
    by (intros ->; vm_compute in Hb; by apply Hb).
  rewrite (bool_decide_false (p0 = backslash))
    by (intros ->; vm_compute in Hb; by apply Hb).
  destruct (Z.ltb_spec (byte_val p0) 0x20); [lia|].
  destruct (Z.ltb_spec (byte_val p0) RuneSelf); [unfold RuneSelf in *; lia|].
  done.
Qed.

Lemma string_literal_replacement (text : list byte) (fuel : nat) :
  string_literal (S fuel) ((backslash :: bytes "ufffd") ++ text)
  = prepend [xef; xbf; xbd] (string_literal fuel text).
Proof. reflexivity. Qed.

Lemma string_literal_separator (c : Z) (text : list byte) (fuel : nat) :
  c = 0x2028 ∨ c = 0x2029 →
  string_literal (S fuel) ((backslash :: bytes "u202" ++ [hex (Z.land c 0xF)]) ++ text)
  = prepend (EncodeRune c) (string_literal fuel text).
Proof. by intros [-> | ->]. Qed.

Lemma appendString_from_nil fuel : appendString_from fuel [] = [].
Proof. by destruct fuel. Qed.

Lemma coerced_from_nil fuel : coerced_from fuel [] = [].
Proof. by destruct fuel. Qed.

Lemma drop_width (p0 : byte) (rest : list byte) :
  (length (drop (DecodeRune (p0 :: rest)).2 (p0 :: rest)) ≤ length rest)%nat.
Proof.
  pose proof (DecodeRune_width p0 rest). rewrite length_drop. simpl in *. lia.
Qed.

Lemma string_literal_appendString (fuel : nat) :
  ∀ (s : list byte) (fuel' : nat) (text : list byte),
    (length s ≤ fuel)%nat → (length (appendString_from fuel s) < fuel')%nat →
    string_literal fuel' (appendString_from fuel s ++ dquote :: text)
    = Some (coerced_from fuel s, text).
Proof.
  induction fuel as [|fuel IH]; intros s fuel' text Hs Hf.
  { destruct s; [|simpl in Hs; lia]. by destruct fuel'; [simpl in Hf; lia|]. }
  destruct s as [|b rest].
  { by destruct fuel'; [simpl in Hf; lia|]. }
  simpl in Hs. destruct fuel' as [|fuel']; [lia|].
  cbn [appendString_from coerced_from] in *.
  destruct (Z.ltb_spec (byte_val b) RuneSelf) as [Hb|Hb].
  - rewrite length_app in Hf.
    rewrite <- app_assoc, string_literal_ascii by done.
    rewrite invalid_at_ascii, DecodeRune_ascii by done. simpl.
    rewrite IH; [done|lia|].
    assert (1 ≤ length (if safeSet b then [b] else escape b))%nat
      by (destruct (safeSet b); [simpl; lia|];
          unfold escape; repeat case_match; simpl; lia).
    lia.
  - pose proof (drop_width b rest) as Hd.
    rewrite length_app in Hf.
    destruct (invalid_at (b :: rest)) eqn:Hinv.
    + rewrite (invalid_at_width _ Hinv) in *. cbn [fst snd drop] in *.
      rewrite <- app_assoc, string_literal_replacement, IH; [done|lia|].
      simpl in Hf. lia.
    + destruct (DecodeRune_multi b rest Hb Hinv) as (c & size & Hdec & Hsz & Hlen & Henc & Hpre).
      rewrite Hdec in *. cbn [fst snd] in *.
      assert (length (take size (b :: rest)) = size) as Htake
        by (rewrite length_take; lia).
      destruct (bool_decide (c = 0x2028) || bool_decide (c = 0x2029)) eqn:Hsep.
      * apply orb_true_iff in Hsep.
        rewrite <- app_assoc, string_literal_separator
          by (destruct Hsep as [?%bool_decide_eq_true|?%bool_decide_eq_true];
              [by left|by right]).
        rewrite IH; [|lia|simpl in Hf; lia].
        simpl. by rewrite Henc.
      * rewrite <- app_assoc.
        destruct size as [|size]; [lia|]. rewrite firstn_cons in *.
        rewrite <- app_comm_cons, string_literal_raw by done.
        rewrite app_comm_cons, Hpre. cbn [fst snd].
        rewrite drop_app_length' by done.
        rewrite IH; [|lia|rewrite Htake in Hf; lia].
        simpl. by rewrite Henc.
Qed.

(** *** Strings that are valid UTF-8 *)

Lemma coerced_from_valid (fuel : nat) :
  ∀ s, (length s ≤ fuel)%nat → Valid_from fuel s = true → coerced_from fuel s = s.
Proof.
  induction fuel as [|fuel IH]; intros [|b rest] Hs Hv; try done.
  cbn [Valid_from coerced_from] in *.
  destruct (invalid_at (b :: rest)); [done|].
  rewrite IH; [apply take_drop| |done].
  pose proof (drop_width b rest). simpl in Hs. lia.
Qed.

Lemma coerced_from_length (fuel : nat) :
  ∀ s, (length s ≤ fuel)%nat →
    (length s ≤ length (coerced_from fuel s))%nat
    ∧ (Valid_from fuel s = false → (length s < length (coerced_from fuel s))%nat).
Proof.
  induction fuel as [|fuel IH]; intros [|b rest] Hs; try done.
  { simpl in Hs. lia. }
  cbn [Valid_from coerced_from]. simpl in Hs.
  pose proof (drop_width b rest) as Hd.
  pose proof (DecodeRune_width b rest) as Hw.
  rewrite length_app.
  destruct (IH (drop (DecodeRune (b :: rest)).2 (b :: rest))) as [Hle Hlt]; [lia|].
  rewrite length_drop in *.
  destruct (invalid_at (b :: rest)) eqn:Hinv.
  - rewrite (invalid_at_width _ Hinv) in *. simpl in *. lia.
  - rewrite length_take. split; [lia|]. intros Hv%Hlt. lia.
Qed.

Lemma coerced_valid (s : list byte) : Valid s = true → coerced s = s.
Proof. by apply coerced_from_valid. Qed.

Lemma coerced_invalid (s : list byte) : Valid s = false → coerced s ≠ s.
Proof.
  intros Hv Heq.
  destruct (coerced_from_length (length s) s) as [_ Hlt]; [done|].
  specialize (Hlt Hv). unfold coerced in Heq. rewrite Heq in Hlt. lia.
Qed.

(** *** Reading back what [AppendInt] wrote *)

Lemma digit_spec (d : Z) :
  0 ≤ d < 10 → is_digit (digit d) = true ∧ byte_val (digit d) - 0x30 = d
               ∧ (digit d = x30 → d = 0).
Proof.
  intros Hd.
  assert (d = 0 ∨ d = 1 ∨ d = 2 ∨ d = 3 ∨ d = 4 ∨ d = 5 ∨ d = 6 ∨ d = 7
          ∨ d = 8 ∨ d = 9) as Hcases by lia.
  repeat destruct Hcases as [->|Hcases]; try subst d; by vm_compute.
Qed.

Lemma digits_value_digit (d : Z) (rest : list byte) (acc : Z) :
  0 ≤ d < 10 → digits_value (digit d :: rest) acc = digits_value rest (acc * 10 + d).
Proof.
  intros Hd. destruct (digit_spec d Hd) as (Hdig & Hval & _).
  cbn [digits_value]. unfold is_digit in Hdig. by rewrite Hdig, Hval.
Qed.

Lemma formatBits_digits (fuel : nat) :
  ∀ u rest, 0 ≤ u < 2 ^ Z.of_nat fuel → (1 ≤ fuel)%nat →
    digits_value (formatBits fuel u ++ rest) 0 = digits_value rest u
    ∧ ∃ d ds, formatBits fuel u = d :: ds ∧ is_digit d = true
              ∧ (d = x30 → u = 0 ∧ ds = []).
Proof.
  induction fuel as [|fuel IH]; intros u rest Hu Hfuel; [lia|].
  cbn [formatBits].
  assert (0 ≤ u mod 10 < 10) as Hm by (apply Z.mod_pos_bound; lia).
  destruct (digit_spec _ Hm) as (Hdig & _ & Hzero).
  destruct (Z.ltb_spec u 10) as [Hlt|Hge].
  - rewrite Z.mod_small in * by lia. cbn [app]. split.
    + by rewrite digits_value_digit by lia.
    + exists (digit u), []. split_and!; [done|done|].
      intros Hd. split; [by apply Hzero|done].
  - assert (0 ≤ u / 10 < 2 ^ Z.of_nat fuel) as Hq.
    { rewrite Nat2Z.inj_succ, Z.pow_succ_r in Hu by lia.
      split; [apply Z.div_pos; lia|].
      apply Z.div_lt_upper_bound; lia. }
    assert (1 ≤ fuel)%nat as Hfuel'.
    { destruct fuel; [|lia]. simpl in Hq.
      assert (u / 10 = 0) as Hq0 by lia.
      apply Z.div_small_iff in Hq0; lia. }
    destruct (IH (u / 10) (digit (u mod 10) :: rest) Hq Hfuel')
      as (Hval & d & ds & Hds & Hd & Hd0).
    split.
    + rewrite <- app_assoc. cbn [app]. rewrite Hval, digits_value_digit by done.
      f_equal. pose proof (Z.div_mod u 10). lia.
    + exists d, (ds ++ [digit (u mod 10)]). rewrite Hds. split_and!; [done|done|].
      intros Hx. destruct (Hd0 Hx) as [Hq0 _].
      assert (u < 10) by (apply Z.div_small_iff in Hq0; lia). lia.
Qed.

Lemma log2_fuel (u : Z) : 0 ≤ u → 0 ≤ u < 2 ^ Z.of_nat (S (Z.to_nat (Z.log2 u))).
Proof.
  intros Hu. split; [done|].
  rewrite Nat2Z.inj_succ, Z2Nat.id by apply Z.log2_nonneg.
  destruct (decide (u = 0)) as [->|Hne]; [done|].
  apply Z.log2_spec. lia.
Qed.

Lemma integer_literal_AppendInt (n : Z) (c : byte) (rest : list byte) :
  is_digit c = false →
  integer_literal (AppendInt n ++ c :: rest) = Some (n, c :: rest).
Proof.
  intros Hc. unfold AppendInt.
  assert (∀ acc, digits_value (c :: rest) acc = (acc, c :: rest)) as Hstop.
  { intros acc. cbn [digits_value]. unfold is_digit in Hc. by rewrite Hc. }
  destruct (Z.ltb_spec n 0) as [Hneg|Hpos].
  - destruct (formatBits_digits _ (- n) (c :: rest) (log2_fuel (- n) ltac:(lia))
                ltac:(lia))
      as (Hval & d & ds & Hds & Hd & Hd0).
    rewrite Hds, Hstop in Hval. rewrite Hds. rewrite <- !app_comm_cons in *.
    unfold integer_literal. rewrite bool_decide_true by done.
    rewrite Hval, Hd. cbn [negb].
    rewrite (bool_decide_false (d = x30)); [simpl; do 2 f_equal; lia|].
    intros Hx. destruct (Hd0 Hx). lia.
  - destruct (formatBits_digits _ n (c :: rest) (log2_fuel n Hpos) ltac:(lia))
      as (Hval & d & ds & Hds & Hd & Hd0).
    rewrite Hds, Hstop in Hval. rewrite Hds. rewrite <- !app_comm_cons in *.
    unfold integer_literal.
    rewrite (bool_decide_false (d = x2d))
      by (intros ->; by vm_compute in Hd).
    rewrite Hval, Hd. cbn [negb].
    destruct (bool_decide (d = x30)) eqn:Hz; [|done].
    apply bool_decide_eq_true in Hz. destruct (Hd0 Hz) as [_ ->]. simpl.
    by rewrite Hc.
Qed.

(** *** [Unmarshal] of what [Marshal] wrote *)

Lemma strip_prefix_app (p text : list byte) : strip_prefix p (p ++ text) = Some text.
Proof.
  induction p as [|a p IH]; [done|]. simpl. by rewrite bool_decide_true.
Qed.

Lemma Unmarshal_Marshal (v : CacheObject go_string) :
  is_int64 (ExpireAtMillis v) →
  Unmarshal (Marshal_text v)
  = Some (mkCacheObject (coerced (Value v)) (ExpireAtMillis v)).
Proof.
  intros Hn. unfold Unmarshal, Marshal_text, appendString.
  set (pre := bytes "{" ++ key_Value ++ bytes ":" ++ [dquote]).
  set (mid := bytes "," ++ key_ExpireAtMillis ++ bytes ":").
  set (out := appendString_from (length (Value v)) (Value v)).
  replace (bytes "{" ++ key_Value ++ bytes ":" ++ ([dquote] ++ out ++ [dquote])
           ++ bytes "," ++ key_ExpireAtMillis ++ bytes ":"
           ++ AppendInt (ExpireAtMillis v) ++ bytes "}")
    with (pre ++ (out ++ dquote :: (mid ++ AppendInt (ExpireAtMillis v) ++ bytes "}"))).
  2:{ unfold pre, mid. rewrite <- !app_assoc. reflexivity. }
  rewrite strip_prefix_app. cbn [mbind option_bind].
  unfold out. rewrite string_literal_appendString;
    [|done|rewrite length_app; simpl; lia].
  cbn [mbind option_bind]. rewrite strip_prefix_app. cbn [mbind option_bind].
  rewrite (integer_literal_AppendInt _ x7d []) by done.
  cbn [mbind option_bind].
  rewrite bool_decide_true by done. by rewrite bool_decide_true.
Qed.

Lemma Unmarshal_or_error_decodes : decodes_as_Unmarshal Unmarshal_or_error.
Proof. intros data out Hu. unfold Unmarshal_or_error. by rewrite Hu. Qed.

End GoJSONFacts.

(** ** Properties of the codecs *)

Module CodecSpec.
Import Codec.

Section Facts.
Context {V St : Type} (zeroV : V).
Context (zlib_deflate zlib_inflate : list byte → list byte * option error).

Lemma strip_newline_snoc (text : list byte) :
  strip_newline (text ++ [newline]) = text.
Proof.
  unfold strip_newline, len.
  rewrite last_snoc, length_app. simpl.
  rewrite bool_decide_true by lia. simpl.
  replace (length text + 1 - 1)%nat with (length text) by lia.
  by rewrite take_app_length.
Qed.

Lemma JSON_Encode_ok json_Marshal (o : CacheObject V) text :
  json_Marshal o = (text, None) →
  JSON_Encode json_Marshal o = (text, None).
Proof.
  intros Hm. unfold JSON_Encode, Encoder_Encode. rewrite Hm. simpl.
  by rewrite strip_newline_snoc.
Qed.

Lemma JSON_Encode_inv json_Marshal (o : CacheObject V) frame :
  JSON_Encode json_Marshal o = (frame, None) →
  json_Marshal o = (frame, None).
Proof.
  unfold JSON_Encode, Encoder_Encode.
  destruct (json_Marshal o) as [text [e|]] eqn:Hm; simpl; [done|].
  rewrite strip_newline_snoc. congruence.
Qed.

(** What [binary_Encode] returns once the inner encoder has succeeded. *)
Lemma binary_Encode_inner_ok (b : binaryCompressionCodec V St) pooled
    (value : CacheObject V) (s s1 : St) innerBuf :
  Encode (inner b) value s = ((innerBuf, None), s1) →
  binary_Encode zlib_deflate b pooled value s =
    if bool_decide (compressThresholdBytes b < 0)
       || bool_decide (len innerBuf < compressThresholdBytes b)
    then ((x00 :: innerBuf, None), s1)
    else match zlib_deflate innerBuf with
         | (c, None) => ((x01 :: c, None), s1)
         | (_, Some e) => (([], Some e), s1)
         end.
Proof.
  intros He. unfold binary_Encode. rewrite He.
  destruct (_ || _); [done|].
  unfold compressZlib, acquireBuffer, Buffer_Reset.
  by destruct (zlib_deflate innerBuf) as [c [e|]].
Qed.

Lemma binary_Encode_inner_err (b : binaryCompressionCodec V St) pooled
    (value : CacheObject V) (s s1 : St) innerBuf e :
  Encode (inner b) value s = ((innerBuf, Some e), s1) →
  binary_Encode zlib_deflate b pooled value s = (([], Some e), s1).
Proof. intros He. unfold binary_Encode. by rewrite He. Qed.

(** A tag outside {0x00, 0x01}: the decoder fails with the ad hoc
    [fmt.Errorf] value, and reaches neither zlib nor the inner decoder. *)
Lemma binary_Decode_other_tag (b : binaryCompressionCodec V St) pooled tag rest (s : St) :
  tag ≠ CompressionTypeIDNone → tag ≠ CompressionTypeIDZlib →
  binary_Decode zeroV zlib_inflate b pooled (tag :: rest) s =
    ((zeroCacheObject zeroV, Some (Errorf_unsupported_compression_type tag)), s).
Proof.
  intros H0 H1. unfold binary_Decode.
  by rewrite !bool_decide_false.
Qed.

Lemma Errorf_is_not_sentinel tag :
  errors_Is (Some (Errorf_unsupported_compression_type tag))
            ErrUnsupportedCompressionTypeID = false.
Proof. done. Qed.

(** C2: the compression tag of an encoded frame is decided by the threshold
    [T] and the length [L] of the inner encoding.  A negative threshold or
    [L < T] gives the frame [0x00 :: innerBuf]; with [0 <= T <= L] the
    frame is [0x01 :: c] for the compressed bytes [c]; hence every frame
    starts with 0x00 when [T < 0], with 0x01 when [T = 0], and for
    [T > 0] with 0x01 exactly when [L >= T] and 0x00 exactly when
    [L < T]. *)
Theorem Encode_tag_by_threshold
    (inner : CacheStorageCodec V (list byte) St) (policy : option bool) (T : Z)
    (pooled : list byte) (value : CacheObject V) (s s1 : St) (innerBuf : list byte) :
  Encode inner value s = ((innerBuf, None), s1) →
  let codec := NewBinaryCompressionCodec inner policy T in
  let L := len innerBuf in
  let out := binary_Encode zlib_deflate codec pooled value s in
  (T < 0 ∨ L < T → out = ((x00 :: innerBuf, None), s1)) ∧
  (∀ c, 0 ≤ T ≤ L → zlib_deflate innerBuf = (c, None) →
        out = ((x01 :: c, None), s1)) ∧
  (∀ frame, out.1 = (frame, None) →
     (T < 0 → head frame = Some x00) ∧
     (T = 0 → head frame = Some x01) ∧
     (0 < T → (head frame = Some x01 ↔ T ≤ L) ∧
              (head frame = Some x00 ↔ L < T))).
Proof.
  intros He codec L out.
  assert (Hout := binary_Encode_inner_ok codec pooled value s s1 innerBuf He).
  fold out in Hout. simpl in Hout. fold L in Hout.
  assert (0 ≤ L) as HL by (unfold L, len; lia).
  split; [|split].
  - intros HT. rewrite Hout.
    destruct HT; [rewrite bool_decide_true by done; done|].
    rewrite (bool_decide_true (L < T)) by done. by rewrite orb_true_r.
  - intros c HT Hc. rewrite Hout, !bool_decide_false by lia. simpl.
    by rewrite Hc.
  - intros frame Hf. rewrite Hout in Hf.
    destruct (decide (T < 0)) as [Hneg|Hneg].
    + rewrite bool_decide_true in Hf by done. simpl in Hf.
      injection Hf as <-. simpl. repeat split; try done; try lia.
    + rewrite (bool_decide_false (T < 0)) in Hf by done. simpl in Hf.
      destruct (decide (L < T)) as [Hlt|Hlt].
      * rewrite bool_decide_true in Hf by done. injection Hf as <-. simpl.
        repeat split; try done; try lia.
      * rewrite bool_decide_false in Hf by done.
        destruct (zlib_deflate innerBuf) as [c [e|]]; [done|].
        injection Hf as <-. simpl.
        repeat split; try done; try lia.
Qed.

Lemma Noop_round_trips (o : CacheObject V) :
  round_trips (NoopCacheStorageCodec V St) o.
Proof. intros s data s1 [= <- _] s2. done. Qed.

Lemma JSON_round_trips json_Marshal json_Unmarshal (o : CacheObject V) :
  (∀ text, json_Marshal o = (text, None) → json_Unmarshal text = (o, None)) →
  round_trips (JSONByteStringCodec zeroV json_Marshal json_Unmarshal St) o.
Proof.
  intros Hjson s data s1 He s2. simpl in *.
  injection He as He _. apply JSON_Encode_inv, Hjson in He.
  unfold JSON_Decode. by rewrite He.
Qed.

Lemma binary_round_trips (b : binaryCompressionCodec V St) (o : CacheObject V)
    pooled pooled' :
  round_trips (inner b) o →
  (∀ data c, zlib_deflate data = (c, None) → zlib_inflate c = (data, None)) →
  ∀ s frame s1,
    binary_Encode zlib_deflate b pooled o s = ((frame, None), s1) →
    ∀ s2, (binary_Decode zeroV zlib_inflate b pooled' frame s2).1 = (o, None).
Proof.
  intros Hinner Hzlib s frame s1 He s2.
  destruct (Encode (inner b) o s) as [[innerBuf [e|]] s'] eqn:Hi.
  { by rewrite (binary_Encode_inner_err _ _ _ _ _ _ _ Hi) in He. }
  rewrite (binary_Encode_inner_ok _ _ _ _ _ _ Hi) in He.
  specialize (Hinner _ _ _ Hi).
  destruct (_ || _).
  - injection He as <- _. simpl. apply Hinner.
  - destruct (zlib_deflate innerBuf) as [c [e|]] eqn:Hc; [done|].
    injection He as <- _. simpl.
    unfold decompressZlib, acquireBuffer, Buffer_Reset.
    rewrite (Hzlib _ _ Hc). simpl. apply Hinner.
Qed.

(** What the JSON codec returns when [encoding/json] has no error: the
    text [json.Marshal] wrote, and the object [json.Unmarshal] read. *)
Lemma JSON_Decode_ok json_Unmarshal (data : list byte) (out : CacheObject V) :
  json_Unmarshal data = (out, None) →
  JSON_Decode zeroV json_Unmarshal data = (out, None).
Proof. intros Hu. unfold JSON_Decode. by rewrite Hu. Qed.

Lemma JSON_Decode_inv json_Unmarshal (data : list byte) (out : CacheObject V) :
  JSON_Decode zeroV json_Unmarshal data = (out, None) →
  json_Unmarshal data = (out, None).
Proof.
  unfold JSON_Decode. destruct (json_Unmarshal data) as [out' [e|]]; congruence.
Qed.

(** The JSON codec on a string payload, with [encoding/json] written out:
    [Encode] succeeds, and [Decode] of its result succeeds with the payload
    coerced to valid UTF-8. *)
Lemma JSON_string_Decode_Encode json_Unmarshal (v : CacheObject GoJSON.go_string) :
  GoJSON.decodes_as_Unmarshal json_Unmarshal →
  GoJSON.is_int64 (ExpireAtMillis v) →
  JSON_Encode GoJSON.Marshal v = (GoJSON.Marshal_text v, None)
  ∧ JSON_Decode [] json_Unmarshal (GoJSON.Marshal_text v)
    = (mkCacheObject (GoJSON.coerced (Value v)) (ExpireAtMillis v), None).
Proof.
  intros Hdec Hn. split.
  - change (JSON_Encode GoJSON.Marshal v)
      with (strip_newline ([] ++ GoJSON.Marshal_text v ++ [newline]), @None error).
    by rewrite app_nil_l, strip_newline_snoc.
  - unfold JSON_Decode.
    by rewrite (Hdec _ _ (GoJSONFacts.Unmarshal_Marshal v Hn)).
Qed.

(** C3, as the code has it: each shipped codec returns the object it
    encoded, the JSON codec on the payloads that [encoding/json]
    reproduces.
    - The passthrough codec is the identity.
    - The JSON codec adds nothing to [encoding/json]: [Encode] returns the
      text [json.Marshal] wrote, without the newline of the encoder, or its
      error, and [Decode] returns what [json.Unmarshal] read, or the zero
      object with its error.  So it returns the object it encoded exactly
      when [json.Unmarshal] reads the object back from the text
      [json.Marshal] wrote for it.
    - The compression codec round-trips at every threshold, compressed or
      not, over an inner codec that round-trips and a zlib that inflates
      what it deflated.
    - On a string payload, with an expiry that is an [int64], [Encode] of
      the JSON codec succeeds, and [Decode] of its result succeeds with the
      same expiry and the payload coerced to valid UTF-8: the object
      itself when the payload is valid UTF-8, and another object when it
      is not. *)
Theorem codecs_round_trip (o : CacheObject V) :
  round_trips (NoopCacheStorageCodec V St) o
  ∧ (∀ json_Marshal json_Unmarshal (s : St),
       let c := JSONByteStringCodec zeroV json_Marshal json_Unmarshal St in
       (∀ text, json_Marshal o = (text, None) →
          Encode c o s = ((text, None), s)
          ∧ (∀ out, json_Unmarshal text = (out, None) →
               Decode c text s = ((out, None), s))
          ∧ (∀ out e, json_Unmarshal text = (out, Some e) →
               Decode c text s = ((zeroCacheObject zeroV, Some e), s)))
       ∧ (∀ text e, json_Marshal o = (text, Some e) →
            Encode c o s = (([], Some e), s))
       ∧ (round_trips c o ↔
          ∀ text, json_Marshal o = (text, None) → json_Unmarshal text = (o, None)))
  ∧ (∀ (inner : CacheStorageCodec V (list byte) St) policy T pooled pooled',
       round_trips inner o →
       (∀ data c, zlib_deflate data = (c, None) → zlib_inflate c = (data, None)) →
       let b := NewBinaryCompressionCodec inner policy T in
       ∀ s frame s1,
         binary_Encode zlib_deflate b pooled o s = ((frame, None), s1) →
         ∀ s2, (binary_Decode zeroV zlib_inflate b pooled' frame s2).1 = (o, None))
  ∧ (∀ json_Unmarshal (v : CacheObject GoJSON.go_string) (s : St),
       GoJSON.decodes_as_Unmarshal json_Unmarshal →
       GoJSON.is_int64 (ExpireAtMillis v) →
       let c := JSONByteStringCodec [] GoJSON.Marshal json_Unmarshal St in
       Encode c v s = ((GoJSON.Marshal_text v, None), s)
       ∧ Decode c (GoJSON.Marshal_text v) s
         = ((mkCacheObject (GoJSON.coerced (Value v)) (ExpireAtMillis v), None), s)
       ∧ (GoJSON.Valid (Value v) = true → round_trips c v)
       ∧ (GoJSON.Valid (Value v) = false → ¬ round_trips c v)).
Proof.
  split; [exact (Noop_round_trips o)|].
  split; [|split].
  - intros jm ju s c. subst c. cbn [Encode Decode JSONByteStringCodec].
    split; [|split].
    + intros text Hm. rewrite (JSON_Encode_ok jm o text Hm).
      split; [done|]. split.
      * intros out Hu. by rewrite (JSON_Decode_ok ju text out Hu).
      * intros out e Hu. unfold JSON_Decode. by rewrite Hu.
    + intros text e Hm. unfold JSON_Encode, Encoder_Encode. by rewrite Hm.
    + split; [|apply JSON_round_trips].
      intros Hrt text Hm.
      apply JSON_Decode_inv.
      specialize (Hrt s text s). cbn [Encode Decode JSONByteStringCodec] in Hrt.
      rewrite (JSON_Encode_ok jm o text Hm) in Hrt.
      exact (Hrt eq_refl s).
  - intros inner policy T pooled pooled' Hinner Hzlib b.
    exact (binary_round_trips b o pooled pooled' Hinner Hzlib).
  - intros ju v s Hdec Hn c. subst c.
    destruct (JSON_string_Decode_Encode ju v Hdec Hn) as [He Hd].
    unfold round_trips. cbn [Encode Decode JSONByteStringCodec].
    rewrite He, Hd.
    split; [done|]. split; [done|]. split.
    + intros Hv s0 data s1 Hen s2. injection Hen as <- _. rewrite Hd.
      rewrite (GoJSONFacts.coerced_valid _ Hv). by destruct v.
    + intros Hv Hrt. specialize (Hrt s (GoJSON.Marshal_text v) s eq_refl s).
      rewrite Hd in Hrt. destruct v as [value n]. cbn [fst Value ExpireAtMillis] in *.
      injection Hrt as Hrt. by apply (GoJSONFacts.coerced_invalid _ Hv).
Qed.

(** C4: on the frame [0xff 0x00] the decoder fails, but the error it
    returns is the value built by [fmt.Errorf], which is not
    [ErrUnsupportedCompressionTypeID] and wraps nothing: [errors.Is]
    against the sentinel is false. *)
Theorem Decode_unsupported_tag_is_not_the_sentinel
    (b : binaryCompressionCodec V St) (pooled : list byte) (s : St) :
  let r := binary_Decode zeroV zlib_inflate b pooled [xff; x00] s in
  r = ((zeroCacheObject zeroV, Some (Errorf_unsupported_compression_type xff)), s)
  ∧ errors_Is r.1.2 ErrUnsupportedCompressionTypeID = false
  ∧ option_map Error r.1.2 = Some "unsupported compression type: 255"%string
  ∧ Error ErrUnsupportedCompressionTypeID = "unsupported compression type ID"%string.
Proof. by vm_compute. Qed.

(** C9: decoding the empty input returns the zero cache object and
    [ErrDecompressZeroLengthData], whatever the inner codec and the pooled
    buffer are, and leaves the inner codec's state as it was; an inner codec
    that counts its [Decode] calls has the same count afterwards. *)
Theorem Decode_empty_input (b : binaryCompressionCodec V St) (pooled : list byte) (s : St) :
  binary_Decode zeroV zlib_inflate b pooled [] s =
    ((zeroCacheObject zeroV, Some ErrDecompressZeroLengthData), s)
  ∧ errors_Is (Some ErrDecompressZeroLengthData) ErrDecompressZeroLengthData = true
  ∧ ∀ policy T (n : nat),
      binary_Decode zeroV zlib_inflate
        (NewBinaryCompressionCodec (counted (inner b)) policy T) pooled [] (s, n) =
      ((zeroCacheObject zeroV, Some ErrDecompressZeroLengthData), (s, n)).
Proof. done. Qed.

End Facts.

Lemma toy_zlib_round_trip data c :
  toy_deflate data = (c, None) → toy_inflate c = (data, None).
Proof. by intros [= <-]. Qed.

Lemma rawCodec_round_trips_hello : round_trips rawCodec hello.
Proof. by intros s data s1 [= <- _] s2. Qed.

Lemma Encode_tag_by_threshold_witness :
  Encode rawCodec hello tt = ((Value hello, None), tt)
  ∧ binary_Encode toy_deflate (NewBinaryCompressionCodec rawCodec None 0) []
      hello tt = ((x01 :: x78 :: Value hello, None), tt)
  ∧ binary_Encode toy_deflate (NewBinaryCompressionCodec rawCodec None 6) []
      hello tt = ((x00 :: Value hello, None), tt).
Proof.
  split; [reflexivity|]. split.
  - apply (Encode_tag_by_threshold toy_deflate rawCodec None 0 [] hello tt tt
             (Value hello) eq_refl).
    + vm_compute. split; discriminate.
    + reflexivity.
  - apply (Encode_tag_by_threshold toy_deflate rawCodec None 6 [] hello tt tt
             (Value hello) eq_refl).
    right. reflexivity.
Defined.

(** The payloads of the examples: a string that is valid UTF-8, with an
    escape, a character of two bytes and one of four; and the byte 0xff,
    which is not UTF-8. *)
Definition valid_payload : CacheObject GoJSON.go_string :=
  mkCacheObject (GoJSON.bytes "say " ++ [x22; xc3; xa9; xf0; x9f; x98; x80; x22]) 1234.

Definition invalid_payload : CacheObject GoJSON.go_string := mkCacheObject [xff] 0.

(** The JSON text for [invalid_payload]: the byte 0xff has become the
    escape of U+FFFD. *)
Definition invalid_payload_text : list byte :=
  GoJSON.bytes "{" ++ GoJSON.key_Value ++ GoJSON.bytes ":"
  ++ [GoJSON.dquote; GoJSON.backslash] ++ GoJSON.bytes "ufffd" ++ [GoJSON.dquote]
  ++ GoJSON.bytes "," ++ GoJSON.key_ExpireAtMillis ++ GoJSON.bytes ":0}".

Lemma codecs_round_trip_witness :
  round_trips rawCodec hello
  ∧ binary_Encode toy_deflate (NewBinaryCompressionCodec rawCodec None 0) []
      hello tt = ((x01 :: x78 :: Value hello, None), tt)
  ∧ (binary_Decode [] toy_inflate (NewBinaryCompressionCodec rawCodec None 0) []
       (x01 :: x78 :: Value hello) tt).1 = (hello, None)
  ∧ GoJSON.Valid (Value valid_payload) = true
  ∧ round_trips (JSONByteStringCodec [] GoJSON.Marshal GoJSON.Unmarshal_or_error unit)
                valid_payload.
Proof.
  split; [apply rawCodec_round_trips_hello|].
  split; [reflexivity|].
  split.
  - apply (proj1 (proj2 (proj2 (codecs_round_trip [] toy_deflate toy_inflate hello)))
             rawCodec None 0 [] [] rawCodec_round_trips_hello toy_zlib_round_trip
             tt _ tt eq_refl tt).
  - split; [reflexivity|].
    apply (proj2 (proj2 (proj2 (codecs_round_trip [] toy_deflate toy_inflate hello)))
             GoJSON.Unmarshal_or_error valid_payload tt
             GoJSONFacts.Unmarshal_or_error_decodes).
    + unfold GoJSON.is_int64. simpl. lia.
    + reflexivity.
Defined.

(** C3 as the specification states it fails for the JSON codec.  The
    payload [0xff] is encoded without an error, as the escape of U+FFFD,
    and decoding that text succeeds with the payload [0xef 0xbf 0xbd]: no
    decoder that does what [json.Unmarshal] does returns every object the
    codec encoded.  The payload [0xfe] is encoded as the same text, so no
    decoder at all does. *)
Lemma JSON_codec_loses_invalid_utf8 :
  JSON_Encode GoJSON.Marshal invalid_payload = (invalid_payload_text, None)
  ∧ GoJSON.Unmarshal invalid_payload_text = Some (mkCacheObject [xef; xbf; xbd] 0)
  ∧ JSON_Encode GoJSON.Marshal (mkCacheObject [xfe] 0) = (invalid_payload_text, None)
  ∧ ¬ (∀ json_Unmarshal, GoJSON.decodes_as_Unmarshal json_Unmarshal →
         ∀ v : CacheObject GoJSON.go_string,
           round_trips (JSONByteStringCodec [] GoJSON.Marshal json_Unmarshal unit) v)
  ∧ ¬ (∃ json_Unmarshal,
         ∀ v : CacheObject GoJSON.go_string,
           round_trips (JSONByteStringCodec [] GoJSON.Marshal json_Unmarshal unit) v).
Proof.
  assert (JSON_Encode GoJSON.Marshal invalid_payload = (invalid_payload_text, None))
    as Hff by reflexivity.
  assert (JSON_Encode GoJSON.Marshal (mkCacheObject [xfe] 0)
          = (invalid_payload_text, None)) as Hfe by reflexivity.
  assert (GoJSON.Unmarshal invalid_payload_text
          = Some (mkCacheObject [xef; xbf; xbd] 0)) as Hun by reflexivity.
  split; [exact Hff|]. split; [exact Hun|]. split; [exact Hfe|]. split.
  - intros Hall.
    specialize (Hall GoJSON.Unmarshal_or_error GoJSONFacts.Unmarshal_or_error_decodes
                  invalid_payload tt invalid_payload_text tt).
    simpl in Hall. rewrite Hff in Hall. specialize (Hall eq_refl tt).
    unfold JSON_Decode, GoJSON.Unmarshal_or_error in Hall. rewrite Hun in Hall.
    discriminate Hall.
  - intros [ju Hall].
    pose proof (Hall invalid_payload tt invalid_payload_text tt) as H1.
    pose proof (Hall (mkCacheObject [xfe] 0) tt invalid_payload_text tt) as H2.
    simpl in H1, H2. rewrite Hff in H1. rewrite Hfe in H2.
    specialize (H1 eq_refl tt). specialize (H2 eq_refl tt).
    rewrite H1 in H2. discriminate H2.
Qed.

End CodecSpec.

(** ** Further properties of the codecs *)

Module CodecExtra.
Import Codec CodecPool.

Section Facts.
Context {V St : Type} (zeroV : V).
Context (zlib_deflate zlib_inflate : list byte → list byte * option error).

(** X1: [Encode] of the compression codec fails exactly when the inner
    encoder fails, or when compression is chosen ([0 <= T <= L]) and zlib
    fails.  The error is handed on unchanged and the frame is then the nil
    slice; a successful [Encode] never returns an empty frame, and the inner
    codec is left in the state its own [Encode] produced. *)
Theorem Encode_fails_exactly (b : binaryCompressionCodec V St) (pooled : list byte)
    (value : CacheObject V) (s s1 : St) (innerBuf : list byte) (ierr : option error) :
  Encode (inner b) value s = ((innerBuf, ierr), s1) →
  let r := binary_Encode zlib_deflate b pooled value s in
  let T := compressThresholdBytes b in
  r.2 = s1
  ∧ (∀ e, ierr = Some e → r.1 = ([], Some e))
  ∧ (ierr = None →
     ∀ e, r.1.2 = Some e ↔
          0 ≤ T ≤ len innerBuf ∧ (zlib_deflate innerBuf).2 = Some e)
  ∧ (is_Some r.1.2 → r.1.1 = [])
  ∧ (r.1.2 = None → r.1.1 ≠ []).
Proof.
  intros He r T. subst r T.
  destruct ierr as [e0|].
  - rewrite (CodecSpec.binary_Encode_inner_err zlib_deflate b pooled value s s1 innerBuf e0 He).
    simpl. split_and!; try done. by intros e [= <-].
  - rewrite (CodecSpec.binary_Encode_inner_ok zlib_deflate b pooled value s s1 innerBuf He).
    assert (0 ≤ len innerBuf) as HL by (unfold len; lia).
    destruct (decide (compressThresholdBytes b < 0)) as [Hneg|Hneg].
    { rewrite bool_decide_true by done. simpl.
      split_and!; try done; try (by intros [? ?]).
      intros _ e. split; [done|]. lia. }
    rewrite (bool_decide_false (compressThresholdBytes b < 0)) by done. simpl.
    destruct (decide (len innerBuf < compressThresholdBytes b)) as [Hlt|Hlt].
    { rewrite bool_decide_true by done. simpl.
      split_and!; try done; try (by intros [? ?]).
      intros _ e. split; [done|]. lia. }
    rewrite bool_decide_false by done.
    destruct (zlib_deflate innerBuf) as [c [e|]] eqn:Hc; simpl.
    + split_and!; try done; try (by intros [? ?]).
      intros _ e'. split.
      * intros [= <-]. split; [lia|done].
      * by intros [_ [= <-]].
    + split_and!; try done; try (by intros [? ?]).
      intros _ e'. split; [done|]. by intros [_ ?].
Qed.

(** X2: the framing is transparent.  Whenever [Encode] succeeds, the frame
    is the tag 0x00 followed by the inner encoding, or the tag 0x01 followed
    by its zlib compression, and [Decode] of that frame is the inner
    decoder's answer on the very bytes the inner encoder produced, whatever
    the inner codec is and whichever pooled buffers the two calls use; zlib
    is assumed to inflate what it deflated. *)
Theorem Decode_of_Encode_reaches_inner (b : binaryCompressionCodec V St)
    (o : CacheObject V) (pooled pooled' : list byte) (s s1 s1' : St)
    (innerBuf frame : list byte) :
  (∀ data c, zlib_deflate data = (c, None) → zlib_inflate c = (data, None)) →
  Encode (inner b) o s = ((innerBuf, None), s1) →
  binary_Encode zlib_deflate b pooled o s = ((frame, None), s1') →
  s1' = s1
  ∧ (∃ payload, (frame = x00 :: payload ∧ payload = innerBuf)
                ∨ (frame = x01 :: payload ∧ zlib_deflate innerBuf = (payload, None)))
  ∧ ∀ s2, binary_Decode zeroV zlib_inflate b pooled' frame s2 =
          Decode (inner b) innerBuf s2.
Proof.
  intros Hzlib Hi He.
  rewrite (CodecSpec.binary_Encode_inner_ok zlib_deflate b pooled o s s1 innerBuf Hi) in He.
  destruct (_ || _).
  - injection He as <- <-. split; [done|]. split; [exists innerBuf; by left|].
    done.
  - destruct (zlib_deflate innerBuf) as [c [e|]] eqn:Hc; [done|].
    injection He as <- <-. split; [done|]. split; [exists c; by right|].
    intros s2. simpl. unfold decompressZlib, acquireBuffer, Buffer_Reset.
    by rewrite (Hzlib _ _ Hc).
Qed.

(** X3: [Decode] calls the inner decoder at most once.  When it does not
    call it, it returns the zero cache object with an error and leaves the
    inner codec's state alone; a [Decode] that returns no error has gone
    through the inner decoder exactly once.  A frame tagged 0x01 that zlib
    rejects gives zlib's error without reaching the inner decoder; a frame
    tagged 0x00 is handed to it without its tag. *)
Theorem Decode_calls_inner_at_most_once
    (inner : CacheStorageCodec V (list byte) St) (policy : option bool) (T : Z)
    (pooled data : list byte) (s : St) (n : nat) :
  let b := NewBinaryCompressionCodec (counted inner) policy T in
  let r := binary_Decode zeroV zlib_inflate b pooled data (s, n) in
  (r.2.2 = n ∨ r.2.2 = S n)
  ∧ (r.2.2 = n →
     r.1.1 = zeroCacheObject zeroV ∧ is_Some r.1.2 ∧ r.2.1 = s)
  ∧ (r.1.2 = None → r.2.2 = S n)
  ∧ (∀ rest out e, data = x01 :: rest → zlib_inflate rest = (out, Some e) →
       r = ((zeroCacheObject zeroV, Some e), (s, n)))
  ∧ (∀ rest, data = x00 :: rest →
       r = ((Decode inner rest s).1, ((Decode inner rest s).2, S n))).
Proof.
  intros b r. subst b r.
  destruct data as [|tag rest]; [simpl; split_and!; try done; eauto; lia|].
  unfold binary_Decode. cbn [Codec.inner NewBinaryCompressionCodec].
  case_bool_decide as H0.
  { subst tag. simpl. destruct (Decode inner rest s) as [x s'] eqn:Hd. simpl.
    split_and!; try done; eauto; try (intros ?; lia).
    intros rest' [= <-]. by rewrite Hd. }
  case_bool_decide as H1.
  { subst tag. unfold decompressZlib, acquireBuffer, Buffer_Reset.
    destruct (zlib_inflate rest) as [out [e|]] eqn:Hz; simpl.
    - split_and!; try done; eauto.
      intros rest' out' e' [= <-]. rewrite Hz. by intros [= <- <-].
    - destruct (Decode inner out s) as [x s'] eqn:Hd. simpl.
      split_and!; try done; eauto; try (intros ?; lia).
      intros rest' out' e' [= <-]. by rewrite Hz. }
  simpl. split_and!; try done; eauto.
  - intros rest' out e [= -> _]. done.
  - intros rest' [= -> _]. done.
Qed.

(** *** The buffer pool *)

Lemma acquireBuffer_spec (p : buffers) pick buf p1 :
  pool_ok p → acquireBuffer p pick = (buf, p1) →
  contents p1 = <[buf := []]> (contents p)
  ∧ (buf ∉ bufPool p1) ∧ NoDup (bufPool p1)
  ∧ (∀ a, a ∈ bufPool p1 → a ∈ bufPool p)
  ∧ (∀ a, a ∈ bufPool p → a = buf ∨ a ∈ bufPool p1)
  ∧ (buf < next_buf p1)%nat ∧ (next_buf p ≤ next_buf p1)%nat
  ∧ (buf ∈ bufPool p ∨ contents p !! buf = None).
Proof.
  intros [Hnd Hemp Hb]. unfold acquireBuffer, bufPool_Get, Buffer_set, Buffer_Reset.
  destruct (bufPool p !! pick) as [a|] eqn:Hp; intros [= <- <-]; simpl.
  - pose proof (lookup_lt_Some _ _ _ Hp) as Hlt.
    assert (a ∈ bufPool p) as Hin by (by eapply list_elem_of_lookup_2).
    rewrite <- (take_drop_middle _ _ _ Hp) in Hnd.
    apply NoDup_app in Hnd as (Hn1 & Hn2 & Hn3).
    apply NoDup_cons in Hn3 as [Hn3 Hn4].
    rewrite delete_take_drop.
    assert (∀ x, x ∈ take pick (bufPool p) ++ drop (S pick) (bufPool p) → x ∈ bufPool p)
      as Hsub.
    { intros x Hx. rewrite <- (take_drop_middle _ _ _ Hp).
      apply elem_of_app in Hx as [Hx|Hx]; apply elem_of_app; [by left|right].
      by apply elem_of_cons; right. }
    split_and!; eauto.
    + intros Hx. apply elem_of_app in Hx as [Hx|Hx]; [|done].
      apply (Hn2 _ Hx). by apply elem_of_cons; left.
    + apply NoDup_app. split_and!; [done| |done].
      intros x Hx Hx'. apply (Hn2 _ Hx). by apply elem_of_cons; right.
    + intros x Hx. rewrite <- (take_drop_middle _ _ _ Hp) in Hx.
      apply elem_of_app in Hx as [Hx|Hx]; [right; apply elem_of_app; by left|].
      apply elem_of_cons in Hx as [->|Hx]; [by left|].
      right; apply elem_of_app; by right.
  - rewrite insert_insert_eq. split_and!; eauto; try lia.
    + intros Hx. apply Hemp in Hx. assert (next_buf p < next_buf p)%nat; [|lia].
      apply Hb. rewrite Hx. eauto.
    + right. destruct (contents p !! next_buf p) eqn:Hc; [|done].
      assert (next_buf p < next_buf p)%nat; [|lia]. apply Hb. eauto.
Qed.

Lemma Buffer_Bytes_set (p : buffers) buf bs :
  Buffer_Bytes (Buffer_set p buf bs) buf = bs.
Proof. unfold Buffer_Bytes, Buffer_set. simpl. by rewrite lookup_insert_eq. Qed.

Lemma acquireBuffer_Bytes (p : buffers) pick buf p1 :
  acquireBuffer p pick = (buf, p1) → Buffer_Bytes p1 buf = [].
Proof.
  unfold acquireBuffer. destruct (bufPool_Get p pick) as [a p0].
  intros [= <- <-]. apply Buffer_Bytes_set.
Qed.

(** A buffer that was acquired is written and returned. *)
Lemma pool_ok_return (p p1 : buffers) pick buf bs :
  pool_ok p → acquireBuffer p pick = (buf, p1) →
  pool_ok (returnBuffer (Buffer_set p1 buf bs) buf).
Proof.
  intros Hok Ha.
  destruct (acquireBuffer_spec _ _ _ _ Hok Ha)
    as (Hc & Hnin & Hnd & Hsub & _ & Hlt & Hle & _).
  destruct Hok as [_ Hemp Hb].
  unfold returnBuffer, bufPool_Put, Buffer_set, Buffer_Reset. simpl.
  split; simpl.
  - by apply NoDup_cons.
  - intros a [->|Ha']%elem_of_cons; [by rewrite lookup_insert_eq|].
    rewrite !lookup_insert_ne by (intros ->; done).
    rewrite Hc, lookup_insert_ne by (intros ->; done). eauto.
  - intros a. destruct (decide (a = buf)) as [->|Hne]; [done|].
    rewrite !lookup_insert_ne, Hc, lookup_insert_ne by done.
    intros Hs. apply Hb in Hs. lia.
Qed.

(** A buffer that was acquired is written and kept out of the pool. *)
Lemma pool_ok_keep (p p1 : buffers) pick buf bs :
  pool_ok p → acquireBuffer p pick = (buf, p1) →
  pool_ok (Buffer_set p1 buf bs).
Proof.
  intros Hok Ha.
  destruct (acquireBuffer_spec _ _ _ _ Hok Ha)
    as (Hc & Hnin & Hnd & Hsub & _ & Hlt & Hle & _).
  destruct Hok as [_ Hemp Hb].
  unfold Buffer_set. split; simpl.
  - done.
  - intros a Ha'. rewrite lookup_insert_ne, Hc, lookup_insert_ne
      by (intros ->; done). eauto.
  - intros a. destruct (decide (a = buf)) as [->|Hne]; [done|].
    rewrite lookup_insert_ne, Hc, lookup_insert_ne by done.
    intros Hs. apply Hb in Hs. lia.
Qed.

Lemma pooled_Encode_ok (b : binaryCompressionCodec V St) p pick value s :
  pool_ok p → pool_ok (pooled_Encode zlib_deflate b p pick value s).2.
Proof.
  intros Hok. unfold pooled_Encode.
  destruct (Encode (inner b) value s) as [[innerBuf [e|]] s1]; [done|].
  destruct (_ || _); [done|].
  destruct (acquireBuffer p pick) as [buf p1] eqn:Ha.
  destruct (compressZlib _ _ _) as [written [e|]]; simpl;
    by eapply pool_ok_return.
Qed.

Lemma pooled_Decode_ok (b : binaryCompressionCodec V St) p pick data s :
  pool_ok p → pool_ok (pooled_Decode zeroV zlib_inflate b p pick data s).1.2.
Proof.
  intros Hok. unfold pooled_Decode.
  destruct data as [|tag rest]; [done|].
  case_bool_decide; [done|]. case_bool_decide; [|done].
  destruct (acquireBuffer p pick) as [buf p1] eqn:Ha.
  destruct (decompressZlib _ _ _) as [written [e|]]; simpl;
    destruct (canReleaseBufferOnDecode b);
    by (eapply pool_ok_return || eapply pool_ok_keep).
Qed.

Lemma do_call_ok (b : binaryCompressionCodec V St) ps c :
  pool_ok ps.1 → pool_ok (do_call zeroV zlib_deflate zlib_inflate b ps c).1.
Proof.
  intros Hok. destruct c as [pick value|pick data]; simpl.
  - pose proof (pooled_Encode_ok b ps.1 pick value ps.2 Hok) as H.
    by destruct (pooled_Encode _ _ _ _ _ _) as [[? ?] ?].
  - pose proof (pooled_Decode_ok b ps.1 pick data ps.2 Hok) as H.
    by destruct (pooled_Decode _ _ _ _ _ _ _) as [[[? ?] ?] ?].
Qed.

Lemma do_calls_ok (b : binaryCompressionCodec V St) cs ps :
  pool_ok ps.1 → pool_ok (do_calls zeroV zlib_deflate zlib_inflate b ps cs).1.
Proof.
  revert ps. induction cs as [|c cs IH]; intros ps Hok; [done|].
  simpl. apply IH. by apply do_call_ok.
Qed.

Lemma pool_ok_new : pool_ok newBufPool.
Proof.
  split; simpl.
  - constructor.
  - intros buf Hin. by apply elem_of_nil in Hin.
  - intros buf [x Hx]. by rewrite lookup_empty in Hx.
Qed.

(** A buffer that is allocated and outside the pool is left alone by every
    call. *)
Lemma acquire_kept (p p1 : buffers) pick a buf bs :
  pool_ok p → acquireBuffer p pick = (a, p1) → kept p buf bs →
  a ≠ buf ∧ kept p1 buf bs.
Proof.
  intros Hok Ha [Hc Hnin].
  destruct (acquireBuffer_spec _ _ _ _ Hok Ha)
    as (Hc1 & _ & _ & Hsub & _ & _ & _ & Hfrom).
  assert (a ≠ buf) as Hne.
  { intros ->. destruct Hfrom as [?|Hnone]; [done|]. by rewrite Hnone in Hc. }
  split; [done|]. split.
  - by rewrite Hc1, lookup_insert_ne.
  - intros Hin. by apply Hsub in Hin.
Qed.

Lemma kept_set (p : buffers) a buf bs bs' :
  a ≠ buf → kept p buf bs → kept (Buffer_set p a bs') buf bs.
Proof.
  intros Hne [Hc Hnin]. split; simpl; [by rewrite lookup_insert_ne|done].
Qed.

Lemma kept_return (p : buffers) a buf bs :
  a ≠ buf → kept p buf bs → kept (returnBuffer p a) buf bs.
Proof.
  intros Hne [Hc Hnin]. split; simpl.
  - by rewrite lookup_insert_ne.
  - intros [->|?]%elem_of_cons; done.
Qed.

Lemma do_call_kept (b : binaryCompressionCodec V St) ps c buf bs :
  pool_ok ps.1 → kept ps.1 buf bs →
  kept (do_call zeroV zlib_deflate zlib_inflate b ps c).1 buf bs.
Proof.
  intros Hok Hk. destruct c as [pick value|pick data]; simpl.
  - unfold pooled_Encode.
    destruct (Encode (inner b) value ps.2) as [[innerBuf [e|]] s1]; [done|].
    destruct (_ || _); [done|].
    destruct (acquireBuffer ps.1 pick) as [a p1] eqn:Ha.
    destruct (acquire_kept _ _ _ _ _ _ Hok Ha Hk) as [Hne Hk1].
    destruct (compressZlib _ _ _) as [written [e|]]; simpl;
      by apply kept_return, kept_set.
  - unfold pooled_Decode.
    destruct data as [|tag rest]; [done|].
    case_bool_decide.
    { by destruct (Decode (inner b) rest ps.2). }
    case_bool_decide; [|done].
    destruct (acquireBuffer ps.1 pick) as [a p1] eqn:Ha.
    destruct (acquire_kept _ _ _ _ _ _ Hok Ha Hk) as [Hne Hk1].
    destruct (decompressZlib _ _ _) as [written [e|]]; simpl.
    + destruct (canReleaseBufferOnDecode b);
        [by apply kept_return, kept_set|by apply kept_set].
    + destruct (Decode (inner b) _ ps.2).
      destruct (canReleaseBufferOnDecode b);
        [by apply kept_return, kept_set|by apply kept_set].
Qed.

Lemma do_calls_kept (b : binaryCompressionCodec V St) cs ps buf bs :
  pool_ok ps.1 → kept ps.1 buf bs →
  kept (do_calls zeroV zlib_deflate zlib_inflate b ps cs).1 buf bs.
Proof.
  revert ps. induction cs as [|c cs IH]; intros ps Hok Hk; [done|].
  simpl. apply IH; [by apply do_call_ok|by apply do_call_kept].
Qed.

(** X4: the buffer pool does not show in the results.  [Encode] and
    [Decode], run on the codec's pool in any state and with any buffer the
    pool hands out, return what the functions on a single scratch buffer
    return: [acquireBuffer] resets the buffer before it is used. *)
Theorem pooled_codec_refines (b : binaryCompressionCodec V St) (p : buffers)
    (pick : nat) (pooled : list byte) (value : CacheObject V) (data : list byte)
    (s : St) :
  (pooled_Encode zlib_deflate b p pick value s).1 =
    binary_Encode zlib_deflate b pooled value s
  ∧ (pooled_Decode zeroV zlib_inflate b p pick data s).1.1 =
      binary_Decode zeroV zlib_inflate b pooled data s.
Proof.
  split.
  - unfold pooled_Encode, binary_Encode.
    destruct (Encode (inner b) value s) as [[innerBuf [e|]] s1]; [done|].
    destruct (_ || _); [done|].
    destruct (acquireBuffer p pick) as [buf p1] eqn:Ha.
    rewrite (acquireBuffer_Bytes _ _ _ _ Ha).
    unfold Codec.acquireBuffer, Buffer_Reset.
    destruct (compressZlib zlib_deflate [] innerBuf) as [written [e|]]; [done|].
    simpl. by rewrite Buffer_Bytes_set.
  - unfold pooled_Decode, binary_Decode.
    destruct data as [|tag rest]; [done|].
    case_bool_decide; [done|]. case_bool_decide; [|done].
    destruct (acquireBuffer p pick) as [buf p1] eqn:Ha.
    rewrite (acquireBuffer_Bytes _ _ _ _ Ha).
    unfold Codec.acquireBuffer, Buffer_Reset.
    destruct (decompressZlib zlib_inflate [] rest) as [written [e|]]; [done|].
    simpl. by rewrite Buffer_Bytes_set.
Qed.

(** X5: after any sequence of [Encode] and [Decode] calls on a codec, its
    pool holds no buffer twice, and every buffer in the pool is allocated
    and empty: [returnBuffer] resets a buffer before it puts it back, and
    only a buffer taken out of the pool is put back. *)
Theorem bufPool_holds_empty_buffers (b : binaryCompressionCodec V St)
    (cs : list (call V)) (s : St) :
  let p := (do_calls zeroV zlib_deflate zlib_inflate b (newBufPool, s) cs).1 in
  NoDup (bufPool p)
  ∧ (∀ buf, buf ∈ bufPool p → Buffer_Bytes p buf = [] ∧ (buf < next_buf p)%nat)
  ∧ ∀ c, pool_ok (do_call zeroV zlib_deflate zlib_inflate b
                    (do_calls zeroV zlib_deflate zlib_inflate b (newBufPool, s) cs) c).1.
Proof.
  intros p.
  assert (pool_ok p) as Hok by (apply do_calls_ok, pool_ok_new).
  split; [apply Hok|]. split.
  - intros buf Hin. pose proof (pool_empty _ Hok _ Hin) as Hc.
    split; [unfold Buffer_Bytes; by rewrite Hc|].
    apply (pool_bound _ Hok). rewrite Hc. eauto.
  - intros c. by apply do_call_ok.
Qed.

(** X6: the buffer whose bytes [Decode] hands to the inner decoder.  It is
    handed one only for a frame tagged 0x01 that zlib inflates.  When the
    inner codec allows the release ([canReleaseBufferOnDecode]), the buffer
    is back in the pool, emptied, when [Decode] returns.  Otherwise it stays
    out of the pool with the inflated bytes, and no later [Encode] or
    [Decode] on the codec changes it or puts it in the pool. *)
Theorem Decode_lent_buffer (b : binaryCompressionCodec V St) (p p' : buffers)
    (pick : nat) (data : list byte) (s : St)
    (r : (CacheObject V * option error) * St) (buf : nat) :
  pool_ok p →
  pooled_Decode zeroV zlib_inflate b p pick data s = (r, p', Some buf) →
  ∃ rest inflated,
    data = x01 :: rest ∧ zlib_inflate rest = (inflated, None)
    ∧ r = Decode (inner b) inflated s
    ∧ if canReleaseBufferOnDecode b
      then bufPool p' = buf :: delete pick (bufPool p)
           ∧ contents p' !! buf = Some []
      else contents p' !! buf = Some inflated ∧ (buf ∉ bufPool p')
           ∧ ∀ cs s',
               let p'' := (do_calls zeroV zlib_deflate zlib_inflate b (p', s') cs).1 in
               contents p'' !! buf = Some inflated ∧ (buf ∉ bufPool p'').
Proof.
  intros Hok. unfold pooled_Decode.
  destruct data as [|tag rest]; [done|].
  case_bool_decide as H0; [done|]. case_bool_decide as H1; [|done]. subst tag.
  destruct (acquireBuffer p pick) as [a p1] eqn:Ha.
  rewrite (acquireBuffer_Bytes _ _ _ _ Ha).
  unfold decompressZlib.
  destruct (zlib_inflate rest) as [inflated [e|]] eqn:Hz; [done|].
  simpl. rewrite Buffer_Bytes_set. intros [= <- <- <-].
  exists rest, inflated. split_and!; try done.
  destruct (acquireBuffer_spec _ _ _ _ Hok Ha)
    as (Hc1 & Hnin & _ & _ & _ & _ & _ & _).
  destruct (canReleaseBufferOnDecode b) eqn:Hcan.
  - split; simpl; [|by rewrite lookup_insert_eq].
    f_equal. revert Ha. unfold acquireBuffer, bufPool_Get.
    destruct (bufPool p !! pick) as [a0|] eqn:Hp; intros [= <- <-]; simpl; [done|].
    apply lookup_ge_None in Hp.
    by rewrite delete_take_drop, take_ge, drop_ge, app_nil_r by lia.
  - assert (kept (Buffer_set p1 a inflated) a inflated) as Hk.
    { split; simpl; [by rewrite lookup_insert_eq|done]. }
    split_and!; [apply Hk|apply Hk|].
    intros cs s'.
    apply (do_calls_kept b cs (Buffer_set p1 a inflated, s') a inflated);
      [by eapply pool_ok_keep|done].
Qed.

(** X7: the JSON codec.  [Encode] succeeds exactly when marshalling does,
    and returns the JSON text as the encoder wrote it less its final
    newline; on an error it returns the nil slice with that error.
    [Decode] succeeds exactly when [json.Unmarshal] does; on an error it
    returns the zero cache object, whatever [Unmarshal] had filled in. *)
Theorem JSON_codec_results (json_Marshal : CacheObject V → list byte * option error)
    (json_Unmarshal : list byte → CacheObject V * option error)
    (o : CacheObject V) (data : list byte) :
  (∀ frame, JSON_Encode json_Marshal o = (frame, None)
            ↔ json_Marshal o = (frame, None))
  ∧ (∀ frame, JSON_Encode json_Marshal o = (frame, None) →
       Encoder_Encode json_Marshal [] o = (frame ++ [newline], None))
  ∧ (∀ text e, json_Marshal o = (text, Some e) →
       JSON_Encode json_Marshal o = ([], Some e))
  ∧ (∀ o', JSON_Decode zeroV json_Unmarshal data = (o', None)
           ↔ json_Unmarshal data = (o', None))
  ∧ (∀ out e, json_Unmarshal data = (out, Some e) →
       JSON_Decode zeroV json_Unmarshal data = (zeroCacheObject zeroV, Some e)).
Proof.
  split_and!.
  - intros frame. split;
      [apply CodecSpec.JSON_Encode_inv|apply CodecSpec.JSON_Encode_ok].
  - intros frame Hf. apply CodecSpec.JSON_Encode_inv in Hf.
    unfold Encoder_Encode. by rewrite Hf.
  - intros text e Hm. unfold JSON_Encode, Encoder_Encode. by rewrite Hm.
  - intros o'. unfold JSON_Decode.
    destruct (json_Unmarshal data) as [out [e|]]; split; congruence.
  - intros out e Hu. unfold JSON_Decode. by rewrite Hu.
Qed.

End Facts.

Lemma Encode_fails_exactly_witness :
  Encode rawCodec hello tt = ((Value hello, None), tt)
  ∧ ∀ e, (binary_Encode toy_deflate (NewBinaryCompressionCodec rawCodec None 0) []
            hello tt).1.2 = Some e
         ↔ 0 ≤ 0 ≤ len (Value hello) ∧ (toy_deflate (Value hello)).2 = Some e.
Proof.
  split; [reflexivity|].
  apply (Encode_fails_exactly toy_deflate
           (NewBinaryCompressionCodec rawCodec None 0) [] hello tt tt
           (Value hello) None eq_refl).
  reflexivity.
Defined.

Lemma Decode_of_Encode_reaches_inner_witness :
  binary_Encode toy_deflate (NewBinaryCompressionCodec rawCodec None 0) []
    hello tt = ((x01 :: x78 :: Value hello, None), tt)
  ∧ ∀ s2, binary_Decode [] toy_inflate (NewBinaryCompressionCodec rawCodec None 0)
            [] (x01 :: x78 :: Value hello) s2 =
          Decode rawCodec (Value hello) s2.
Proof.
  split; [reflexivity|].
  apply (Decode_of_Encode_reaches_inner [] toy_deflate toy_inflate
           (NewBinaryCompressionCodec rawCodec None 0) hello [] [] tt tt tt
           (Value hello) (x01 :: x78 :: Value hello)
           CodecSpec.toy_zlib_round_trip eq_refl eq_refl).
Defined.

Lemma Decode_lent_buffer_witness :
  pool_ok newBufPool
  ∧ ∃ p' buf,
      (pooled_Decode [] toy_inflate (NewBinaryCompressionCodec rawCodec None 0)
         newBufPool 0 (x01 :: x78 :: Value hello) tt).1.2 = p'
      ∧ contents p' !! buf = Some (Value hello) ∧ (buf ∉ bufPool p').
Proof.
  split; [apply pool_ok_new|].
  destruct (Decode_lent_buffer [] toy_deflate toy_inflate
              (NewBinaryCompressionCodec rawCodec None 0) newBufPool _ 0
              (x01 :: x78 :: Value hello) tt _ 0 pool_ok_new eq_refl)
    as (rest & inflated & Hd & Hz & _ & Hkept).
  injection Hd as <-. injection Hz as <-.
  destruct Hkept as (Hc & Hnin & _).
  eexists _, 0%nat. split; [reflexivity|]. split; [exact Hc|exact Hnin].
Defined.

End CodecExtra.

(** ** Properties of the Redis provider *)

Module RedisProviderSpec.
Import RedisProvider.

(** X8: [parseRedisGetMessage] decides its result by four cases.  A nil
    message is a miss without an error, whatever the command error.
    Otherwise a command error that [errors.Is] finds to be [rueidis.Nil]
    (the sentinel itself or an error that wraps it, at any depth) is a miss
    without an error, and any other command error is returned as it is,
    with no value; without a command error, an error of [AsBytes] is
    returned as it is, with no value, and else the call is a hit with the
    bytes of the message.  So a hit is reported exactly when the message is
    not nil, the command went through and [AsBytes] succeeds, and an error
    that is returned is the command's or that of [AsBytes].  An error of a
    collaborator whose text is that of [rueidis.Nil] is not the sentinel. *)
Theorem parseRedisGetMessage_hit_or_miss (msg : RedisMessage) (err : option error) :
  let r := parseRedisGetMessage msg err in
  (IsNil msg = true → r = ([], false, None))
  ∧ (∀ e, IsNil msg = false → err = Some e →
       if errors_Is (Some e) rueidis_Nil then r = ([], false, None)
       else r = ([], false, Some e))
  ∧ (∀ value e, IsNil msg = false → err = None →
       AsBytes msg = (value, Some e) → r = ([], false, Some e))
  ∧ (∀ value, IsNil msg = false → err = None →
       AsBytes msg = (value, None) → r = (value, true, None))
  ∧ (r.1.2 = true ↔ IsNil msg = false ∧ err = None ∧ (AsBytes msg).2 = None)
  ∧ (r.1.2 = true → r.2 = None ∧ r.1.1 = (AsBytes msg).1)
  ∧ (r.1.2 = false → r.1.1 = [])
  ∧ (IsNil msg = true ∨ err = Some rueidis_Nil → r = ([], false, None))
  ∧ (∀ e, r.2 = Some e →
       IsNil msg = false ∧
       ((err = Some e ∧ errors_Is (Some e) rueidis_Nil = false)
        ∨ (err = None ∧ (AsBytes msg).2 = Some e)))
  ∧ errors_Is (Some rueidis_Nil) rueidis_Nil = true
  ∧ (∀ text e, errors_Is (Some (Wrapped text e)) rueidis_Nil
               = errors_Is (Some e) rueidis_Nil)
  ∧ (∀ e, Unwrap e = None → e ≠ rueidis_Nil →
          errors_Is (Some e) rueidis_Nil = false)
  ∧ errors_Is (Some (Foreign (Error rueidis_Nil))) rueidis_Nil = false.
Proof.
  unfold parseRedisGetMessage.
  assert (∀ e, Unwrap e = None → e ≠ rueidis_Nil →
               errors_Is (Some e) rueidis_Nil = false) as Hplain.
  { intros e Hu Hne. destruct e; simpl in *; try done. }
  split_and!; try done.
  - by intros ->.
  - intros e -> ->. simpl. by destruct (errors_is e rueidis_Nil).
  - by intros value e -> -> ->.
  - by intros value -> -> ->.
  - destruct (IsNil msg); [split; [done|by intros [? _]]|].
    destruct err as [e0|].
    + simpl. destruct (errors_is e0 rueidis_Nil);
        (split; [done|by intros (_ & ? & _)]).
    + destruct (AsBytes msg) as [value [e0|]]; simpl; [|done].
      split; [done|by intros (_ & _ & ?)].
  - destruct (IsNil msg); [done|]. destruct err as [e0|].
    + simpl. by destruct (errors_is e0 rueidis_Nil).
    + by destruct (AsBytes msg) as [value [e0|]].
  - destruct (IsNil msg); [done|]. destruct err as [e0|].
    + simpl. by destruct (errors_is e0 rueidis_Nil).
    + by destruct (AsBytes msg) as [value [e0|]].
  - intros [->| ->]; [done|]. by destruct (IsNil msg).
  - intros e. destruct (IsNil msg); [done|]. destruct err as [e0|].
    + simpl. destruct (errors_is e0 rueidis_Nil) eqn:His; [done|].
      intros [= <-]. split; [done|]. by left.
    + destruct (AsBytes msg) as [value [e0|]]; simpl; [|done].
      intros [= <-]. split; [done|]. by right.
Qed.

End RedisProviderSpec.

(** ** Properties of the loader *)

Module LoaderSpec.
Import GoContext Loader LoaderInv.

Lemma tally_app {A : Type} (f : A → Z) (l1 l2 : list A) :
  tally f (l1 ++ l2) = tally f l1 + tally f l2.
Proof. induction l1 as [|x l1 IH]; simpl; lia. Qed.

Lemma tally_insert {A : Type} (f : A → Z) (l : list A) (i : nat) (x y : A) :
  l !! i = Some x →
  tally f (<[i := y]> l) = tally f l - f x + f y.
Proof.
  revert i. induction l as [|z l IH]; intros [|i] Hi; simplify_eq/=.
  - lia.
  - rewrite (IH i Hi). lia.
Qed.

Lemma tally_nonneg {A : Type} (f : A → Z) (l : list A) :
  (∀ x, 0 ≤ f x) → 0 ≤ tally f l.
Proof. intros Hf. induction l as [|x l IH]; simpl; [lia|]. specialize (Hf x). lia. Qed.

Lemma tally_lookup_le {A : Type} (f : A → Z) (l : list A) (i : nat) (x : A) :
  (∀ x, 0 ≤ f x) → l !! i = Some x → f x ≤ tally f l.
Proof.
  intros Hf. revert i. induction l as [|z l IH]; intros [|i] Hi; simplify_eq/=.
  - pose proof (tally_nonneg f l Hf). lia.
  - specialize (IH i Hi). specialize (Hf z). lia.
Qed.

Section Specs.
Context {V : Type} (zeroV : V) (hashKey : string → Z).

Local Abbreviation inv := (LoaderInv.inv zeroV).
Local Abbreviation caller_ok := (LoaderInv.caller_ok zeroV).
Local Abbreviation fresh_record := (LoaderInv.fresh_record zeroV).

(** *** The loader's operations keep [wf] *)

Lemma wf_newSingleflightLoader g : wf (@newSingleflightLoader V g).
Proof.
  split; simpl; try done.
  - intros i m k a Hm. apply lookup_replicate in Hm as [-> _]. done.
  - intros i m k i' m' k' a Hm. apply lookup_replicate in Hm as [-> _]. done.
  - intros a Ha. by apply elem_of_nil in Ha.
  - constructor.
  - intros b ch Hb. by apply elem_of_nil in Hb.
  - constructor.
  - intros ch [x Hx]. done.
Qed.

Lemma pool_Get_spec (st : state V) pick a pool' na :
  wf st → pool_Get st pick = (a, pool', na) →
  (heap st !! a = None ∨ ∃ inf, heap st !! a = Some inf ∧ pooled inf = true)
  ∧ (a ∉ pool') ∧ NoDup pool' ∧ (∀ b, b ∈ pool' → b ∈ inflightPool st)
  ∧ (a < na)%nat ∧ (next_addr st ≤ na)%nat.
Proof.
  intros Hwf. unfold pool_Get.
  destruct (inflightPool st !! pick) as [b|] eqn:Hp; intros [= <- <- <-].
  - assert (Hin : b ∈ inflightPool st) by (eapply list_elem_of_lookup_2; done).
    destruct (wf_pool _ Hwf _ Hin) as (inf & Hinf & Hpooled).
    pose proof (wf_pool_nodup _ Hwf) as Hnd.
    pose proof (wf_heap_bound _ Hwf _ _ Hinf) as [Hb _].
    split_and!; [eauto| | | |done|done].
    + rewrite delete_take_drop.
      rewrite <- (take_drop_middle _ _ _ Hp) in Hnd.
      apply NoDup_app in Hnd as (Hnd1 & Hnd2 & Hnd3).
      apply NoDup_cons in Hnd3 as [Hnd3 Hnd4].
      intros [Hx|Hx]%elem_of_app; [|done].
      apply (Hnd2 _ Hx). left.
    + eapply sublist_NoDup; [done|apply sublist_delete].
    + intros x Hx. by eapply list_elem_of_delete_inv.
  - split_and!; [|intros Hin|apply (wf_pool_nodup _ Hwf)|done|lia|lia].
    + destruct (heap st !! next_addr st) as [inf|] eqn:Hh; [|by left].
      apply (wf_heap_bound _ Hwf) in Hh. lia.
    + destruct (wf_pool _ Hwf _ Hin) as (inf & Hinf & _).
      apply (wf_heap_bound _ Hwf) in Hinf. lia.
Qed.

Lemma newInflight_eq (st : state V) c pick :
  ∃ a pool' na, pool_Get st pick = (a, pool', na) ∧
    newInflight zeroV st c pick =
      (mkState (shards st) (<[a := fresh_record st c]> (heap st)) na pool'
               (closed st) (S (next_chan st)) (cancelled st) (S (next_cancel st))
               (now st) (metrics st) (puts st) (completions st), a).
Proof.
  unfold newInflight. destruct (pool_Get st pick) as [[a pool'] na].
  by exists a, pool', na.
Qed.

(** The record [newInflight] returns is in no shard map. *)
Lemma newInflight_not_mapped (st : state V) c pick i m k :
  wf st → shards st !! i = Some m →
  m !! k ≠ Some (newInflight zeroV st c pick).2.
Proof.
  intros Hwf Hm Hk.
  destruct (newInflight_eq st c pick) as (a & pool' & na & Hget & Heq).
  rewrite Heq in Hk. simpl in Hk.
  destruct (wf_map _ Hwf _ _ _ _ Hm Hk) as (inf & Hinf & _ & Hnp).
  destruct (pool_Get_spec _ _ _ _ _ Hwf Hget) as ([Hnone|(inf' & Hinf' & Hp)] & _).
  - congruence.
  - congruence.
Qed.

Lemma newInflight_wf (st : state V) c pick :
  wf st → wf (newInflight zeroV st c pick).1.
Proof.
  intros Hwf.
  destruct (newInflight_eq st c pick) as (a & pool' & na & Hget & ->).
  destruct (pool_Get_spec _ _ _ _ _ Hwf Hget)
    as (Hold & Hnotin & Hnd & Hsub & Hlt & Hle).
  split; simpl.
  - intros b inf [[<- <-]|[Hne Hb]]%lookup_insert_Some; simpl; [lia|].
    apply (wf_heap_bound _ Hwf) in Hb. lia.
  - intros ch Hch. apply (wf_closed_bound _ Hwf) in Hch. lia.
  - intros b inf [[<- <-]|[Hne Hb]]%lookup_insert_Some; simpl.
    + split; [done|]. intros Hch%(wf_closed_bound _ Hwf). lia.
    + exact (wf_done_closed _ Hwf _ _ Hb).
  - intros b1 b2 i1 i2 [[<- <-]|[Hne1 Hb1]]%lookup_insert_Some
                       [[<- <-]|[Hne2 Hb2]]%lookup_insert_Some; simpl; try done.
    + apply (wf_heap_bound _ Hwf) in Hb2. lia.
    + apply (wf_heap_bound _ Hwf) in Hb1. lia.
    + by apply (wf_chan_inj _ Hwf _ _ _ _ Hb1 Hb2).
  - intros i m k b Hm Hk.
    destruct (wf_map _ Hwf _ _ _ _ Hm Hk) as (inf & Hinf & Hrefs & Hnp).
    exists inf. split_and!; [|done|done].
    rewrite lookup_insert_ne; [done|]. intros <-.
    destruct Hold as [?|(inf' & ? & ?)]; congruence.
  - apply (wf_map_unique _ Hwf).
  - intros b inf [[<- <-]|[Hne Hb]]%lookup_insert_Some; simpl; [done|].
    exact (wf_pooled _ Hwf _ _ Hb).
  - intros b Hb. destruct (wf_pool _ Hwf b (Hsub _ Hb)) as (inf & Hinf & Hp).
    exists inf. split; [|done]. rewrite lookup_insert_ne; [done|]. by intros <-.
  - done.
  - intros b ch Hb. destruct (wf_puts _ Hwf _ _ Hb) as [Hch Hp].
    split; [lia|].
    intros b' inf [[<- <-]|[Hne Hb']]%lookup_insert_Some; simpl; [lia|].
    by apply (Hp b').
  - apply (wf_puts_nodup _ Hwf).
  - intros b inf [[<- <-]|[Hne Hb]]%lookup_insert_Some; simpl; [done|].
    exact (wf_completions _ Hwf _ _ Hb).
  - apply (wf_completions_closed _ Hwf).
Qed.

(** Installing a record that no map holds under a key of a shard. *)
Lemma wf_set_shard_insert (st : state V) i m key a :
  wf st → shards st !! i = Some m →
  (∀ i' m' k', shards st !! i' = Some m' → m' !! k' ≠ Some a) →
  (∃ inf, heap st !! a = Some inf ∧ 1 ≤ refs inf ∧ pooled inf = false) →
  wf (set_shard st i (<[key := a]> m)).
Proof.
  intros Hwf Hm Hfresh Ha.
  assert (Hentry : ∀ i' m' k' b,
    <[i := <[key := a]> m]> (shards st) !! i' = Some m' → m' !! k' = Some b →
    (i' = i ∧ k' = key ∧ b = a) ∨
    (b ≠ a ∧ ∃ m'', shards st !! i' = Some m'' ∧ m'' !! k' = Some b)).
  { intros i' m' k' b [(-> & <- & _)|[Hne Hm']]%list_lookup_insert_Some Hk.
    - apply lookup_insert_Some in Hk as [[<- <-]|[Hne Hk]]; [by left|].
      right. split; [|eauto]. intros ->. by eapply Hfresh.
    - right. split; [|eauto]. intros ->. by eapply Hfresh. }
  split; simpl; try apply Hwf.
  - intros i' m' k' b Hm' Hk.
    destruct (Hentry _ _ _ _ Hm' Hk) as [(-> & -> & ->)|(_ & m'' & Hm'' & Hk'')].
    + done.
    + by eapply (wf_map _ Hwf).
  - intros i1 m1 k1 i2 m2 k2 b Hm1 Hk1 Hm2 Hk2.
    destruct (Hentry _ _ _ _ Hm1 Hk1) as [(-> & -> & ->)|(Hne1 & m1' & Hm1' & Hk1')];
    destruct (Hentry _ _ _ _ Hm2 Hk2) as [(-> & -> & ?)|(Hne2 & m2' & Hm2' & Hk2')];
      try done.
    by eapply (wf_map_unique _ Hwf).
Qed.

(** [wf] reads only the data of the loader, not the world or the metrics. *)
Lemma wf_ext (st st' : state V) :
  wf st →
  shards st' = shards st → heap st' = heap st → next_addr st' = next_addr st →
  inflightPool st' = inflightPool st → closed st' = closed st →
  next_chan st' = next_chan st → puts st' = puts st →
  completions st' = completions st →
  wf st'.
Proof.
  intros Hwf E1 E2 E3 E4 E5 E6 E7 E8.
  split; rewrite ?E1, ?E2, ?E3, ?E4, ?E5, ?E6, ?E7, ?E8; apply Hwf.
Qed.

(** Changing the reference count of one record, and dropping map entries. *)
Lemma wf_update (st st' : state V) a inf inf' :
  wf st → heap st !! a = Some inf →
  doneCh inf' = doneCh inf → done inf' = done inf → pooled inf' = pooled inf →
  val inf' = val inf → err inf' = err inf →
  (pooled inf' = true → refs inf' ≤ 0) →
  (∀ i m k b, shards st' !! i = Some m → m !! k = Some b →
     (b = a → 1 ≤ refs inf') ∧
     ∃ m0, shards st !! i = Some m0 ∧ m0 !! k = Some b) →
  heap st' = <[a := inf']> (heap st) → next_addr st' = next_addr st →
  inflightPool st' = inflightPool st → closed st' = closed st →
  next_chan st' = next_chan st → puts st' = puts st →
  completions st' = completions st →
  wf st'.
Proof.
  intros Hwf Ha Hch Hdone Hpooled Hval Herr Hrefs Hmap E2 E3 E4 E5 E6 E7 E8.
  assert (Hlook : ∀ b ib, heap st' !! b = Some ib →
    ∃ ib0, heap st !! b = Some ib0 ∧ doneCh ib = doneCh ib0 ∧
           done ib = done ib0 ∧ pooled ib = pooled ib0 ∧
           val ib = val ib0 ∧ err ib = err ib0 ∧
           (b ≠ a → ib = ib0) ∧ (b = a → ib = inf')).
  { intros b ib. rewrite E2.
    intros [[<- <-]|[Hne Hb]]%lookup_insert_Some.
    - exists inf. by split_and!.
    - exists ib. by split_and!. }
  split; rewrite ?E3, ?E4, ?E5, ?E6, ?E7, ?E8.
  - intros b ib (ib0 & Hb & -> & _)%Hlook. by apply (wf_heap_bound _ Hwf) in Hb.
  - apply Hwf.
  - intros b ib (ib0 & Hb & -> & -> & _)%Hlook. exact (wf_done_closed _ Hwf _ _ Hb).
  - intros b1 b2 i1 i2 (j1 & Hb1 & -> & _)%Hlook (j2 & Hb2 & -> & _)%Hlook.
    by apply (wf_chan_inj _ Hwf _ _ _ _ Hb1 Hb2).
  - intros i m k b Hm Hk.
    destruct (Hmap _ _ _ _ Hm Hk) as (Hge & m0 & Hm0 & Hk0).
    destruct (wf_map _ Hwf _ _ _ _ Hm0 Hk0) as (ib0 & Hb0 & Hr0 & Hp0).
    destruct (decide (b = a)) as [->|Hne].
    + exists inf'. rewrite E2, lookup_insert_eq. split_and!; [done|by apply Hge|].
      rewrite Hpooled. congruence.
    + exists ib0. rewrite E2, lookup_insert_ne by done. done.
  - intros i m k i' m' k' b Hm Hk Hm' Hk'.
    destruct (Hmap _ _ _ _ Hm Hk) as (_ & m0 & Hm0 & Hk0).
    destruct (Hmap _ _ _ _ Hm' Hk') as (_ & m0' & Hm0' & Hk0').
    by eapply (wf_map_unique _ Hwf).
  - intros b ib Hb. destruct (Hlook _ _ Hb) as (ib0 & Hb0 & _ & -> & -> & _ & _ & Hne & Heq).
    intros Hp. destruct (decide (b = a)) as [->|Hne'].
    + rewrite (Heq eq_refl). split; [|apply Hrefs; congruence].
      assert (ib0 = inf) as -> by congruence.
      by apply (wf_pooled _ Hwf _ _ Ha).
    + rewrite (Hne Hne'). by apply (wf_pooled _ Hwf _ _ Hb0).
  - intros b Hb. destruct (wf_pool _ Hwf _ Hb) as (ib & Hib & Hp).
    destruct (decide (b = a)) as [->|Hne].
    + exists inf'. rewrite E2, lookup_insert_eq. split; [done|]. congruence.
    + exists ib. by rewrite E2, lookup_insert_ne.
  - apply Hwf.
  - intros b ch Hb. destruct (wf_puts _ Hwf _ _ Hb) as [Hlt Hp]. split; [done|].
    intros b' ib' (ib0 & Hb0 & -> & _ & -> & _)%Hlook Hc. by eapply Hp.
  - apply Hwf.
  - intros b ib (ib0 & Hb0 & -> & -> & _ & -> & -> & _)%Hlook.
    exact (wf_completions _ Hwf _ _ Hb0).
  - apply Hwf.
Qed.

(** Returning a finished, unreferenced and unmapped record to the pool. *)
Lemma wf_pool_Put (st : state V) a inf :
  wf st → heap st !! a = Some inf →
  pooled inf = false → done inf = true → refs inf ≤ 0 →
  wf (pool_Put st a inf).
Proof.
  intros Hwf Ha Hnp Hdone Hrefs.
  assert (Hpool : a ∉ inflightPool st).
  { intros (inf' & ? & ?)%(wf_pool _ Hwf). congruence. }
  assert (Hunmapped : ∀ i m k, shards st !! i = Some m → m !! k ≠ Some a).
  { intros i m k Hm Hk.
    destruct (wf_map _ Hwf _ _ _ _ Hm Hk) as (inf' & ? & ? & ?).
    assert (inf' = inf) as -> by congruence. lia. }
  split; simpl.
  - intros b ib [[<- <-]|[Hne Hb]]%lookup_insert_Some; simpl.
    + apply (wf_heap_bound _ Hwf _ _ Ha).
    + apply (wf_heap_bound _ Hwf _ _ Hb).
  - apply Hwf.
  - intros b ib [[<- <-]|[Hne Hb]]%lookup_insert_Some; simpl.
    + exact (wf_done_closed _ Hwf _ _ Ha).
    + exact (wf_done_closed _ Hwf _ _ Hb).
  - intros b1 b2 i1 i2 [[<- <-]|[Hne1 Hb1]]%lookup_insert_Some
                       [[<- <-]|[Hne2 Hb2]]%lookup_insert_Some; simpl; try done.
    + by apply (wf_chan_inj _ Hwf _ _ _ _ Ha Hb2).
    + by apply (wf_chan_inj _ Hwf _ _ _ _ Hb1 Ha).
    + by apply (wf_chan_inj _ Hwf _ _ _ _ Hb1 Hb2).
  - intros i m k b Hm Hk.
    destruct (wf_map _ Hwf _ _ _ _ Hm Hk) as (ib & Hb & Hr & Hp).
    exists ib. split_and!; [|done|done].
    rewrite lookup_insert_ne; [done|]. intros <-. by eapply Hunmapped.
  - apply Hwf.
  - intros b ib [[<- <-]|[Hne Hb]]%lookup_insert_Some; simpl; [done|].
    exact (wf_pooled _ Hwf _ _ Hb).
  - intros b [->|Hb]%elem_of_cons.
    + exists (set_pooled inf true). by rewrite lookup_insert_eq.
    + destruct (wf_pool _ Hwf _ Hb) as (ib & Hib & Hp).
      exists ib. rewrite lookup_insert_ne; [done|]. by intros <-.
  - apply NoDup_cons. split; [done|apply Hwf].
  - intros b ch [[= -> ->]|Hb]%elem_of_cons.
    + split; [apply (wf_heap_bound _ Hwf _ _ Ha)|].
      intros b ib [[<- <-]|[Hne Hb]]%lookup_insert_Some; simpl; [done|].
      intros Hc. destruct Hne. symmetry in Hc.
      by apply (wf_chan_inj _ Hwf _ _ _ _ Ha Hb).
    + destruct (wf_puts _ Hwf _ _ Hb) as [Hlt Hp]. split; [done|].
      intros b' ib [[<- <-]|[Hne Hb']]%lookup_insert_Some; simpl; [done|].
      by apply (Hp b').
  - apply NoDup_cons. split; [|apply Hwf].
    intros ([b ch] & Hc & Hin)%list_elem_of_fmap. simpl in Hc. subst ch.
    destruct (wf_puts _ Hwf _ _ Hin) as [_ Hp].
    specialize (Hp _ _ Ha eq_refl). congruence.
  - intros b ib [[<- <-]|[Hne Hb]]%lookup_insert_Some; simpl.
    + exact (wf_completions _ Hwf _ _ Ha).
    + exact (wf_completions _ Hwf _ _ Hb).
  - apply Hwf.
Qed.

(** The two outcomes of [acquireInflight]. *)
Lemma acquire_cases (st st' : state V) c key pick a leader i :
  acquireInflight zeroV hashKey st c key pick = Some (st', (a, leader, i)) →
  i = shardFor hashKey st key ∧
  ∃ m, shards st !! i = Some m ∧
    ((leader = true
      ∧ (m !! key = None
         ∨ ∃ a0 inf0, m !! key = Some a0 ∧ heap st !! a0 = Some inf0
                      ∧ doneCh inf0 ∈ closed st)
      ∧ a = (newInflight zeroV st c pick).2
      ∧ st' = set_shard (newInflight zeroV st c pick).1 i (<[key := a]> m))
     ∨ (leader = false
        ∧ ∃ inf, m !! key = Some a ∧ heap st !! a = Some inf
                 ∧ (doneCh inf ∉ closed st)
                 ∧ st' = set_heap st a (set_refs inf (refs inf + 1)))).
Proof.
  unfold acquireInflight. intros H.
  destruct (shards st !! shardFor hashKey st key) as [m|] eqn:Hm; [|done].
  simpl in H.
  destruct (m !! key) as [a0|] eqn:Hk.
  - destruct (heap st !! a0) as [inf0|] eqn:Ha0; [|done]. simpl in H.
    case_bool_decide as Hc.
    + destruct (newInflight zeroV st c pick) as [st1 newInf] eqn:Hn.
      injection H as <- <- <- <-. split; [done|]. exists m. split; [done|].
      left. split_and!; [done| |done|done]. right. by exists a0, inf0.
    + injection H as <- <- <- <-. split; [done|]. exists m. split; [done|].
      right. split; [done|]. by exists inf0.
  - destruct (newInflight zeroV st c pick) as [st1 newInf] eqn:Hn.
    injection H as <- <- <- <-. split; [done|]. exists m. split; [done|].
    left. split_and!; [done| |done|done]. by left.
Qed.

Lemma newInflight_shards (st : state V) c pick :
  shards (newInflight zeroV st c pick).1 = shards st.
Proof. by destruct (newInflight_eq st c pick) as (a & pool' & na & _ & ->). Qed.

Lemma newInflight_heap (st : state V) c pick :
  heap (newInflight zeroV st c pick).1 =
    <[(newInflight zeroV st c pick).2 := fresh_record st c]> (heap st).
Proof. by destruct (newInflight_eq st c pick) as (a & pool' & na & _ & ->). Qed.

Lemma acquire_wf (st st' : state V) c key pick r :
  wf st → acquireInflight zeroV hashKey st c key pick = Some (st', r) →
  wf st'.
Proof.
  intros Hwf H. destruct r as [[a leader] i].
  apply acquire_cases in H as (_ & m & Hm & [(_ & _ & Ha & ->)|(_ & inf & Hk & Hinf & _ & ->)]).
  - apply wf_set_shard_insert.
    + by apply newInflight_wf.
    + by rewrite newInflight_shards.
    + intros i' m' k'. rewrite newInflight_shards, Ha.
      by apply newInflight_not_mapped.
    + exists (fresh_record st c). by rewrite newInflight_heap, Ha, lookup_insert_eq.
  - destruct (wf_map _ Hwf _ _ _ _ Hm Hk) as (inf' & Hinf' & Hr & Hp).
    assert (inf' = inf) as -> by congruence.
    eapply (wf_update st _ a inf (set_refs inf (refs inf + 1))); try done; simpl.
    + rewrite Hp. done.
    + intros i' m' k' b Hm' Hk'. split; [lia|eauto].
Qed.

(** [acquireInflight] leaves the metrics and the completions alone, and
    the number of shards. *)
Lemma acquire_frame (st st' : state V) c key pick r :
  acquireInflight zeroV hashKey st c key pick = Some (st', r) →
  metrics st' = metrics st ∧ completions st' = completions st ∧
  length (shards st') = length (shards st).
Proof.
  intros Hacq. destruct r as [[a leader] i].
  apply acquire_cases in Hacq
    as (_ & m & Hm & [(-> & _ & -> & ->)|(-> & inf & Hk & Ha & _ & ->)]).
  - destruct (newInflight_eq st c pick) as (a' & pool' & na & Hget & ->).
    simpl. by rewrite length_insert.
  - done.
Qed.

(** What [finishInflight] does when it does not panic. *)
Lemma finish_cases (st st' : state V) a shard v e :
  finishInflight st a shard v e = Some st' →
  ∃ inf, heap st !! a = Some inf ∧ (doneCh inf ∉ closed st) ∧
    st' = record_metric
            (if bool_decide (refs inf ≤ 0) && negb (pooled inf)
             then pool_Put (store_result st a inf v e) a (set_result inf v e)
             else store_result st a inf v e)
            (RecordLoadConcurrency (ctx inf) (refs inf)).
Proof.
  unfold finishInflight. intros H.
  destruct (heap st !! a) as [inf|] eqn:Ha; [|done]. simpl in H.
  case_bool_decide as Hc; [done|]. injection H as <-.
  by exists inf.
Qed.

Lemma store_result_wf (st : state V) a inf v e :
  wf st → heap st !! a = Some inf → doneCh inf ∉ closed st →
  wf (store_result st a inf v e).
Proof.
  intros Hwf Ha Hc.
  assert (Hnd : done inf = false).
  { destruct (done inf) eqn:Hd; [|done]. by apply (wf_done_closed _ Hwf _ _ Ha) in Hd. }
  assert (Hnp : pooled inf = false).
  { destruct (pooled inf) eqn:Hp; [|done].
    apply (wf_pooled _ Hwf _ _ Ha) in Hp as [? _]. congruence. }
  assert (Hother : ∀ b ib, b ≠ a → heap st !! b = Some ib → doneCh ib ≠ doneCh inf).
  { intros b ib Hne Hb Heq. destruct Hne. by eapply (wf_chan_inj _ Hwf). }
  split; simpl.
  - intros b ib [[<- <-]|[Hne Hb]]%lookup_insert_Some; simpl.
    + apply (wf_heap_bound _ Hwf _ _ Ha).
    + apply (wf_heap_bound _ Hwf _ _ Hb).
  - intros ch [->%elem_of_singleton|Hch]%elem_of_union.
    + apply (wf_heap_bound _ Hwf _ _ Ha).
    + by apply (wf_closed_bound _ Hwf).
  - intros b ib [[<- <-]|[Hne Hb]]%lookup_insert_Some; simpl.
    + split; [intros _; apply elem_of_union_l; by apply elem_of_singleton|done].
    + rewrite (wf_done_closed _ Hwf _ _ Hb).
      pose proof (Hother _ _ (not_eq_sym Hne) Hb) as Hneq.
      rewrite elem_of_union, elem_of_singleton.
      split; [by right|by intros [?|?]].
  - intros b1 b2 i1 i2 [[<- <-]|[Hne1 Hb1]]%lookup_insert_Some
                       [[<- <-]|[Hne2 Hb2]]%lookup_insert_Some; simpl; try done.
    + by apply (wf_chan_inj _ Hwf _ _ _ _ Ha Hb2).
    + by apply (wf_chan_inj _ Hwf _ _ _ _ Hb1 Ha).
    + by apply (wf_chan_inj _ Hwf _ _ _ _ Hb1 Hb2).
  - intros i m k b Hm Hk.
    destruct (wf_map _ Hwf _ _ _ _ Hm Hk) as (ib & Hb & Hr & Hp).
    destruct (decide (b = a)) as [->|Hne].
    + exists (set_result inf v e). rewrite lookup_insert_eq.
      assert (ib = inf) as -> by congruence. done.
    + exists ib. by rewrite lookup_insert_ne.
  - apply Hwf.
  - intros b ib [[<- <-]|[Hne Hb]]%lookup_insert_Some; simpl; [congruence|].
    exact (wf_pooled _ Hwf _ _ Hb).
  - intros b Hb. destruct (wf_pool _ Hwf _ Hb) as (ib & Hib & Hp).
    exists ib. rewrite lookup_insert_ne; [done|]. intros <-. congruence.
  - apply Hwf.
  - intros b ch Hb. destruct (wf_puts _ Hwf _ _ Hb) as [Hlt Hp]. split; [done|].
    intros b' ib [[<- <-]|[Hne Hb']]%lookup_insert_Some; simpl.
    + intros Heq. by apply (Hp _ _ Ha).
    + by apply (Hp b').
  - apply Hwf.
  - intros b ib [[<- <-]|[Hne Hb]]%lookup_insert_Some; simpl.
    + intros _. by rewrite lookup_insert_eq.
    + intros Hd. rewrite lookup_insert_ne.
      * exact (wf_completions _ Hwf _ _ Hb Hd).
      * apply not_eq_sym. by apply (Hother b).
  - intros ch [x [[<- <-]|[Hne Hx]]%lookup_insert_Some].
    + apply elem_of_union_l. by apply elem_of_singleton.
    + apply elem_of_union_r. apply (wf_completions_closed _ Hwf); eauto.
Qed.

Lemma finish_wf (st st' : state V) a shard v e :
  wf st → finishInflight st a shard v e = Some st' → wf st'.
Proof.
  intros Hwf (inf & Ha & Hc & ->)%finish_cases.
  pose proof (store_result_wf st a inf v e Hwf Ha Hc) as Hwf1.
  eapply (wf_ext (if bool_decide (refs inf ≤ 0) && negb (pooled inf)
                  then pool_Put (store_result st a inf v e) a (set_result inf v e)
                  else store_result st a inf v e)); try done.
  destruct (bool_decide (refs inf ≤ 0) && negb (pooled inf)) eqn:Hcond; [|done].
  apply andb_true_iff in Hcond as [Hr%bool_decide_eq_true Hp%negb_true_iff].
  apply wf_pool_Put; try done. simpl. by rewrite lookup_insert_eq.
Qed.

Lemma release_cases (st st' : state V) key a shard :
  releaseInflight st key a shard = Some st' →
  ∃ inf m, heap st !! a = Some inf ∧ shards st !! shard = Some m ∧
    let inf1 := set_refs inf (refs inf - 1) in
    st' = if bool_decide (refs inf - 1 ≤ 0)
          then (if done inf && negb (pooled inf)
                then pool_Put (released st key a shard inf m) a inf1
                else released st key a shard inf m)
          else set_heap st a inf1.
Proof.
  unfold releaseInflight. intros H.
  destruct (heap st !! a) as [inf|] eqn:Ha; [|done]. simpl in H.
  destruct (shards st !! shard) as [m|] eqn:Hm; [|done]. simpl in H.
  exists inf, m. split_and!; [done|done|]. simpl.
  case_bool_decide; by injection H as <-.
Qed.

Lemma released_wf (st : state V) key a shard inf m :
  wf st → heap st !! a = Some inf → shards st !! shard = Some m →
  (∀ i m' k, shards st !! i = Some m' → m' !! k = Some a → i = shard ∧ k = key) →
  refs inf - 1 ≤ 0 →
  wf (released st key a shard inf m).
Proof.
  intros Hwf Ha Hm Huniq Hr.
  eapply (wf_update st _ a inf (set_refs inf (refs inf - 1))); try done.
  - unfold released. simpl.
    intros i m' k b Hm' Hk. case_bool_decide as Hcur; simpl in Hm'.
    + apply list_lookup_insert_Some in Hm' as [(-> & <- & _)|[Hne Hm']].
      * apply lookup_delete_Some in Hk as [Hne Hk]. split; [|eauto].
        intros ->. destruct (Huniq _ _ _ Hm Hk) as [_ ->]. done.
      * split; [|eauto]. intros ->. destruct (Huniq _ _ _ Hm' Hk) as [-> _]. done.
    + split; [|eauto]. intros ->.
      destruct (Huniq _ _ _ Hm' Hk) as [-> ->].
      assert (m' = m) as -> by congruence. done.
  - unfold released. simpl. by case_bool_decide.
  - unfold released. simpl. by case_bool_decide.
  - unfold released. simpl. by case_bool_decide.
  - unfold released. simpl. by case_bool_decide.
  - unfold released. simpl. by case_bool_decide.
  - unfold released. simpl. by case_bool_decide.
  - unfold released. simpl. by case_bool_decide.
Qed.

Lemma released_heap (st : state V) key a shard inf m :
  heap (released st key a shard inf m) =
    <[a := set_refs inf (refs inf - 1)]> (heap st).
Proof. unfold released. simpl. by case_bool_decide. Qed.

Lemma release_wf (st st' : state V) key a shard :
  wf st →
  (∀ i m k, shards st !! i = Some m → m !! k = Some a → i = shard ∧ k = key) →
  releaseInflight st key a shard = Some st' → wf st'.
Proof.
  intros Hwf Huniq (inf & m & Ha & Hm & ->)%release_cases. simpl.
  case_bool_decide as Hr.
  - pose proof (released_wf st key a shard inf m Hwf Ha Hm Huniq Hr) as Hwf'.
    destruct (done inf && negb (pooled inf)) eqn:Hcond; [|done].
    apply andb_true_iff in Hcond as [Hd Hp%negb_true_iff].
    apply wf_pool_Put; try done.
    by rewrite released_heap, lookup_insert_eq.
  - eapply (wf_update st _ a inf (set_refs inf (refs inf - 1))); try done; simpl.
    + intros Hp. apply (wf_pooled _ Hwf _ _ Ha) in Hp. lia.
    + intros i m' k b Hm' Hk. split; [lia|eauto].
Qed.

(** *** The system keeps [inv] *)

Lemma tally_zero {A : Type} (f : A → Z) (l : list A) :
  (∀ i x, l !! i = Some x → f x = 0) → tally f l = 0.
Proof.
  induction l as [|y l IH]; intros Hf; simpl; [done|].
  rewrite (Hf 0%nat y eq_refl), IH; [done|].
  intros i x Hx. by apply (Hf (S i)).
Qed.

Lemma holds_nonneg a (c : caller V) : 0 ≤ holds a c.
Proof. unfold holds. destruct (caller_ref c) as [[[? ?] ?]|]; [case_bool_decide|]; lia. Qed.

Lemma holds_ref a (c : caller V) b key shard :
  caller_ref c = Some (b, key, shard) →
  holds a c = if bool_decide (b = a) then 1 else 0.
Proof. unfold holds. by intros ->. Qed.

Lemma holds_none a (c : caller V) : caller_ref c = None → holds a c = 0.
Proof. unfold holds. by intros ->. Qed.

Lemma to_start_nonneg a (c : caller V) : 0 ≤ to_start a c.
Proof. destruct c as [| ? ? ? ? ? []| | | | |]; simpl; try case_bool_decide; lia. Qed.

Lemma runs_nonneg a (t : task) : 0 ≤ runs a t.
Proof. destruct t; simpl; try case_bool_decide; lia. Qed.

(** A caller that is about to start the fetch holds the record. *)
Lemma to_start_le_holds a (c : caller V) : to_start a c ≤ holds a c.
Proof.
  destruct c as [| ? ? ? ? ? []| | | | |]; simpl; unfold holds; simpl;
    try case_bool_decide; lia.
Qed.

Lemma caller_ok_mono (st st' : state V) (c : caller V) :
  caller_ok st c →
  (∀ a key shard inf, caller_ref c = Some (a, key, shard) →
     heap st !! a = Some inf →
     ∃ inf', heap st' !! a = Some inf' ∧ doneCh inf' = doneCh inf) →
  length (shards st') = length (shards st) →
  (∀ ch, ch ∈ closed st → ch ∈ closed st') →
  (∀ ch x, completions st !! ch = Some x → completions st' !! ch = Some x) →
  caller_ok st' c.
Proof.
  intros Hok Hheap Hlen Hclosed Hcompl.
  destruct c as [c key|c key a leader shard sp|c key a leader shard ch
                |c key a leader shard ch|key a leader shard v e ch
                |key a leader shard e|v leader e [ch|]]; simpl in *; rewrite ?Hlen.
  - done.
  - destruct Hok as ([inf Ha] & ? & ?). split_and!; [|done|done].
    destruct (Hheap _ _ _ _ eq_refl Ha) as (inf' & -> & _). eauto.
  - destruct Hok as ((inf & Ha & Hch) & ?). split; [|done].
    destruct (Hheap _ _ _ _ eq_refl Ha) as (inf' & ? & ?). exists inf'.
    split; [done|congruence].
  - destruct Hok as ((inf & Ha & Hch) & ? & ?). split_and!; [|done|eauto].
    destruct (Hheap _ _ _ _ eq_refl Ha) as (inf' & ? & ?). exists inf'.
    split; [done|congruence].
  - destruct Hok as ((inf & Ha & Hch) & ? & ?). split_and!; [|done|eauto].
    destruct (Hheap _ _ _ _ eq_refl Ha) as (inf' & ? & ?). exists inf'.
    split; [done|congruence].
  - destruct Hok as ([inf Ha] & ?). split; [|done].
    destruct (Hheap _ _ _ _ eq_refl Ha) as (inf' & -> & _). eauto.
  - destruct Hok as (v0 & e0 & ? & ?). exists v0, e0. eauto.
  - done.
Qed.

Lemma caller_ok_ref (st : state V) (c : caller V) a key shard :
  caller_ok st c → caller_ref c = Some (a, key, shard) →
  is_Some (heap st !! a) ∧ (shard < length (shards st))%nat.
Proof.
  destruct c as [| | | | | |? ? ? []]; simpl; intros Hok [= <- <- <-];
    try done.
  - by destruct Hok as (? & ? & ?).
  - destruct Hok as ((x & ? & ?) & ?). eauto.
  - destruct Hok as ((x & ? & ?) & ? & ?). eauto.
  - destruct Hok as ((x & ? & ?) & ? & ?). eauto.
Qed.

Lemma task_ok_mono (st st' : state V) (t : task) :
  task_ok st t →
  (∀ a, is_Some (heap st !! a) → is_Some (heap st' !! a)) →
  task_ok st' t.
Proof. destruct t; simpl; eauto. Qed.

Lemma inv_initial g : 0 < shardCount g → inv (initial g).
Proof.
  intros Hg. split; simpl; try done.
  - apply wf_newSingleflightLoader.
  - destruct (Z.to_nat (shardCount g)) eqn:E; [lia|done].
  - intros c n Hin. by apply elem_of_nil in Hin.
Qed.

Lemma shardCount_pos g : 0 < shardCount g.
Proof. unfold shardCount, minShardCount. lia. Qed.

Lemma insert_lookup_cases {A : Type} (l : list A) (i j : nat) (x y : A) :
  <[i := x]> l !! j = Some y →
  (j = i ∧ y = x) ∨ (j ≠ i ∧ l !! j = Some y).
Proof. intros [(-> & -> & _)|[? ?]]%list_lookup_insert_Some; eauto. Qed.

(** A caller moves on without touching the loader: it keeps its reference
    and starts nothing. *)
Lemma inv_caller_move (s : system V) tid c c' :
  inv s → callers s !! tid = Some c →
  caller_ref c' = caller_ref c → (∀ a, to_start a c' = to_start a c) →
  caller_ok (ldr s) c' →
  inv (set_caller s (ldr s) tid c').
Proof.
  intros Hinv Hc Href Hstart Hok.
  assert (Hholds : ∀ a, holds a c' = holds a c).
  { intros a. unfold holds. by rewrite Href. }
  split; simpl.
  - apply Hinv.
  - apply Hinv.
  - intros a inf Ha. unfold holders.
    rewrite (tally_insert _ _ _ _ _ Hc), Hholds.
    rewrite (inv_refs _ Hinv _ _ Ha). unfold holders. lia.
  - intros a inf Ha. unfold pending. simpl.
    rewrite (tally_insert _ _ _ _ _ Hc), Hstart.
    rewrite <- (inv_pending _ Hinv _ _ Ha). unfold pending. lia.
  - intros i m k a tid' c'' key shard Hm Hk [[-> ->]|[Hne Hc'']]%insert_lookup_cases Hr.
    + rewrite Href in Hr. by eapply (inv_holder _ Hinv).
    + by eapply (inv_holder _ Hinv).
  - intros tid' c'' [[-> ->]|[Hne Hc'']]%insert_lookup_cases; [done|].
    by eapply (inv_callers _ Hinv).
  - apply Hinv.
  - apply Hinv.
  - apply Hinv.
Qed.

(** Changes of the loader state that [inv] does not read. *)
Lemma inv_ldr_ext (s : system V) (st' : state V) :
  inv s →
  shards st' = shards (ldr s) → heap st' = heap (ldr s) →
  next_addr st' = next_addr (ldr s) →
  inflightPool st' = inflightPool (ldr s) → closed st' = closed (ldr s) →
  next_chan st' = next_chan (ldr s) → puts st' = puts (ldr s) →
  completions st' = completions (ldr s) → metrics st' = metrics (ldr s) →
  inv (mkSystem st' (callers s) (tasks s)).
Proof.
  intros Hinv E1 E2 E3 E4 E5 E6 E7 E8 E9.
  split; simpl; rewrite ?E1, ?E2, ?E9.
  - by eapply wf_ext; [apply Hinv|..].
  - apply Hinv.
  - apply Hinv.
  - apply Hinv.
  - apply Hinv.
  - intros tid c Hc. eapply caller_ok_mono; [by eapply (inv_callers _ Hinv)|..].
    + intros a key shard inf _ Ha. exists inf. by rewrite E2.
    + by rewrite E1.
    + by rewrite E5.
    + by rewrite E8.
  - intros k t Ht. eapply task_ok_mono; [by eapply (inv_tasks _ Hinv)|].
    by rewrite E2.
  - apply Hinv.
  - apply Hinv.
Qed.

Lemma inv_call (s : system V) c key :
  inv s → inv (mkSystem (ldr s) (callers s ++ [Calling c key]) (tasks s)).
Proof.
  intros Hinv. split; simpl.
  - apply Hinv.
  - apply Hinv.
  - intros a inf Ha. unfold holders. rewrite tally_app. simpl.
    rewrite (inv_refs _ Hinv _ _ Ha). unfold holders, holds. simpl. lia.
  - intros a inf Ha. unfold pending. simpl. rewrite tally_app. simpl.
    rewrite <- (inv_pending _ Hinv _ _ Ha). unfold pending. lia.
  - intros i m k a tid c' key' shard Hm Hk Hc Hr.
    apply lookup_app_Some in Hc as [Hc|[_ Hc]].
    + by eapply (inv_holder _ Hinv).
    + apply list_lookup_singleton_Some in Hc as [_ <-]. done.
  - intros tid c' Hc.
    apply lookup_app_Some in Hc as [Hc|[_ Hc]].
    + by eapply (inv_callers _ Hinv).
    + apply list_lookup_singleton_Some in Hc as [_ <-]. done.
  - apply Hinv.
  - apply Hinv.
  - apply Hinv.
Qed.

Lemma inv_spawn (s : system V) tid c key a leader shard :
  inv s → callers s !! tid = Some (Acquired c key a leader shard true) →
  inv (mkSystem (ldr s)
         (<[tid := Acquired c key a leader shard false]> (callers s))
         (tasks s ++ [Spawned c a shard])).
Proof.
  intros Hinv Hc.
  pose proof (inv_callers _ Hinv _ _ Hc) as (Ha & Hshard & Hleader).
  split; simpl.
  - apply Hinv.
  - apply Hinv.
  - intros b inf Hb. unfold holders.
    rewrite (tally_insert _ _ _ _ _ Hc).
    rewrite (inv_refs _ Hinv _ _ Hb). unfold holders, holds. simpl. lia.
  - intros b inf Hb. unfold pending. simpl.
    rewrite (tally_insert _ _ _ _ _ Hc), tally_app. simpl.
    rewrite <- (inv_pending _ Hinv _ _ Hb). unfold pending. lia.
  - intros i m k b tid' c' key' shard' Hm Hk [[-> ->]|[Hne Hc']]%insert_lookup_cases Hr.
    + by eapply (inv_holder _ Hinv).
    + by eapply (inv_holder _ Hinv).
  - intros tid' c' [[-> ->]|[Hne Hc']]%insert_lookup_cases.
    + simpl. done.
    + by eapply (inv_callers _ Hinv).
  - intros k t Ht. apply lookup_app_Some in Ht as [Ht|[_ Ht]].
    + by eapply (inv_tasks _ Hinv).
    + apply list_lookup_singleton_Some in Ht as [_ <-]. done.
  - rewrite tally_app. simpl. rewrite (inv_metrics _ Hinv). lia.
  - apply Hinv.
Qed.

Lemma inv_record_load (s : system V) k c a shard :
  inv s → tasks s !! k = Some (Spawned c a shard) →
  inv (set_task s (record_metric (ldr s) (RecordLoad c)) k (Fetching a shard)).
Proof.
  intros Hinv Ht.
  split; simpl.
  - by eapply wf_ext; [apply Hinv|..].
  - apply Hinv.
  - apply Hinv.
  - intros b inf Hb. unfold pending. simpl.
    rewrite (tally_insert _ _ _ _ _ Ht).
    rewrite <- (inv_pending _ Hinv _ _ Hb). unfold pending. simpl. lia.
  - apply Hinv.
  - intros tid c' Hc. eapply caller_ok_mono; [by eapply (inv_callers _ Hinv)|..]; eauto.
  - intros k' t [[-> ->]|[Hne Ht']]%insert_lookup_cases.
    + apply (inv_tasks _ Hinv _ _ Ht).
    + apply (inv_tasks _ Hinv _ _ Ht').
  - rewrite tally_app, (tally_insert _ _ _ _ _ Ht). simpl.
    rewrite (inv_metrics _ Hinv). lia.
  - intros c' n [Hin|Hin]%elem_of_app.
    + by eapply (inv_metrics_nonneg _ Hinv).
    + by apply list_elem_of_singleton in Hin.
Qed.

(** What [releaseInflight] changes, in the terms [inv] is stated in. *)
Lemma release_effect (st st' : state V) key a shard :
  releaseInflight st key a shard = Some st' →
  ∃ inf inf', heap st !! a = Some inf ∧
    heap st' = <[a := inf']> (heap st) ∧
    refs inf' = refs inf - 1 ∧ doneCh inf' = doneCh inf ∧
    done inf' = done inf ∧ val inf' = val inf ∧ err inf' = err inf ∧
    length (shards st') = length (shards st) ∧
    (∀ i m k b, shards st' !! i = Some m → m !! k = Some b →
       ∃ m0, shards st !! i = Some m0 ∧ m0 !! k = Some b) ∧
    closed st' = closed st ∧ completions st' = completions st ∧
    metrics st' = metrics st.
Proof.
  intros (inf & m & Ha & Hm & ->)%release_cases. simpl.
  assert (Hsh : ∀ i m' k b,
    shards (released st key a shard inf m) !! i = Some m' → m' !! k = Some b →
    ∃ m0, shards st !! i = Some m0 ∧ m0 !! k = Some b).
  { unfold released. simpl. intros i m' k b Hm' Hk.
    case_bool_decide; simpl in Hm'; [|eauto].
    apply list_lookup_insert_Some in Hm' as [(-> & <- & _)|[Hne Hm']]; [|eauto].
    apply lookup_delete_Some in Hk as [_ Hk]. eauto. }
  assert (Hlen : length (shards (released st key a shard inf m)) = length (shards st)).
  { unfold released. simpl. case_bool_decide; simpl; [|done]. by rewrite length_insert. }
  assert (Hrest : closed (released st key a shard inf m) = closed st
                  ∧ completions (released st key a shard inf m) = completions st
                  ∧ metrics (released st key a shard inf m) = metrics st).
  { unfold released. simpl. by case_bool_decide. }
  destruct Hrest as (Hc & Hco & Hme).
  pose proof (released_heap st key a shard inf m) as Hheap.
  exists inf. case_bool_decide as Hr.
  - revert Hsh Hlen Hc Hco Hme Hheap.
    generalize (released st key a shard inf m).
    intros st2 Hsh Hlen Hc Hco Hme Hheap.
    destruct (done inf && negb (pooled inf)).
    + exists (set_pooled (set_refs inf (refs inf - 1)) true). simpl.
      rewrite Hheap, insert_insert_eq. by split_and!.
    + exists (set_refs inf (refs inf - 1)). rewrite Hheap.
      by split_and!.
  - exists (set_refs inf (refs inf - 1)). simpl. split_and!; try done. eauto.
Qed.

(** What [finishInflight] changes. *)
Lemma finish_effect (st st' : state V) a shard v e :
  finishInflight st a shard v e = Some st' →
  ∃ inf inf', heap st !! a = Some inf ∧ (doneCh inf ∉ closed st) ∧
    heap st' = <[a := inf']> (heap st) ∧
    refs inf' = refs inf ∧ doneCh inf' = doneCh inf ∧
    done inf' = true ∧ val inf' = v ∧ err inf' = e ∧
    shards st' = shards st ∧
    closed st' = {[doneCh inf]} ∪ closed st ∧
    completions st' = <[doneCh inf := (v, e)]> (completions st) ∧
    metrics st' = metrics st ++ [RecordLoadConcurrency (ctx inf) (refs inf)].
Proof.
  intros (inf & Ha & Hc & ->)%finish_cases. exists inf.
  destruct (bool_decide (refs inf ≤ 0) && negb (pooled inf)).
  - exists (set_pooled (set_result inf v e) true). simpl.
    rewrite insert_insert_eq. by split_and!.
  - exists (set_result inf v e). simpl. by split_and!.
Qed.

(** The record [newInflight] is about to hand out is referenced by no
    goroutine: it is new, or it lies in the pool. *)
Lemma pool_Get_free (s : system V) pick a pool' na :
  inv s → pool_Get (ldr s) pick = (a, pool', na) →
  (∀ tid c, callers s !! tid = Some c → holds a c = 0 ∧ to_start a c = 0)
  ∧ (∀ k t, tasks s !! k = Some t → runs a t = 0).
Proof.
  intros Hinv Hget.
  destruct (pool_Get_spec _ _ _ _ _ (inv_wf _ Hinv) Hget)
    as ([Hnone|(inf & Ha & Hp)] & _).
  - split.
    + intros tid c Hc. pose proof (inv_callers _ Hinv _ _ Hc) as Hok.
      assert (holds a c = 0) as Hz.
      { unfold holds. destruct (caller_ref c) as [[[b key] shard]|] eqn:Href; [|done].
        case_bool_decide as Heq; [|done]. subst b.
        destruct (caller_ok_ref _ _ _ _ _ Hok Href) as [[? ?] _]. congruence. }
      split; [done|].
      pose proof (to_start_le_holds a c). pose proof (to_start_nonneg a c). lia.
    + intros k t Ht. pose proof (inv_tasks _ Hinv _ _ Ht) as Hok.
      destruct t; simpl in *; try done; case_bool_decide; try done; subst;
        destruct Hok; congruence.
  - destruct (wf_pooled _ (inv_wf _ Hinv) _ _ Ha Hp) as [Hd Hr].
    pose proof (inv_refs _ Hinv _ _ Ha) as Hrefs.
    pose proof (inv_pending _ Hinv _ _ Ha) as Hpend. rewrite Hd in Hpend.
    unfold pending in Hpend.
    pose proof (tally_nonneg (to_start a) (callers s) (to_start_nonneg a)).
    pose proof (tally_nonneg (runs a) (tasks s) (runs_nonneg a)).
    split.
    + intros tid c Hc.
      pose proof (tally_lookup_le (holds a) _ _ _ (holds_nonneg a) Hc) as Hle.
      fold (holders a (callers s)) in Hle.
      pose proof (holds_nonneg a c). pose proof (to_start_le_holds a c).
      pose proof (to_start_nonneg a c). lia.
    + intros k t Ht.
      pose proof (tally_lookup_le (runs a) _ _ _ (runs_nonneg a) Ht).
      pose proof (runs_nonneg a t). lia.
Qed.

Lemma holders_insert a (cs : list (caller V)) tid c c' :
  cs !! tid = Some c →
  holders a (<[tid := c']> cs) = holders a cs - holds a c + holds a c'.
Proof. apply tally_insert. Qed.

Lemma pending_set_caller a (s : system V) st tid c c' :
  callers s !! tid = Some c →
  pending a (set_caller s st tid c') = pending a s - to_start a c + to_start a c'.
Proof.
  intros Hc. unfold pending. simpl. rewrite (tally_insert _ _ _ _ _ Hc). lia.
Qed.

Lemma pending_set_task a (s : system V) st k t t' :
  tasks s !! k = Some t →
  pending a (set_task s st k t') = pending a s - runs a t + runs a t'.
Proof.
  intros Ht. unfold pending. simpl. rewrite (tally_insert _ _ _ _ _ Ht). lia.
Qed.

Lemma holders_zero a (cs : list (caller V)) :
  (∀ tid c, cs !! tid = Some c → holds a c = 0) → holders a cs = 0.
Proof. apply tally_zero. Qed.

Lemma pending_zero a (s : system V) :
  (∀ tid c, callers s !! tid = Some c → to_start a c = 0) →
  (∀ k t, tasks s !! k = Some t → runs a t = 0) →
  pending a s = 0.
Proof.
  intros Hc Ht. unfold pending. rewrite !tally_zero; [done| |]; done.
Qed.

Lemma inv_acquire_follower (s : system V) tid c key a inf i m :
  inv s → callers s !! tid = Some (Calling c key) →
  shards (ldr s) !! i = Some m → m !! key = Some a →
  heap (ldr s) !! a = Some inf →
  wf (set_heap (ldr s) a (set_refs inf (refs inf + 1))) →
  inv (set_caller s (set_heap (ldr s) a (set_refs inf (refs inf + 1))) tid
         (Acquired c key a false i false)).
Proof.
  intros Hinv Hc Hm Hk Ha Hwf'.
  split; simpl.
  - done.
  - apply Hinv.
  - intros b ib [[<- <-]|[Hne Hb]]%lookup_insert_Some;
      rewrite (holders_insert _ _ _ _ _ Hc); unfold holds; simpl.
    + rewrite bool_decide_true by done.
      rewrite (inv_refs _ Hinv _ _ Ha). lia.
    + rewrite bool_decide_false by done.
      rewrite (inv_refs _ Hinv _ _ Hb). lia.
  - intros b ib Hb.
    rewrite (pending_set_caller _ s _ _ _ _ Hc). simpl.
    apply lookup_insert_Some in Hb as [[<- <-]|[Hne Hb]]; simpl.
    + rewrite <- (inv_pending _ Hinv _ _ Ha). lia.
    + rewrite <- (inv_pending _ Hinv _ _ Hb). lia.
  - intros i' m' k b tid' c' key' shard' Hm' Hk'
      [[-> ->]|[Hne Hc']]%insert_lookup_cases Hr.
    + injection Hr as <- <- <-.
      by apply (wf_map_unique _ (inv_wf _ Hinv) _ _ _ _ _ _ _ Hm' Hk' Hm Hk).
    + by eapply (inv_holder _ Hinv).
  - intros tid' c' [[-> ->]|[Hne Hc']]%insert_lookup_cases.
    + simpl. rewrite lookup_insert_eq. split_and!; [eauto| |done].
      by eapply lookup_lt_Some.
    + eapply caller_ok_mono; [by eapply (inv_callers _ Hinv)|..]; simpl; try done.
      intros b key' shard' ib _ Hb. destruct (decide (b = a)) as [->|Hne'].
      * rewrite lookup_insert_eq. exists (set_refs inf (refs inf + 1)).
        split; [done|]. simpl. congruence.
      * rewrite lookup_insert_ne by done. eauto.
  - intros k t Ht. eapply task_ok_mono; [by eapply (inv_tasks _ Hinv)|].
    simpl. intros b. rewrite lookup_insert_is_Some. destruct (decide (a = b)); eauto.
  - apply Hinv.
  - apply Hinv.
Qed.

Lemma inv_acquire_leader (s : system V) tid c key pick i m :
  inv s → callers s !! tid = Some (Calling c key) →
  shards (ldr s) !! i = Some m →
  let st1 := (newInflight zeroV (ldr s) c pick).1 in
  let a := (newInflight zeroV (ldr s) c pick).2 in
  wf (set_shard st1 i (<[key := a]> m)) →
  inv (set_caller s (set_shard st1 i (<[key := a]> m)) tid
         (Acquired c key a true i true)).
Proof.
  intros Hinv Hc Hm st1 a Hwf'.
  destruct (newInflight_eq (ldr s) c pick) as (a' & pool' & na & Hget & Heq).
  assert (a = a') as Haa by (unfold a; by rewrite Heq).
  assert (Hheap : heap st1 = <[a := fresh_record (ldr s) c]> (heap (ldr s))).
  { unfold st1, a. apply newInflight_heap. }
  assert (Hshards : shards st1 = shards (ldr s)).
  { unfold st1. apply newInflight_shards. }
  assert (Hrest : closed st1 = closed (ldr s) ∧ completions st1 = completions (ldr s)
                  ∧ metrics st1 = metrics (ldr s)).
  { unfold st1. by rewrite Heq. }
  destruct Hrest as (Hclosed & Hcompl & Hmetrics).
  destruct (pool_Get_free s pick a' pool' na Hinv Hget) as [Hfree_c Hfree_t].
  rewrite <- Haa in Hfree_c, Hfree_t.
  assert (Hentry : ∀ i' m' k' b,
    <[i := <[key := a]> m]> (shards (ldr s)) !! i' = Some m' → m' !! k' = Some b →
    (i' = i ∧ k' = key ∧ b = a) ∨
    (b ≠ a ∧ ∃ m'', shards (ldr s) !! i' = Some m'' ∧ m'' !! k' = Some b)).
  { assert (Hfresh : ∀ i' m' k', shards (ldr s) !! i' = Some m' → m' !! k' ≠ Some a).
    { intros i' m' k' Hm'. unfold a.
      exact (newInflight_not_mapped _ c pick _ _ k' (inv_wf _ Hinv) Hm'). }
    intros i' m' k' b [(-> & <- & _)|[Hne Hm']]%list_lookup_insert_Some Hk.
    - apply lookup_insert_Some in Hk as [[<- <-]|[Hne Hk]]; [by left|].
      right. split; [|eauto]. intros ->. by eapply Hfresh.
    - right. split; [|eauto]. intros ->. by eapply Hfresh. }
  clearbody st1 a.
  split; simpl; rewrite ?Hheap, ?Hshards, ?Hclosed, ?Hcompl, ?Hmetrics.
  - done.
  - intros Hnil. apply (f_equal length) in Hnil. rewrite length_insert in Hnil.
    simpl in Hnil. apply (inv_shards _ Hinv). by apply nil_length_inv.
  - intros b ib Hb. rewrite (holders_insert _ _ _ _ _ Hc).
    unfold holds. simpl.
    apply lookup_insert_Some in Hb as [[<- <-]|[Hne Hb]]; simpl.
    + rewrite bool_decide_true by done.
      rewrite (holders_zero a); [lia|]. intros j x Hx. by destruct (Hfree_c _ _ Hx).
    + rewrite bool_decide_false by done.
      rewrite (inv_refs _ Hinv _ _ Hb). lia.
  - intros b ib Hb.
    rewrite (pending_set_caller _ s _ _ _ _ Hc). simpl.
    apply lookup_insert_Some in Hb as [[<- <-]|[Hne Hb]]; simpl.
    + rewrite bool_decide_true by done.
      rewrite (pending_zero a); [lia| |].
      * intros j x Hx. by destruct (Hfree_c _ _ Hx).
      * intros j x Hx. by apply Hfree_t in Hx.
    + rewrite bool_decide_false by done.
      rewrite <- (inv_pending _ Hinv _ _ Hb). lia.
  - intros i' m' k b tid' c' key' shard' Hm' Hk'
      [[-> ->]|[Hne Hc']]%insert_lookup_cases Hr.
    + injection Hr as <- <- <-.
      destruct (Hentry _ _ _ _ Hm' Hk') as [(-> & -> & _)|(Hneq & _)]; done.
    + destruct (Hentry _ _ _ _ Hm' Hk') as [(-> & -> & ->)|(Hneq & m'' & Hm'' & Hk'')].
      * destruct (Hfree_c _ _ Hc') as [Hz _].
        rewrite (holds_ref _ _ _ _ _ Hr), bool_decide_true in Hz by done. done.
      * by eapply (inv_holder _ Hinv).
  - intros tid' c' [[-> ->]|[Hne Hc']]%insert_lookup_cases.
    + simpl. rewrite Hheap, lookup_insert_eq, Hshards, length_insert.
      split_and!; [eauto| |done]. by eapply lookup_lt_Some.
    + eapply caller_ok_mono; [by eapply (inv_callers _ Hinv)|..]; simpl;
        rewrite ?Hheap, ?Hshards, ?Hclosed, ?Hcompl; try done.
      * intros b key' shard' ib Hr Hb. destruct (Hfree_c _ _ Hc') as [Hz _].
        rewrite (holds_ref _ _ _ _ _ Hr) in Hz. case_bool_decide; [done|].
        rewrite lookup_insert_ne by done. eauto.
      * by rewrite length_insert.
  - intros k t Ht. eapply task_ok_mono; [by eapply (inv_tasks _ Hinv)|].
    simpl. rewrite Hheap. intros b. rewrite lookup_insert_is_Some.
    destruct (decide (a = b)); eauto.
  - apply Hinv.
  - apply Hinv.
Qed.

Lemma inv_acquire (s : system V) tid c key pick st' a leader i :
  inv s → callers s !! tid = Some (Calling c key) →
  acquireInflight zeroV hashKey (ldr s) c key pick = Some (st', (a, leader, i)) →
  inv (set_caller s st' tid (Acquired c key a leader i leader)).
Proof.
  intros Hinv Hc Hacq.
  pose proof (acquire_wf _ _ _ _ _ _ (inv_wf _ Hinv) Hacq) as Hwf'.
  apply acquire_cases in Hacq
    as (_ & m & Hm & [(-> & _ & -> & ->)|(-> & inf & Hk & Ha & _ & ->)]).
  - by apply inv_acquire_leader.
  - by eapply inv_acquire_follower.
Qed.

Lemma inv_release (s : system V) tid c c' key a shard st' :
  inv s → callers s !! tid = Some c →
  caller_ref c = Some (a, key, shard) → (∀ b, to_start b c = 0) →
  caller_ref c' = None → (∀ b, to_start b c' = 0) →
  (∀ st'', completions st'' = completions (ldr s) → caller_ok st'' c') →
  releaseInflight (ldr s) key a shard = Some st' →
  inv (set_caller s st' tid c').
Proof.
  intros Hinv Hc Href Hstart Href' Hstart' Hok' Hrel.
  assert (Huniq : ∀ i m k, shards (ldr s) !! i = Some m → m !! k = Some a →
                           i = shard ∧ k = key).
  { intros i m k Hm Hk. by eapply (inv_holder _ Hinv). }
  pose proof (release_wf _ _ _ _ _ (inv_wf _ Hinv) Huniq Hrel) as Hwf'.
  destruct (release_effect _ _ _ _ _ Hrel)
    as (inf & inf' & Ha & Hheap & Hrefs & Hch & Hdone & Hval & Herr & Hlen
        & Hsh & Hclosed & Hcompl & Hmetrics).
  split; simpl; rewrite ?Hheap, ?Hclosed, ?Hcompl, ?Hmetrics.
  - done.
  - intros Hnil. apply (inv_shards _ Hinv). apply nil_length_inv.
    by rewrite <- Hlen, Hnil.
  - intros b ib Hb. rewrite (holders_insert _ _ _ _ _ Hc).
    rewrite (holds_none _ c' Href'), (holds_ref _ _ _ _ _ Href).
    apply lookup_insert_Some in Hb as [[<- <-]|[Hne Hb]].
    + rewrite bool_decide_true by done.
      rewrite Hrefs, (inv_refs _ Hinv _ _ Ha). lia.
    + rewrite bool_decide_false by done.
      rewrite (inv_refs _ Hinv _ _ Hb). lia.
  - intros b ib Hb.
    rewrite (pending_set_caller _ s _ _ _ _ Hc), Hstart, Hstart'.
    apply lookup_insert_Some in Hb as [[<- <-]|[Hne Hb]].
    + rewrite Hdone, <- (inv_pending _ Hinv _ _ Ha). lia.
    + rewrite <- (inv_pending _ Hinv _ _ Hb). lia.
  - intros i m k b tid' c'' key' shard' Hm Hk
      [[-> ->]|[Hne Hc'']]%insert_lookup_cases Hr; [congruence|].
    destruct (Hsh _ _ _ _ Hm Hk) as (m0 & Hm0 & Hk0).
    by eapply (inv_holder _ Hinv).
  - intros tid' c'' [[-> ->]|[Hne Hc'']]%insert_lookup_cases.
    + by apply Hok'.
    + eapply caller_ok_mono; [by eapply (inv_callers _ Hinv)|..];
        rewrite ?Hheap, ?Hclosed, ?Hcompl; try done.
      intros b key' shard' ib _ Hb. destruct (decide (b = a)) as [->|Hne'].
      * rewrite lookup_insert_eq. exists inf'. split; [done|]. congruence.
      * rewrite lookup_insert_ne by done. eauto.
  - intros k t Ht. eapply task_ok_mono; [by eapply (inv_tasks _ Hinv)|].
    rewrite Hheap. intros b. rewrite lookup_insert_is_Some.
    destruct (decide (a = b)); eauto.
  - apply Hinv.
  - apply Hinv.
Qed.

Lemma inv_finish (s : system V) k a shard v e st' :
  inv s → tasks s !! k = Some (Fetching a shard) →
  finishInflight (ldr s) a shard v e = Some st' →
  inv (set_task s st' k Exited).
Proof.
  intros Hinv Ht Hfin.
  pose proof (finish_wf _ _ _ _ _ _ (inv_wf _ Hinv) Hfin) as Hwf'.
  destruct (finish_effect _ _ _ _ _ _ Hfin)
    as (inf & inf' & Ha & Hopen & Hheap & Hrefs & Hch & Hdone & Hval & Herr
        & Hshards & Hclosed & Hcompl & Hmetrics).
  assert (Hnd : done inf = false).
  { destruct (done inf) eqn:Hd; [|done].
    by apply (wf_done_closed _ (inv_wf _ Hinv) _ _ Ha) in Hd. }
  split; simpl; rewrite ?Hheap, ?Hshards, ?Hclosed, ?Hcompl, ?Hmetrics.
  - done.
  - apply Hinv.
  - intros b ib [[<- <-]|[Hne Hb]]%lookup_insert_Some.
    + rewrite Hrefs. by apply (inv_refs _ Hinv).
    + by apply (inv_refs _ Hinv).
  - intros b ib Hb. rewrite (pending_set_task _ s _ _ _ _ Ht). simpl.
    apply lookup_insert_Some in Hb as [[<- <-]|[Hne Hb]].
    + rewrite bool_decide_true by done. rewrite Hdone.
      pose proof (inv_pending _ Hinv _ _ Ha) as Hp. rewrite Hnd in Hp. lia.
    + rewrite bool_decide_false by done.
      rewrite <- (inv_pending _ Hinv _ _ Hb). lia.
  - apply Hinv.
  - intros tid c Hc.
    eapply caller_ok_mono; [by eapply (inv_callers _ Hinv)|..];
      rewrite ?Hheap, ?Hshards, ?Hclosed, ?Hcompl; try done.
    + intros b key' shard' ib _ Hb. destruct (decide (b = a)) as [->|Hne'].
      * rewrite lookup_insert_eq. exists inf'. split; [done|]. congruence.
      * rewrite lookup_insert_ne by done. eauto.
    + intros ch Hin. by apply elem_of_union_r.
    + intros ch x Hx. rewrite lookup_insert_ne; [done|]. intros <-.
      apply Hopen. apply (wf_completions_closed _ (inv_wf _ Hinv)). eauto.
  - intros k' t [[-> ->]|[Hne Ht']]%insert_lookup_cases; [done|].
    eapply task_ok_mono; [by eapply (inv_tasks _ Hinv)|].
    rewrite Hheap. intros b. rewrite lookup_insert_is_Some.
    destruct (decide (a = b)); eauto.
  - rewrite tally_app, (tally_insert _ _ _ _ _ Ht). simpl.
    rewrite (inv_metrics _ Hinv). lia.
  - intros c n [Hin|Hin]%elem_of_app.
    + by eapply (inv_metrics_nonneg _ Hinv).
    + apply list_elem_of_singleton in Hin as [= _ ->].
      rewrite (inv_refs _ Hinv _ _ Ha). apply tally_nonneg, holds_nonneg.
Qed.

Lemma step_steps_to (s s' : system V) act :
  step zeroV hashKey s act = Some s' → steps_to zeroV hashKey s act s'.
Proof.
  intros Hstep. destruct act as [c key|tid pick|tid|tid|tid e|tid|tid|tid
                                |k|k v e|n|d]; simpl in Hstep.
  - injection Hstep as <-. constructor.
  - destruct (callers s !! tid) as [[c key| | | | | |]|] eqn:Hc; try done.
    destruct (acquireInflight zeroV hashKey (ldr s) c key pick)
      as [[st [[a leader] i]]|] eqn:Hacq; [|done].
    injection Hstep as <-. by econstructor.
  - destruct (callers s !! tid) as [[|c key a leader shard [|]| | | | |]|] eqn:Hc;
      try done.
    injection Hstep as <-. by constructor.
  - destruct (callers s !! tid) as [[|c key a leader shard [|]| | | | |]|] eqn:Hc;
      try done.
    destruct (heap (ldr s) !! a) as [inf|] eqn:Ha; [|done].
    injection Hstep as <-. by constructor.
  - destruct (callers s !! tid) as [[| |c key a leader shard ch| | | |]|] eqn:Hc;
      try done.
    destruct (Done (the_world (ldr s)) c) eqn:Hd; [|done].
    destruct (is_ctx_err e) eqn:He; [|done].
    injection Hstep as <-. by econstructor.
  - destruct (callers s !! tid) as [[| |c key a leader shard ch| | | |]|] eqn:Hc;
      try done.
    case_bool_decide as Hclosed; [|done].
    injection Hstep as <-. by econstructor.
  - destruct (callers s !! tid) as [[| | |c key a leader shard ch| | |]|] eqn:Hc;
      try done.
    destruct (heap (ldr s) !! a) as [inf|] eqn:Ha; [|done].
    injection Hstep as <-. by econstructor.
  - destruct (callers s !! tid)
      as [[| | | |key a leader shard v e ch|key a leader shard e|]|] eqn:Hc;
      try done.
    + destruct (releaseInflight (ldr s) key a shard) as [st|] eqn:Hrel; [|done].
      simpl in Hstep.
      pose proof (steps_release_loaded zeroV hashKey s _ _ _ _ _ _ _ _ _ Hc Hrel) as H.
      destruct (load_result zeroV v e leader) as [[v' leader'] e'].
      by injection Hstep as <-.
    + destruct (releaseInflight (ldr s) key a shard) as [st|] eqn:Hrel; [|done].
      injection Hstep as <-. by econstructor.
  - destruct (tasks s !! k) as [[c a shard| |]|] eqn:Ht; try done.
    injection Hstep as <-. by constructor.
  - destruct (tasks s !! k) as [[|a shard|]|] eqn:Ht; try done.
    destruct (finishInflight (ldr s) a shard v e) as [st|] eqn:Hfin; [|done].
    injection Hstep as <-. by econstructor.
  - injection Hstep as <-. constructor.
  - case_bool_decide; [|done]. injection Hstep as <-. by constructor.
Qed.

(** Every step keeps the invariant. *)
Lemma inv_step (s s' : system V) act :
  inv s → step zeroV hashKey s act = Some s' → inv s'.
Proof.
  intros Hinv Hstep%step_steps_to.
  destruct Hstep as [c key|tid pick c key st a leader i Hc Hacq
    |tid c key a leader shard Hc|tid c key a leader shard inf Hc Ha
    |tid e c key a leader shard ch Hc Hd He|tid c key a leader shard ch Hc Hcl
    |tid c key a leader shard ch inf Hc Ha
    |tid key a leader shard v e ch st Hc Hrel|tid key a leader shard e st Hc Hrel
    |k c a shard Ht|k v e a shard st Ht Hfin|n|d Hd].
  - by apply inv_call.
  - by eapply inv_acquire.
  - by apply inv_spawn.
  - pose proof (inv_callers _ Hinv _ _ Hc) as (_ & Hshard & _).
    eapply inv_caller_move; [done|done|done|done|]. simpl. eauto.
  - pose proof (inv_callers _ Hinv _ _ Hc) as ((inf & Ha & _) & Hshard).
    eapply inv_caller_move; [done|done|done|done|]. simpl. eauto.
  - pose proof (inv_callers _ Hinv _ _ Hc) as (Hinf & Hshard).
    eapply inv_caller_move; [done|done|done|done|]. simpl. eauto.
  - pose proof (inv_callers _ Hinv _ _ Hc) as ((inf' & Ha' & Hch) & Hshard & Hcl).
    assert (inf' = inf) as -> by congruence.
    eapply inv_caller_move; [done|done|done|done|]. simpl.
    split_and!; [eauto|done|].
    rewrite <- Hch. apply (wf_completions _ (inv_wf _ Hinv) _ _ Ha).
    apply (wf_done_closed _ (inv_wf _ Hinv) _ _ Ha). by rewrite Hch.
  - pose proof (inv_callers _ Hinv _ _ Hc) as (_ & _ & Hcompl).
    eapply inv_release; [done|done|done|done|done|done| |done].
    intros st'' Hst''. simpl. rewrite Hst''. exists v, e. split; [done|].
    by destruct e.
  - eapply inv_release; [done|done|done|done|done|done| |done]. done.
  - by apply inv_record_load.
  - by eapply inv_finish.
  - by apply inv_ldr_ext.
  - by apply inv_ldr_ext.
Qed.

Lemma reachable_inv g (s : system V) :
  reachable zeroV hashKey g s → inv s.
Proof.
  induction 1 as [|s act s' _ IH Hstep].
  - apply inv_initial, shardCount_pos.
  - by eapply inv_step.
Qed.

Lemma reachable_run g acts (s : system V) :
  run zeroV hashKey (initial g) acts = Some s → reachable zeroV hashKey g s.
Proof.
  assert (Hgen : ∀ acts s0 s1, reachable zeroV hashKey g s0 →
            run zeroV hashKey s0 acts = Some s1 → reachable zeroV hashKey g s1).
  { clear. induction acts as [|act acts IH]; intros s0 s1 Hr Hrun; simpl in Hrun.
    - by injection Hrun as <-.
    - destruct (step zeroV hashKey s0 act) as [s'|] eqn:Hstep; [|done].
      simpl in Hrun. eapply IH; [|done]. by eapply reachable_step. }
  apply Hgen. constructor.
Qed.

(** *** The code does not panic *)

Lemma shardFor_lt (st : state V) key :
  shards st ≠ [] → (shardFor hashKey st key < length (shards st))%nat.
Proof.
  intros Hne. unfold shardFor.
  assert (0 < Z.of_nat (length (shards st))).
  { destruct (shards st); [done|simpl; lia]. }
  pose proof (Z.mod_pos_bound (hashKey key) (Z.of_nat (length (shards st)))). lia.
Qed.

Lemma acquire_enabled (s : system V) c key pick :
  inv s → is_Some (acquireInflight zeroV hashKey (ldr s) c key pick).
Proof.
  intros Hinv. unfold acquireInflight.
  destruct (lookup_lt_is_Some_2 _ _ (shardFor_lt (ldr s) key (inv_shards _ Hinv)))
    as [m Hm].
  rewrite Hm. simpl.
  destruct (m !! key) as [a|] eqn:Hk.
  - destruct (wf_map _ (inv_wf _ Hinv) _ _ _ _ Hm Hk) as (inf & -> & _). simpl.
    case_bool_decide; [|eauto].
    destruct (newInflight zeroV (ldr s) c pick). eauto.
  - destruct (newInflight zeroV (ldr s) c pick). eauto.
Qed.

Lemma finish_enabled (s : system V) k a shard v e :
  inv s → tasks s !! k = Some (Fetching a shard) →
  ∃ inf, heap (ldr s) !! a = Some inf ∧ done inf = false ∧
         is_Some (finishInflight (ldr s) a shard v e).
Proof.
  intros Hinv Ht.
  destruct (inv_tasks _ Hinv _ _ Ht) as [inf Ha].
  assert (Hnd : done inf = false).
  { destruct (done inf) eqn:Hd; [|done].
    pose proof (inv_pending _ Hinv _ _ Ha) as Hp. rewrite Hd in Hp.
    unfold pending in Hp.
    pose proof (tally_lookup_le (runs a) _ _ _ (runs_nonneg a) Ht) as Hle.
    simpl in Hle. rewrite bool_decide_true in Hle by done.
    pose proof (tally_nonneg (to_start a) (callers s) (to_start_nonneg a)). lia. }
  exists inf. split_and!; [done|done|].
  unfold finishInflight. rewrite Ha. simpl.
  rewrite bool_decide_false; [eauto|].
  intros Hc. apply (wf_done_closed _ (inv_wf _ Hinv) _ _ Ha) in Hc. congruence.
Qed.

Lemma release_enabled (s : system V) tid c a key shard :
  inv s → callers s !! tid = Some c → caller_ref c = Some (a, key, shard) →
  is_Some (releaseInflight (ldr s) key a shard).
Proof.
  intros Hinv Hc Href.
  destruct (caller_ok_ref _ _ _ _ _ (inv_callers _ Hinv _ _ Hc) Href)
    as [[inf Ha] Hlt].
  destruct (lookup_lt_is_Some_2 _ _ Hlt) as [m Hm].
  unfold releaseInflight. rewrite Ha. simpl. rewrite Hm. simpl.
  case_bool_decide; eauto.
Qed.

(** *** Claims about the loader *)

Lemma newInflight_record (st : state V) c pick :
  wf st →
  let st1 := (newInflight zeroV st c pick).1 in
  let a := (newInflight zeroV st c pick).2 in
  heap st1 !! a = Some (fresh_record st c) ∧ closed st1 = closed st ∧
  (next_chan st ∉ closed st).
Proof.
  intros Hwf st1 a. unfold st1, a.
  rewrite newInflight_heap, lookup_insert_eq.
  destruct (newInflight_eq st c pick) as (a' & pool' & na & _ & ->). simpl.
  split_and!; [done|done|].
  intros Hin%(wf_closed_bound _ Hwf). lia.
Qed.

(** C1: [acquireInflight] on a reachable state.  If the shard map has no
    entry for the key, or an entry whose [done] flag is set, the caller is
    the leader and a record with [refs = 1], not done, not pooled and other
    than the superseded one is installed under the key.  Otherwise the
    caller is a follower of the record the map points to: that record is
    found in the heap afterwards with [refs] one more than before and every
    other field as it was, and no other record, no map and no pool entry
    changes.  In [load], the [go] statement runs for the leader and is not
    reached by a follower. *)
Theorem acquire_leader_or_follower g (s : system V) (c : Context) (key : string)
    (pick : nat) :
  reachable zeroV hashKey g s →
  let st := ldr s in
  let i := shardFor hashKey st key in
  ∃ m, shards st !! i = Some m ∧
    ((m !! key = None
      ∨ (∃ a0 inf0, m !! key = Some a0 ∧ heap st !! a0 = Some inf0
                    ∧ done inf0 = true)) →
     ∃ st' a inf,
       acquireInflight zeroV hashKey st c key pick = Some (st', (a, true, i)) ∧
       shards st' !! i = Some (<[key := a]> m) ∧
       heap st' !! a = Some inf ∧ refs inf = 1 ∧ done inf = false ∧
       pooled inf = false ∧ (doneCh inf ∉ closed st') ∧ m !! key ≠ Some a)
    ∧ (∀ a inf, m !! key = Some a → heap st !! a = Some inf → done inf = false →
       ∃ st' inf',
         acquireInflight zeroV hashKey st c key pick = Some (st', (a, false, i)) ∧
         heap st' !! a = Some inf' ∧ refs inf' = refs inf + 1 ∧
         ctx inf' = ctx inf ∧ cancel inf' = cancel inf ∧
         val inf' = val inf ∧ err inf' = err inf ∧ doneCh inf' = doneCh inf ∧
         done inf' = false ∧ pooled inf' = pooled inf ∧
         (∀ b, b ≠ a → heap st' !! b = heap st !! b) ∧
         heap st' = <[a := set_refs inf (refs inf + 1)]> (heap st) ∧
         shards st' = shards st ∧ next_addr st' = next_addr st ∧
         inflightPool st' = inflightPool st)
    ∧ (∀ a, m !! key = Some a → is_Some (heap st !! a))
    ∧ (∀ tid, callers s !! tid = Some (Calling c key) →
       ∃ s' a leader,
         step zeroV hashKey s (ActAcquire tid pick) = Some s' ∧
         callers s' !! tid = Some (Acquired c key a leader i leader) ∧
         tasks s' = tasks s ∧
         if leader
         then ∃ s'', step zeroV hashKey s' (ActSpawn tid) = Some s'' ∧
                     tasks s'' = tasks s' ++ [Spawned c a i]
         else step zeroV hashKey s' (ActSpawn tid) = None).
Proof.
  intros Hinv%reachable_inv st i.
  assert (st = ldr s) as Est by done.
  assert (i = shardFor hashKey (ldr s) key) as Ei by (by rewrite <- Est).
  clearbody st i.
  pose proof (inv_wf _ Hinv) as Hwf. rewrite <- Est in Hwf.
  destruct (lookup_lt_is_Some_2 _ _ (shardFor_lt (ldr s) key (inv_shards _ Hinv)))
    as [m Hm].
  rewrite <- Ei, <- Est in Hm.
  exists m. split; [done|].
  assert (Hlead :
    m !! key = None ∨ (∃ a0 inf0, m !! key = Some a0 ∧ heap st !! a0 = Some inf0
                                  ∧ doneCh inf0 ∈ closed st) →
    acquireInflight zeroV hashKey st c key pick =
      Some (set_shard (newInflight zeroV st c pick).1 i
              (<[key := (newInflight zeroV st c pick).2]> m),
            ((newInflight zeroV st c pick).2, true, i))).
  { intros Hcase. unfold acquireInflight. rewrite Est, <- Ei, <- Est, Hm. simpl.
    destruct Hcase as [->|(a0 & inf0 & -> & Ha0 & Hc)].
    - by destruct (newInflight zeroV st c pick).
    - rewrite Ha0. simpl. rewrite bool_decide_true by done.
      by destruct (newInflight zeroV st c pick). }
  split_and!.
  - intros Hcase.
    assert (Hcase' : m !! key = None
      ∨ (∃ a0 inf0, m !! key = Some a0 ∧ heap st !! a0 = Some inf0
                    ∧ doneCh inf0 ∈ closed st)).
    { destruct Hcase as [?|(a0 & inf0 & ? & Ha0 & Hd)]; [by left|right].
      exists a0, inf0. split_and!; [done|done|].
      by apply (wf_done_closed _ Hwf _ _ Ha0). }
    destruct (newInflight_record st c pick Hwf) as (Hrec & Hcl & Hopen).
    eexists _, _, (fresh_record st c). split; [by apply Hlead|].
    simpl. rewrite newInflight_shards, Hcl.
    split_and!; try done.
    + rewrite list_lookup_insert_eq; [done|]. by eapply lookup_lt_Some.
    + exact (newInflight_not_mapped _ _ _ _ _ _ Hwf Hm).
  - intros a inf Hk Ha Hnd.
    exists (set_heap st a (set_refs inf (refs inf + 1))),
           (set_refs inf (refs inf + 1)).
    split.
    { unfold acquireInflight. rewrite Est, <- Ei, <- Est, Hm. simpl.
      rewrite Hk, Ha. simpl.
      rewrite bool_decide_false; [done|].
      intros Hc. apply (wf_done_closed _ Hwf _ _ Ha) in Hc. congruence. }
    simpl. rewrite lookup_insert_eq.
    split_and!; try done.
    intros b Hb. by rewrite lookup_insert_ne.
  - intros a Hk. destruct (wf_map _ Hwf _ _ _ _ Hm Hk) as (inf & ? & _). eauto.
  - intros tid Hc. simpl. rewrite Hc.
    destruct (acquire_enabled s c key pick Hinv) as [[st' [[a leader] i']] Hacq].
    rewrite Hacq. simpl.
    destruct (acquire_cases _ _ _ _ _ _ _ _ Hacq) as (-> & _).
    rewrite <- Ei.
    eexists _, a, leader. split; [done|]. simpl.
    assert (Hlt : (tid < length (callers s))%nat) by by eapply lookup_lt_Some.
    rewrite list_lookup_insert_eq by done.
    split_and!; [done|done|].
    destruct leader; [|done]. eauto.
Qed.

Lemma put_effect_same (st st' : state V) :
  heap st' = heap st → puts st' = puts st → inflightPool st' = inflightPool st →
  put_effect st st'.
Proof.
  intros Eh Ep Ei. split.
  - left. split_and!; [done|by rewrite Ei|].
    intros a inf inf'. rewrite Eh. congruence.
  - intros a inf inf'. rewrite Eh. congruence.
Qed.

Lemma acquire_put_effect (st st' : state V) c key pick r :
  wf st → acquireInflight zeroV hashKey st c key pick = Some (st', r) →
  put_effect st st'.
Proof.
  intros Hwf Hacq. destruct r as [[a leader] i].
  apply acquire_cases in Hacq
    as (_ & m & Hm & [(-> & _ & -> & ->)|(-> & inf & Hk & Ha & _ & ->)]).
  - destruct (newInflight_eq st c pick) as (a' & pool' & na & Hget & ->).
    destruct (pool_Get_spec _ _ _ _ _ Hwf Hget) as (_ & _ & _ & Hsub & _).
    unfold put_effect, no_put, one_put, stays_pooled; simpl. split.
    + left. split_and!; [done|done|].
      intros b ib ib' Hb [[<- <-]|[Hne Hb']]%lookup_insert_Some; [done|congruence].
    + intros b ib ib' Hb [[<- <-]|[Hne Hb']]%lookup_insert_Some; simpl.
      * intros _ Hch. apply (wf_heap_bound _ Hwf) in Hb. lia.
      * congruence.
  - unfold put_effect, no_put, one_put, stays_pooled; simpl. split.
    + left. split_and!; [done|done|].
      intros b ib ib' Hb [[<- <-]|[Hne Hb']]%lookup_insert_Some; simpl; congruence.
    + intros b ib ib' Hb [[<- <-]|[Hne Hb']]%lookup_insert_Some; simpl; congruence.
Qed.

Lemma finish_put_effect (st st' : state V) a shard v e :
  finishInflight st a shard v e = Some st' → put_effect st st'.
Proof.
  intros (inf & Ha & Hc & ->)%finish_cases.
  destruct (bool_decide (refs inf ≤ 0) && negb (pooled inf)) eqn:Hcond.
  - apply andb_true_iff in Hcond as [Hr%bool_decide_eq_true Hp%negb_true_iff].
    unfold put_effect, no_put, one_put, stays_pooled; simpl. split.
    + right. exists a, inf, (set_pooled (set_result inf v e) true). simpl.
      rewrite lookup_insert_eq. split_and!; try done.
      intros b ib ib' Hne Hb. rewrite !lookup_insert_ne by done. congruence.
    + intros b ib ib' Hb. simpl.
      intros [[<- <-]|[Hne Hb']]%lookup_insert_Some; [done|].
      rewrite lookup_insert_ne in Hb' by done. congruence.
  - unfold put_effect, no_put, one_put, stays_pooled; simpl. split.
    + left. split_and!; [done|done|]. simpl.
      intros b ib ib' Hb [[<- <-]|[Hne Hb']]%lookup_insert_Some; simpl; congruence.
    + intros b ib ib' Hb. simpl.
      intros [[<- <-]|[Hne Hb']]%lookup_insert_Some; simpl; congruence.
Qed.

Lemma release_put_effect (st st' : state V) key a shard :
  releaseInflight st key a shard = Some st' → put_effect st st'.
Proof.
  intros (inf & m & Ha & Hm & ->)%release_cases. simpl.
  pose proof (released_heap st key a shard inf m) as Hheap.
  assert (Hrest : puts (released st key a shard inf m) = puts st
                  ∧ inflightPool (released st key a shard inf m) = inflightPool st).
  { unfold released. simpl. by case_bool_decide. }
  destruct Hrest as [Hputs Hpool].
  case_bool_decide as Hr.
  - revert Hheap Hputs Hpool. generalize (released st key a shard inf m).
    intros st2 Hheap Hputs Hpool.
    destruct (done inf && negb (pooled inf)) eqn:Hcond.
    + apply andb_true_iff in Hcond as [Hd Hp%negb_true_iff].
      unfold put_effect, no_put, one_put, stays_pooled; simpl. split.
      * right. exists a, inf, (set_pooled (set_refs inf (refs inf - 1)) true).
        simpl. rewrite lookup_insert_eq, Hputs, Hpool. split_and!; try done.
        intros b ib ib' Hne Hb. rewrite Hheap, !lookup_insert_ne by done.
        congruence.
      * intros b ib ib' Hb. simpl.
        intros [[<- <-]|[Hne Hb']]%lookup_insert_Some; [done|].
        rewrite Hheap, lookup_insert_ne in Hb' by done. congruence.
    + unfold put_effect, no_put, one_put, stays_pooled; simpl. split.
      * left. split_and!; [done|by rewrite Hpool|]. rewrite Hheap.
        intros b ib ib' Hb [[<- <-]|[Hne Hb']]%lookup_insert_Some; simpl; congruence.
      * intros b ib ib' Hb. rewrite Hheap.
        intros [[<- <-]|[Hne Hb']]%lookup_insert_Some; simpl; congruence.
  - unfold put_effect, no_put, one_put, stays_pooled; simpl. split.
    + left. split_and!; [done|done|]. simpl.
      intros b ib ib' Hb [[<- <-]|[Hne Hb']]%lookup_insert_Some; simpl; congruence.
    + intros b ib ib' Hb. simpl.
      intros [[<- <-]|[Hne Hb']]%lookup_insert_Some; simpl; congruence.
Qed.

Lemma step_put_effect (s s' : system V) act :
  inv s → step zeroV hashKey s act = Some s' → put_effect (ldr s) (ldr s').
Proof.
  intros Hinv Hstep%step_steps_to.
  destruct Hstep; simpl; try (by apply put_effect_same).
  - by eapply acquire_put_effect; [apply Hinv|].
  - by eapply release_put_effect.
  - by eapply release_put_effect.
  - by eapply finish_put_effect.
Qed.

Lemma refs_nonneg (s : system V) a inf :
  inv s → heap (ldr s) !! a = Some inf → 0 ≤ refs inf.
Proof.
  intros Hinv Ha. rewrite (inv_refs _ Hinv _ _ Ha).
  apply tally_nonneg, holds_nonneg.
Qed.

(** C5: a record goes to the pool at most once in each of its lives, and
    only when it is done and its count is zero.  [puts] lists the [Put]
    calls with the record's channel, which names the life; no channel
    occurs twice.  Whatever lies in the pool, and whatever has [pooled]
    set, is done with [refs = 0].  In each step the [pooled] flag of a
    record goes from false to true exactly when that step calls [Put] on
    it, at most one record per step, and a flag that is set stays set until
    [newInflight] gives the record a new channel. *)
Theorem pooled_at_most_once g (s : system V) :
  reachable zeroV hashKey g s →
  let st := ldr s in
  NoDup ((puts st).*2)
  ∧ NoDup (inflightPool st)
  ∧ (∀ a, a ∈ inflightPool st → ∃ inf, heap st !! a = Some inf ∧ pooled inf = true)
  ∧ (∀ a inf, heap st !! a = Some inf → pooled inf = true →
       done inf = true ∧ refs inf = 0)
  ∧ (∀ act s', step zeroV hashKey s act = Some s' →
       let st' := ldr s' in
       (no_put st st'
        ∨ (one_put st st' ∧
           ∀ a ch, puts st' = (a, ch) :: puts st →
             ∃ inf', heap st' !! a = Some inf' ∧ done inf' = true ∧ refs inf' = 0))
       ∧ stays_pooled st st').
Proof.
  intros Hreach st. pose proof (reachable_inv _ _ Hreach) as Hinv.
  pose proof (inv_wf _ Hinv) as Hwf.
  split_and!.
  - apply Hwf.
  - apply Hwf.
  - apply Hwf.
  - intros a inf Ha Hp. destruct (wf_pooled _ Hwf _ _ Ha Hp) as [Hd Hr].
    split; [done|]. pose proof (refs_nonneg s a inf Hinv Ha). lia.
  - intros act s' Hstep st'.
    pose proof (inv_step _ _ _ Hinv Hstep) as Hinv'.
    destruct (step_put_effect _ _ _ Hinv Hstep) as [[Hno|Hone] Hstay].
    + split; [by left|done].
    + split; [|done]. right. split; [done|].
      destruct Hone as (a & inf & inf' & Ha & Ha' & _ & _ & Hd & Hr & _ & Hputs & _).
      intros b ch Hb. unfold st' in Hb. rewrite Hputs in Hb.
      injection Hb as <- _. exists inf'. split_and!; [done|done|].
      pose proof (refs_nonneg s' a inf' Hinv' Ha'). lia.
Qed.

(** Only [finishInflight] calls [RecordLoadConcurrency]. *)
Lemma step_concurrency_metric (s s' : system V) act :
  step zeroV hashKey s act = Some s' →
  (∀ k v e, act ≠ ActFinish k v e) →
  tally is_concurrency (metrics (ldr s')) = tally is_concurrency (metrics (ldr s)).
Proof.
  intros Hstep%step_steps_to Hact.
  destruct Hstep as [| ? ? ? ? ? ? ? ? ? Hacq| | | | | | ? ? ? ? ? ? ? ? ? ? Hrel
                    | ? ? ? ? ? ? ? ? Hrel| |k v e| |]; simpl; try done.
  - by destruct (acquire_frame _ _ _ _ _ _ Hacq) as (-> & _).
  - by destruct (release_effect _ _ _ _ _ Hrel)
      as (? & ? & _ & _ & _ & _ & _ & _ & _ & _ & _ & _ & _ & ->).
  - by destruct (release_effect _ _ _ _ _ Hrel)
      as (? & ? & _ & _ & _ & _ & _ & _ & _ & _ & _ & _ & _ & ->).
  - rewrite tally_app. simpl. lia.
  - by destruct (Hact k v e).
Qed.

(** A goroutine that has finished its fetch takes no further step. *)
Lemma step_exited_stays (s s' : system V) act k :
  step zeroV hashKey s act = Some s' →
  tasks s !! k = Some Exited → tasks s' !! k = Some Exited.
Proof.
  intros Hstep%step_steps_to Hk.
  destruct Hstep as [| | | | | | | | |k' ? ? ? Ht|k' ? ? ? ? ? Ht| |]; simpl;
    try done.
  - by apply lookup_app_l_Some.
  - destruct (decide (k' = k)) as [->|Hne]; [congruence|].
    by rewrite list_lookup_insert_ne.
  - destruct (decide (k' = k)) as [->|Hne]; [congruence|].
    by rewrite list_lookup_insert_ne.
Qed.

(** C6, as the code has it: [RecordLoadConcurrency] is called once for
    each fetch that completes (as many calls as goroutines that have
    finished, one more with each [finishInflight], none in any other step,
    and a goroutine that has finished stays so), with the [refs] count found
    under the lock.  That count is the number of callers still holding the
    record: it is never negative, it is at least 1 while a caller holds the
    record, and it is 0 when every caller has left through its own
    context. *)
Theorem concurrency_metric_once_per_fetch g (s : system V) :
  reachable zeroV hashKey g s →
  tally is_concurrency (metrics (ldr s)) = tally is_exited (tasks s)
  ∧ (∀ c n, RecordLoadConcurrency c n ∈ metrics (ldr s) → 0 ≤ n)
  ∧ (∀ k a shard v e, tasks s !! k = Some (Fetching a shard) →
       ∃ s' inf,
         step zeroV hashKey s (ActFinish k v e) = Some s' ∧
         heap (ldr s) !! a = Some inf ∧
         metrics (ldr s') =
           metrics (ldr s) ++ [RecordLoadConcurrency (ctx inf) (refs inf)] ∧
         tasks s' = <[k := Exited]> (tasks s) ∧
         refs inf = holders a (callers s) ∧ 0 ≤ refs inf ∧
         (∀ tid c key shard', callers s !! tid = Some c →
            caller_ref c = Some (a, key, shard') → 1 ≤ refs inf))
  ∧ (∀ act s', step zeroV hashKey s act = Some s' →
       (∀ k v e, act ≠ ActFinish k v e) →
       tally is_concurrency (metrics (ldr s')) =
         tally is_concurrency (metrics (ldr s)))
  ∧ (∀ act s' k, step zeroV hashKey s act = Some s' →
       tasks s !! k = Some Exited → tasks s' !! k = Some Exited).
Proof.
  intros Hinv%reachable_inv. split_and!; [| | | |by eauto using step_exited_stays].
  - apply Hinv.
  - apply Hinv.
  - intros k a shard v e Ht.
    destruct (finish_enabled s k a shard v e Hinv Ht) as (inf & Ha & Hnd & [st' Hfin]).
    exists (set_task s st' k Exited), inf. simpl. rewrite Ht, Hfin. simpl.
    destruct (finish_effect _ _ _ _ _ _ Hfin)
      as (inf0 & inf' & Ha0 & _ & _ & _ & _ & _ & _ & _ & _ & _ & _ & Hm).
    assert (inf0 = inf) as -> by congruence.
    pose proof (inv_refs _ Hinv _ _ Ha) as Hrefs.
    split_and!; try done.
    + rewrite Hrefs. apply tally_nonneg, holds_nonneg.
    + intros tid c key shard' Hc Href. rewrite Hrefs.
      pose proof (tally_lookup_le (holds a) _ _ _ (holds_nonneg a) Hc) as Hle.
      rewrite (holds_ref _ _ _ _ _ Href), bool_decide_true in Hle by done.
      done.
  - intros act s' Hstep Hact. by eapply step_concurrency_metric.
Qed.

(** C10, as the code has it.  [directLoader.load] returns the zero value,
    [leader = true] and the fetch's error whenever that error is not nil.
    In the singleflight loader, every caller whose [select] ended on the
    record's done signal returns what [finishInflight] stored for that
    channel: the same error for all of them and, when the error is not nil,
    the zero value whatever value the fetch produced, each with its own
    leader flag.  A caller whose [select] ended on its own context returns
    the zero value with that context's error instead. *)
Theorem load_error_gives_zero g (s : system V) :
  reachable zeroV hashKey g s →
  (∀ c key loader v e, loader c = (v, Some e) →
     directLoader_load zeroV c key loader = (zeroV, true, Some e))
  ∧ (∀ k a shard v e s', tasks s !! k = Some (Fetching a shard) →
       step zeroV hashKey s (ActFinish k v e) = Some s' →
       ∃ inf, heap (ldr s) !! a = Some inf ∧
              completions (ldr s') !! doneCh inf = Some (v, e))
  ∧ (∀ tid c key a leader shard ch,
       callers s !! tid = Some (Woken c key a leader shard ch) →
       ∃ s' v e, step zeroV hashKey s (ActRead tid) = Some s' ∧
         completions (ldr s) !! ch = Some (v, e) ∧
         callers s' !! tid = Some (Loaded key a leader shard v e ch))
  ∧ (∀ tid key a leader shard v e ch,
       callers s !! tid = Some (Loaded key a leader shard v e ch) →
       completions (ldr s) !! ch = Some (v, e) ∧
       ∃ s', step zeroV hashKey s (ActRelease tid) = Some s' ∧
         callers s' !! tid =
           Some (Returned (if e is Some _ then zeroV else v) leader e (Some ch)))
  ∧ (∀ tid v leader e ch,
       callers s !! tid = Some (Returned v leader e (Some ch)) →
       ∃ v0, completions (ldr s) !! ch = Some (v0, e) ∧
             (is_Some e → v = zeroV) ∧ (e = None → v = v0))
  ∧ (∀ tid tid' v v' leader leader' e e' ch,
       callers s !! tid = Some (Returned v leader e (Some ch)) →
       callers s !! tid' = Some (Returned v' leader' e' (Some ch)) →
       v = v' ∧ e = e')
  ∧ (∀ tid key a leader shard e,
       callers s !! tid = Some (Cancelled key a leader shard e) →
       ∃ s', step zeroV hashKey s (ActRelease tid) = Some s' ∧
         callers s' !! tid = Some (Returned zeroV leader (Some e) None)).
Proof.
  intros Hinv%reachable_inv.
  assert (Hret : ∀ tid v leader e ch,
    callers s !! tid = Some (Returned v leader e (Some ch)) →
    ∃ v0, completions (ldr s) !! ch = Some (v0, e) ∧
          (is_Some e → v = zeroV) ∧ (e = None → v = v0)).
  { intros tid v leader e ch Hc.
    destruct (inv_callers _ Hinv _ _ Hc) as (v0 & e0 & Hco & Hres).
    exists v0. destruct e0 as [e0|]; simpl in Hres; injection Hres as -> ->.
    - split_and!; [done|done|]. done.
    - split_and!; [done|by intros [? ?]|done]. }
  split_and!.
  - intros c key loader v e Hl. unfold directLoader_load. by rewrite Hl.
  - intros k a shard v e s' Ht Hstep. simpl in Hstep. rewrite Ht in Hstep.
    destruct (finishInflight (ldr s) a shard v e) as [st'|] eqn:Hfin; [|done].
    injection Hstep as <-. simpl.
    destruct (finish_effect _ _ _ _ _ _ Hfin)
      as (inf & inf' & Ha & _ & _ & _ & _ & _ & _ & _ & _ & _ & -> & _).
    exists inf. by rewrite lookup_insert_eq.
  - intros tid c key a leader shard ch Hc.
    destruct (inv_callers _ Hinv _ _ Hc) as ((inf & Ha & Hch) & Hlt & Hcl).
    exists (set_caller s (ldr s) tid (Loaded key a leader shard (val inf) (err inf) ch)),
      (val inf), (err inf).
    simpl. rewrite Hc, Ha. simpl. split_and!; [done| |].
    + rewrite <- Hch. apply (wf_completions _ (inv_wf _ Hinv) _ _ Ha).
      apply (wf_done_closed _ (inv_wf _ Hinv) _ _ Ha). by rewrite Hch.
    + apply list_lookup_insert_eq. by eapply lookup_lt_Some.
  - intros tid key a leader shard v e ch Hc.
    destruct (inv_callers _ Hinv _ _ Hc) as (_ & _ & Hco). split; [done|].
    destruct (release_enabled s tid _ a key shard Hinv Hc eq_refl) as [st' Hrel].
    simpl. rewrite Hc, Hrel. simpl.
    destruct e as [e|]; simpl; eexists; (split; [done|]); simpl;
      apply list_lookup_insert_eq; by eapply lookup_lt_Some.
  - done.
  - intros tid tid' v v' leader leader' e e' ch Hc Hc'.
    destruct (Hret _ _ _ _ _ Hc) as (v0 & Hco & Hz & Hv).
    destruct (Hret _ _ _ _ _ Hc') as (v0' & Hco' & Hz' & Hv').
    assert (v0' = v0 ∧ e' = e) as [-> ->] by (split; congruence).
    split; [|done]. destruct e as [e|].
    + rewrite Hz, Hz' by eauto. done.
    + rewrite Hv, Hv' by done. done.
  - intros tid key a leader shard e Hc.
    destruct (release_enabled s tid _ a key shard Hinv Hc eq_refl) as [st' Hrel].
    simpl. rewrite Hc, Hrel. simpl. eexists. split; [done|]. simpl.
    apply list_lookup_insert_eq. by eapply lookup_lt_Some.
Qed.

Lemma step_shards_length (s s' : system V) act :
  step zeroV hashKey s act = Some s' →
  length (shards (ldr s')) = length (shards (ldr s)).
Proof.
  intros Hstep%step_steps_to.
  destruct Hstep as [| ? ? ? ? ? ? ? ? ? Hacq| | | | | | ? ? ? ? ? ? ? ? ? ? Hrel
                    | ? ? ? ? ? ? ? ? Hrel| |? ? ? ? ? ? ? Hfin| |]; simpl; try done.
  - by destruct (acquire_frame _ _ _ _ _ _ Hacq) as (_ & _ & ->).
  - by destruct (release_effect _ _ _ _ _ Hrel)
      as (? & ? & _ & _ & _ & _ & _ & _ & _ & -> & _).
  - by destruct (release_effect _ _ _ _ _ Hrel)
      as (? & ? & _ & _ & _ & _ & _ & _ & _ & -> & _).
  - by destruct (finish_effect _ _ _ _ _ _ Hfin)
      as (? & ? & _ & _ & _ & _ & _ & _ & _ & _ & -> & _).
Qed.

Lemma reachable_shards_length g (s : system V) :
  reachable zeroV hashKey g s →
  length (shards (ldr s)) = Z.to_nat (shardCount g).
Proof.
  induction 1 as [|s act s' Hreach IH Hstep].
  - simpl. by rewrite length_replicate.
  - rewrite <- IH. by eapply step_shards_length.
Qed.

Lemma shardCount_clamp g :
  - 2 ^ 62 ≤ g < 2 ^ 62 →
  shardCount g = clamp (g * 2) 8 32.
Proof.
  intros Hg. unfold shardCount, clamp, wrap_int, shardMultiplier,
    maxShardCount, minShardCount.
  replace ((g * 2 + 2 ^ 63) `mod` 2 ^ 64) with (g * 2 + 2 ^ 63)
    by (symmetry; apply Z.mod_small; lia).
  repeat case_bool_decide; lia.
Qed.

(** C8: the loader has [clamp(GOMAXPROCS * 2, 8, 32)] shards, in every
    state it reaches, and [shardFor(key)] is the shard at index
    [hashKey(key) mod shardCount], which exists; the index depends on the
    key alone, so a key has the same shard in any two states.
    [GOMAXPROCS] is a positive int32. *)
Theorem shard_count_and_selection g :
  1 ≤ g < 2 ^ 31 →
  shardCount g = clamp (g * 2) 8 32
  ∧ 8 ≤ shardCount g ≤ 32
  ∧ length (shards (@newSingleflightLoader V g)) = Z.to_nat (shardCount g)
  ∧ (∀ s key, reachable zeroV hashKey g s →
       length (shards (ldr s)) = Z.to_nat (shardCount g)
       ∧ shardFor hashKey (ldr s) key = Z.to_nat (hashKey key `mod` shardCount g)
       ∧ is_Some (shards (ldr s) !! shardFor hashKey (ldr s) key))
  ∧ (∀ s1 s2 key, reachable zeroV hashKey g s1 → reachable zeroV hashKey g s2 →
       shardFor hashKey (ldr s1) key = shardFor hashKey (ldr s2) key).
Proof.
  intros Hg.
  assert (Hclamp : shardCount g = clamp (g * 2) 8 32) by (apply shardCount_clamp; lia).
  assert (Hrange : 8 ≤ shardCount g ≤ 32).
  { unfold shardCount, maxShardCount, minShardCount. lia. }
  assert (Hfor : ∀ s key, reachable zeroV hashKey g s →
    shardFor hashKey (ldr s) key = Z.to_nat (hashKey key `mod` shardCount g)).
  { intros s key Hr. unfold shardFor.
    rewrite (reachable_shards_length _ _ Hr), Z2Nat.id by lia. done. }
  split_and!; [done|lia|lia| | |].
  - simpl. by rewrite length_replicate.
  - intros s key Hr. split_and!.
    + by apply reachable_shards_length.
    + by apply Hfor.
    + apply lookup_lt_is_Some_2, shardFor_lt.
      by apply (inv_shards _ (reachable_inv _ _ Hr)).
  - intros s1 s2 key Hr1 Hr2. by rewrite !Hfor.
Qed.

End Specs.

(** C7: the load context is done exactly when its own cancel function has
    been called or its deadline has passed, whatever the caller's context is
    and whatever else has been cancelled; with [maxLoadTimeout > 0] its
    deadline is the time of the call plus the timeout, and with a zero
    timeout it has none and is the context [newInflight] of [loader.go]
    builds. *)
Theorem loadContext_detached (maxLoadTimeout now0 : Z) (c : Context)
    (id : cancel_id) (w : world) :
  Done w (loadContext maxLoadTimeout now0 c id) =
    bool_decide (id ∈ w_cancelled w)
    || (bool_decide (0 < maxLoadTimeout)
        && bool_decide (now0 + maxLoadTimeout ≤ w_now w))
  ∧ Done w (loadContext maxLoadTimeout now0 c id) =
      Done w (loadContext maxLoadTimeout now0 Background id)
  ∧ (0 < maxLoadTimeout →
       Deadline (loadContext maxLoadTimeout now0 c id) = Some (now0 + maxLoadTimeout))
  ∧ (maxLoadTimeout = 0 →
       Deadline (loadContext maxLoadTimeout now0 c id) = None)
  ∧ (∀ (V : Type) (zeroV : V) (st : state V) pick,
       ∃ inf, heap (newInflight zeroV st c pick).1
                !! (newInflight zeroV st c pick).2 = Some inf
              ∧ ctx inf = loadContext 0 (now st) c (inr (next_cancel st))
              ∧ cancel inf = inr (next_cancel st)
              ∧ Deadline (ctx inf) = None).
Proof.
  unfold loadContext, WithTimeout.
  split_and!.
  - case_bool_decide; simpl; [by rewrite orb_false_r|].
    by rewrite !orb_false_r.
  - by case_bool_decide.
  - intros Hpos. by rewrite bool_decide_true.
  - intros ->. done.
  - intros V zeroV st pick. exists (fresh_record zeroV st c).
    rewrite newInflight_heap, lookup_insert_eq. done.
Qed.

(** *** Runs on concrete inputs *)

Example one_waiting_runs :
  (λ s, (callers s, tasks s)) <$> run 0 demo_hash (initial 4) one_waiting =
  Some ([Waiting demo_ctx "k" 0 true 1 0], [Fetching 0 1]).
Proof. by vm_compute. Qed.

Example abandoned_fetch_runs :
  (λ s, (callers s, tasks s, metrics (ldr s), inflightPool (ldr s), puts (ldr s)))
    <$> run 0 demo_hash (initial 4) abandoned_fetch =
  Some ([Returned 0 true (Some Canceled) None], [Exited],
        [RecordLoad demo_ctx;
         RecordLoadConcurrency (WithCancel (WithoutCancel demo_ctx) (inr 0%nat)) 0],
        [0%nat], [(0%nat, 0%nat)]).
Proof. by vm_compute. Qed.

Example two_callers_failed_fetch_runs :
  (λ s, (callers s, metrics (ldr s), inflightPool (ldr s)))
    <$> run 0 demo_hash (initial 4) two_callers_failed_fetch =
  Some ([Returned 0 true (Some (Foreign "boom")) (Some 0%nat);
         Returned 0 false (Some (Foreign "boom")) (Some 0%nat)],
        [RecordLoad demo_ctx;
         RecordLoadConcurrency (WithCancel (WithoutCancel demo_ctx) (inr 0%nat)) 2],
        [0%nat]).
Proof. by vm_compute. Qed.

Example pool_put_only_after_done_runs :
  pool_put_only_after_done =
  Some [(0, false, false); (0, true, true); (-1, true, true)].
Proof. by vm_compute. Qed.

(** The record at address 0 serves both loads, and is put once in each of
    its two lives (channels 0 and 1). *)
Example two_loads_in_turn_runs :
  (λ s, (callers s, puts (ldr s), inflightPool (ldr s)))
    <$> run 0 demo_hash (initial 4) two_loads_in_turn =
  Some ([Returned 7 true None (Some 0%nat); Returned 8 true None (Some 1%nat)],
        [(0%nat, 1%nat); (0%nat, 0%nat)], [0%nat]).
Proof. by vm_compute. Qed.

(** A caller that arrives when the entry is done but not yet released
    supersedes it (TestSingleflightLoader_AcquireAfterDoneReplacesInflight). *)
Example acquire_supersedes_done_entry :
  (λ s, (callers s, map_to_list <$> shards (ldr s) !! 1%nat,
         (λ inf, (refs inf, done inf)) <$> heap (ldr s) !! 1%nat))
    <$> run 0 demo_hash (initial 4)
          (one_waiting ++ [ActFinish 0 7 None; ActCall Background "k";
                           ActAcquire 1 0]) =
  Some ([Waiting demo_ctx "k" 0 true 1 0; Acquired Background "k" 1 true 1 true],
        Some [("k"%string, 1%nat)], Some (1, false)).
Proof. by vm_compute. Qed.

Lemma acquire_leader_or_follower_witness :
  ∃ (s : system Z) st' inf',
    reachable 0 demo_hash 4 s ∧
    acquireInflight 0 demo_hash (ldr s) Background "k" 0
      = Some (st', (0%nat, false, 1%nat)) ∧
    heap st' !! 0%nat = Some inf' ∧ refs inf' = 2.
Proof.
  destruct (run 0 demo_hash (initial 4) one_waiting) as [s|] eqn:Hrun;
    [|by vm_compute in Hrun].
  pose proof (reachable_run 0 demo_hash 4 _ _ Hrun) as Hr.
  destruct (acquire_leader_or_follower 0 demo_hash 4 s Background "k" 0 Hr)
    as (m & Hm & _ & Hjoin & _).
  vm_compute in Hrun. injection Hrun as <-.
  vm_compute in Hm. injection Hm as <-.
  destruct (Hjoin 0%nat _ eq_refl eq_refl eq_refl)
    as (st' & inf' & Hacq & Ha & Hrefs & _).
  eexists _, st', inf'. split; [exact Hr|]. split; [exact Hacq|].
  split; [exact Ha|exact Hrefs].
Defined.

Lemma pooled_at_most_once_witness :
  ∃ s : system Z,
    reachable 0 demo_hash 4 s ∧ puts (ldr s) = [(0%nat, 0%nat)] ∧
    NoDup ((puts (ldr s)).*2) ∧
    ∀ a, a ∈ inflightPool (ldr s) →
      ∃ inf, heap (ldr s) !! a = Some inf ∧ pooled inf = true.
Proof.
  destruct (run 0 demo_hash (initial 4) abandoned_fetch) as [s|] eqn:Hrun;
    [|by vm_compute in Hrun].
  pose proof (reachable_run 0 demo_hash 4 _ _ Hrun) as Hr.
  destruct (pooled_at_most_once 0 demo_hash 4 s Hr) as (Hnd & _ & Hpool & _).
  exists s. split_and!; [exact Hr| |exact Hnd|exact Hpool].
  vm_compute in Hrun. by injection Hrun as <-.
Defined.

(** C6 as stated fails: when the only caller has left through its context,
    the fetch completes with [refs = 0] and that is the value emitted. *)
Lemma concurrency_metric_zero_when_abandoned :
  ¬ (∀ g (s : system Z) c n,
       reachable 0 demo_hash g s →
       RecordLoadConcurrency c n ∈ metrics (ldr s) → 1 ≤ n).
Proof.
  intros H.
  destruct (run 0 demo_hash (initial 4) abandoned_fetch) as [s|] eqn:Hrun;
    [|by vm_compute in Hrun].
  pose proof (reachable_run 0 demo_hash 4 _ _ Hrun) as Hr.
  specialize (H 4 s (WithCancel (WithoutCancel demo_ctx) (inr 0%nat)) 0 Hr).
  vm_compute in Hrun. injection Hrun as <-.
  assert (1 ≤ 0); [|lia].
  apply H. simpl. apply list_elem_of_In. right. by left.
Qed.

Lemma concurrency_metric_once_per_fetch_witness :
  ∃ s : system Z,
    reachable 0 demo_hash 4 s ∧
    tally is_concurrency (metrics (ldr s)) = tally is_exited (tasks s) ∧
    ∀ c n, RecordLoadConcurrency c n ∈ metrics (ldr s) → 0 ≤ n.
Proof.
  destruct (run 0 demo_hash (initial 4) two_callers_failed_fetch) as [s|] eqn:Hrun;
    [|by vm_compute in Hrun].
  pose proof (reachable_run 0 demo_hash 4 _ _ Hrun) as Hr.
  destruct (concurrency_metric_once_per_fetch 0 demo_hash 4 s Hr)
    as (Hcount & Hnonneg & _).
  exists s. split_and!; [exact Hr|exact Hcount|exact Hnonneg].
Defined.

(** C10 as stated fails: the fetch has completed with the error "boom",
    and the caller that led it returns its own context's error. *)
Lemma load_error_not_returned_to_cancelled_caller :
  ¬ (∀ g acts1 acts2 (s1 s2 : system Z) tid c key a leader shard ch v e
       v' leader' e' served,
       run 0 demo_hash (initial g) acts1 = Some s1 →
       run 0 demo_hash s1 acts2 = Some s2 →
       callers s1 !! tid = Some (Waiting c key a leader shard ch) →
       completions (ldr s2) !! ch = Some (v, Some e) →
       callers s2 !! tid = Some (Returned v' leader' e' served) →
       (v', leader', e') = (0, leader, Some e)).
Proof.
  intros H.
  destruct (run 0 demo_hash (initial 4) one_waiting) as [s1|] eqn:H1;
    [|by vm_compute in H1].
  destruct (run 0 demo_hash s1 failed_fetch_cancelled_caller) as [s2|] eqn:H2.
  2:{ vm_compute in H1. injection H1 as <-. by vm_compute in H2. }
  specialize (H 4 one_waiting failed_fetch_cancelled_caller s1 s2 0%nat
                demo_ctx "k"%string 0%nat true 1%nat 0%nat 7 (Foreign "boom")
                0 true (Some Canceled) None H1 H2).
  vm_compute in H1. injection H1 as <-.
  vm_compute in H2. injection H2 as <-.
  specialize (H eq_refl eq_refl eq_refl). done.
Qed.

Lemma load_error_gives_zero_witness :
  ∃ s : system Z,
    reachable 0 demo_hash 4 s ∧
    callers s = [Returned 0 true (Some (Foreign "boom")) (Some 0%nat);
                 Returned 0 false (Some (Foreign "boom")) (Some 0%nat)] ∧
    ∀ tid v leader e ch,
      callers s !! tid = Some (Returned v leader e (Some ch)) →
      ∃ v0, completions (ldr s) !! ch = Some (v0, e) ∧
            (is_Some e → v = 0) ∧ (e = None → v = v0).
Proof.
  destruct (run 0 demo_hash (initial 4) two_callers_failed_fetch) as [s|] eqn:Hrun;
    [|by vm_compute in Hrun].
  pose proof (reachable_run 0 demo_hash 4 _ _ Hrun) as Hr.
  destruct (load_error_gives_zero 0 demo_hash 4 s Hr)
    as (_ & _ & _ & _ & Hret & _).
  exists s. split_and!; [exact Hr| |exact Hret].
  vm_compute in Hrun. by injection Hrun as <-.
Defined.

Lemma shard_count_and_selection_witness :
  1 ≤ 4 < 2 ^ 31 ∧ shardCount 4 = clamp (4 * 2) 8 32 ∧
  length (shards (@newSingleflightLoader Z 4)) = 8%nat.
Proof.
  assert (Hg : 1 ≤ 4 < 2 ^ 31) by lia.
  destruct (shard_count_and_selection 0 demo_hash 4 Hg) as (Hc & _ & Hl & _).
  split; [exact Hg|]. split; [exact Hc|]. rewrite Hl. reflexivity.
Defined.

End LoaderSpec.

(** ** Further properties of the loader *)

Module LoaderExtra.
Import GoContext Loader LoaderInv LoaderRecords.

Lemma tally_two {A : Type} (f : A → Z) (l : list A) (i j : nat) (x y : A) :
  (∀ x, 0 ≤ f x) → i ≠ j → l !! i = Some x → l !! j = Some y →
  f x + f y ≤ tally f l.
Proof.
  intros Hf. revert i j.
  induction l as [|z l IH]; intros [|i] [|j] Hne Hi Hj; simplify_eq/=.
  - pose proof (LoaderSpec.tally_lookup_le f l j y Hf Hj). lia.
  - pose proof (LoaderSpec.tally_lookup_le f l i x Hf Hi). lia.
  - assert (i ≠ j) as Hne' by congruence.
    specialize (IH i j Hne' Hi Hj). specialize (Hf z). lia.
Qed.

Lemma tally_pos {A : Type} (f : A → Z) (l : list A) :
  1 ≤ tally f l → ∃ i x, l !! i = Some x ∧ 1 ≤ f x.
Proof.
  induction l as [|z l IH]; simpl; [lia|]. intros Hl.
  destruct (decide (1 ≤ f z)) as [Hz|Hz].
  - by exists 0%nat, z.
  - destruct (decide (1 ≤ tally f l)) as [Ht|Ht]; [|lia].
    destruct (IH Ht) as (i & x & Hi & Hx). by exists (S i), x.
Qed.

Section Specs.
Context {V : Type} (zeroV : V) (hashKey : string → Z).

Local Abbreviation inv := (LoaderInv.inv zeroV).
Local Abbreviation records_ok := (LoaderRecords.records_ok zeroV).
Local Abbreviation keys_in_own_shard := (LoaderRecords.keys_in_own_shard hashKey).
Local Abbreviation inv_records := (LoaderRecords.inv_records zeroV hashKey).
Local Abbreviation reachable := (Loader.reachable zeroV hashKey).
Local Abbreviation step := (Loader.step zeroV hashKey).
Local Abbreviation run := (Loader.run zeroV hashKey).

(** *** The records keep [records_ok] *)

Lemma records_ok_initial g : records_ok (@newSingleflightLoader V g).
Proof.
  split; simpl; try (intros a inf Hh; by rewrite lookup_empty in Hh).
  - intros a b ia ib Hh. by rewrite lookup_empty in Hh.
  - intros n Hn. by apply not_elem_of_empty in Hn.
Qed.

(** Changes that leave the maps, the heap and the loader's cancel
    functions alone. *)
Lemma records_ok_env (st st' : state V) :
  records_ok st →
  shards st' = shards st → heap st' = heap st →
  next_cancel st' = next_cancel st →
  (∀ id, id ∈ cancelled st → id ∈ cancelled st') →
  (∀ n : nat, inr n ∈ cancelled st' → inr n ∈ cancelled st) →
  records_ok st'.
Proof.
  intros [Hctx Hinj Hb Hc Hr Hf] Hs Hh Hn Hsub Hsup.
  split; rewrite ?Hh, ?Hn.
  - done.
  - done.
  - intros n Hin. by apply Hb, Hsup.
  - intros a inf Ha Hin.
    destruct (Hctx _ _ Ha) as (c & n & _ & Hcn & _).
    rewrite Hcn in Hin. apply Hsup in Hin. rewrite <- Hcn in Hin.
    destruct (Hc _ _ Ha Hin) as [Hrefs Hnr]. split; [done|].
    intros (i & m & k & Hi & Hk). apply Hnr. exists i, m, k.
    by rewrite <- Hs.
  - intros a inf Ha Hrefs. by apply Hsub, (Hr _ _ Ha).
  - done.
Qed.

(** One record changes, and map entries are dropped at most. *)
Lemma records_ok_update (st st' : state V) a inf inf' :
  records_ok st → heap st !! a = Some inf →
  heap st' = <[a := inf']> (heap st) →
  next_cancel st' = next_cancel st →
  ctx inf' = ctx inf → cancel inf' = cancel inf →
  (∀ b, registered st' b → registered st b) →
  (∀ id, id ∈ cancelled st → id ∈ cancelled st') →
  (∀ id, id ∈ cancelled st' → id ∈ cancelled st ∨ id = cancel inf) →
  (cancel inf ∈ cancelled st' → refs inf' ≤ 0 ∧ ¬ registered st' a) →
  (refs inf' ≤ 0 → cancel inf ∈ cancelled st') →
  (done inf' = false → val inf' = zeroV ∧ err inf' = None) →
  records_ok st'.
Proof.
  intros [Hctx Hinj Hb Hc Hr Hf] Ha Hh Hn Hcx Hcl Hreg Hsub Hsup Hca Hra Hfa.
  assert (∀ b ib, heap st' !! b = Some ib →
            (b = a ∧ ib = inf') ∨ (b ≠ a ∧ heap st !! b = Some ib)) as Hcases.
  { intros b ib. rewrite Hh. destruct (decide (b = a)) as [->|Hne].
    - rewrite lookup_insert_eq. intros [= <-]. by left.
    - rewrite lookup_insert_ne by done. by right. }
  split; rewrite ?Hn.
  - intros b ib [[-> ->]|[_ Hb']]%Hcases; [|by eapply Hctx].
    rewrite Hcx, Hcl. by eapply Hctx.
  - intros b b' ib ib' [[-> ->]|[Hne Hb1]]%Hcases [[-> ->]|[Hne' Hb2]]%Hcases;
      rewrite ?Hcl; intros Heq; try done.
    + symmetry. by eapply (Hinj b' a).
    + by eapply (Hinj b a).
    + by eapply Hinj.
  - intros n [Hin|Hin]%Hsup; [by apply Hb|].
    destruct (Hctx _ _ Ha) as (c & n' & _ & Hcn & Hlt).
    rewrite Hcn in Hin. by injection Hin as ->.
  - intros b ib [[-> ->]|[Hne Hb1]]%Hcases; rewrite ?Hcl; [done|].
    intros [Hin|Hin]%Hsup.
    + destruct (Hc _ _ Hb1 Hin) as [Hrefs Hnr]. split; [done|].
      intros Hreg'. by apply Hnr, Hreg.
    + destruct Hne. by eapply (Hinj b a).
  - intros b ib [[-> ->]|[Hne Hb1]]%Hcases; rewrite ?Hcl; [done|].
    intros Hrefs. by apply Hsub, (Hr _ _ Hb1).
  - intros b ib [[-> ->]|[Hne Hb1]]%Hcases; [done|]. by eapply Hf.
Qed.

(** A leader installs the record [newInflight] returned. *)
Lemma records_ok_leader (st : state V) c pick i m key :
  records_ok st → shards st !! i = Some m →
  records_ok (set_shard (newInflight zeroV st c pick).1 i
                (<[key := (newInflight zeroV st c pick).2]> m)).
Proof.
  intros [Hctx Hinj Hb Hc Hr Hf] Hi.
  destruct (LoaderSpec.newInflight_eq zeroV st c pick) as (a & pool' & na & _ & ->).
  simpl.
  assert (∀ b ib, <[a := fresh_record zeroV st c]> (heap st) !! b = Some ib →
            (b = a ∧ ib = fresh_record zeroV st c) ∨ (b ≠ a ∧ heap st !! b = Some ib))
    as Hcases.
  { intros b ib. destruct (decide (b = a)) as [->|Hne].
    - rewrite lookup_insert_eq. intros [= <-]. by left.
    - rewrite lookup_insert_ne by done. by right. }
  assert (∀ b ib, heap st !! b = Some ib → cancel ib ≠ inr (next_cancel st))
    as Hold.
  { intros b ib Hb1 Heq. destruct (Hctx _ _ Hb1) as (c' & n & _ & Hcn & Hlt).
    rewrite Hcn in Heq. injection Heq as ->. lia. }
  split; simpl.
  - intros b ib [[-> ->]|[_ Hb1]]%Hcases.
    + exists c, (next_cancel st). simpl. split_and!; [done|done|lia].
    + destruct (Hctx _ _ Hb1) as (c' & n & ? & ? & ?). exists c', n.
      split_and!; [done|done|lia].
  - intros b b' ib ib' [[-> ->]|[Hne Hb1]]%Hcases [[-> ->]|[Hne' Hb2]]%Hcases;
      simpl; intros Heq; try done.
    + symmetry in Heq. by apply Hold in Hb2.
    + by apply Hold in Hb1.
    + by eapply Hinj.
  - intros n Hin. apply Hb in Hin. lia.
  - intros b ib [[-> ->]|[Hne Hb1]]%Hcases; simpl.
    + intros Hin. apply Hb in Hin. lia.
    + intros Hin. destruct (Hc _ _ Hb1 Hin) as [Hrefs Hnr]. split; [done|].
      intros (i' & m' & k' & Hi' & Hk'). apply Hnr. simpl in Hi'.
      apply LoaderSpec.insert_lookup_cases in Hi' as [[-> ->]|[_ Hi']].
      * destruct (decide (k' = key)) as [->|Hk].
        -- rewrite lookup_insert_eq in Hk'. congruence.
        -- rewrite lookup_insert_ne in Hk' by done. by exists i, m, k'.
      * by exists i', m', k'.
  - intros b ib [[-> ->]|[Hne Hb1]]%Hcases; simpl; [lia|]. by eapply Hr.
  - intros b ib [[-> ->]|[Hne Hb1]]%Hcases; simpl; [done|]. by eapply Hf.
Qed.

(** *** Map entries stay in the shard of their key *)

Lemma keys_mono (st st' : state V) :
  keys_in_own_shard st →
  length (shards st') = length (shards st) →
  (∀ i m k b, shards st' !! i = Some m → m !! k = Some b →
     ∃ m0, shards st !! i = Some m0 ∧ m0 !! k = Some b) →
  keys_in_own_shard st'.
Proof.
  intros Hk Hlen Hsub i m k b Hi Hb.
  destruct (Hsub _ _ _ _ Hi Hb) as (m0 & Hi0 & Hb0).
  unfold shardFor. rewrite Hlen. by eapply (Hk i m0 k b).
Qed.

Lemma keys_leader (st : state V) c pick m key a :
  keys_in_own_shard st →
  shards st !! shardFor hashKey st key = Some m →
  keys_in_own_shard (set_shard (newInflight zeroV st c pick).1
                       (shardFor hashKey st key) (<[key := a]> m)).
Proof.
  intros Hk Hi i' m' k' b Hi' Hb'. simpl in Hi'.
  rewrite LoaderSpec.newInflight_shards in Hi'.
  assert (shardFor hashKey
            (set_shard (newInflight zeroV st c pick).1
               (shardFor hashKey st key) (<[key := a]> m)) k'
          = shardFor hashKey st k') as ->.
  { unfold shardFor. simpl. by rewrite length_insert, LoaderSpec.newInflight_shards. }
  apply LoaderSpec.insert_lookup_cases in Hi' as [[-> ->]|[_ Hi']].
  - destruct (decide (k' = key)) as [->|Hne]; [done|].
    rewrite lookup_insert_ne in Hb' by done. by eapply Hk.
  - by eapply Hk.
Qed.

(** *** What [releaseInflight] and [finishInflight] do to the world *)

Lemma release_spec (st st' : state V) key a shard :
  releaseInflight st key a shard = Some st' →
  ∃ inf m, heap st !! a = Some inf ∧ shards st !! shard = Some m ∧
    let last := bool_decide (refs inf - 1 ≤ 0) in
    let put := last && done inf && negb (pooled inf) in
    heap st' =
      <[a := set_pooled (set_refs inf (refs inf - 1)) (put || pooled inf)]> (heap st)
    ∧ shards st' =
        (if last && bool_decide (m !! key = Some a)
         then <[shard := delete key m]> (shards st) else shards st)
    ∧ cancelled st' =
        (if last then {[cancel inf]} ∪ cancelled st else cancelled st)
    ∧ inflightPool st' =
        (if put then a :: inflightPool st else inflightPool st)
    ∧ next_cancel st' = next_cancel st ∧ now st' = now st.
Proof.
  intros Hrel.
  destruct (LoaderSpec.release_cases _ _ _ _ _ Hrel) as (inf & m & Ha & Hm & ->).
  exists inf, m. split; [done|]. split; [done|]. simpl.
  assert (set_pooled (set_refs inf (refs inf - 1)) (pooled inf)
          = set_refs inf (refs inf - 1)) as Hsame by (by destruct inf).
  case_bool_decide as Hlast; simpl.
  - unfold released.
    destruct (done inf) eqn:Hd, (pooled inf) eqn:Hp; simpl;
      case_bool_decide; simpl; rewrite ?insert_insert_eq, ?Hd, ?Hp; simpl;
      rewrite ?insert_insert_eq, ?Hsame;
      split_and!; try done.
  - rewrite Hsame. split_and!; done.
Qed.

Lemma finish_spec (st st' : state V) a shard v e :
  finishInflight st a shard v e = Some st' →
  ∃ inf inf', heap st !! a = Some inf ∧
    heap st' = <[a := inf']> (heap st) ∧
    ctx inf' = ctx inf ∧ cancel inf' = cancel inf ∧ refs inf' = refs inf ∧
    done inf' = true ∧
    shards st' = shards st ∧ cancelled st' = cancelled st ∧
    next_cancel st' = next_cancel st.
Proof.
  intros Hfin.
  destruct (LoaderSpec.finish_cases _ _ _ _ _ _ Hfin) as (inf & Ha & _ & ->).
  destruct (bool_decide (refs inf ≤ 0) && negb (pooled inf)); simpl.
  - exists inf, (set_pooled (set_result inf v e) true).
    rewrite insert_insert_eq. by split_and!.
  - exists inf, (set_result inf v e). by split_and!.
Qed.

Lemma records_ok_release (st st' : state V) key a shard :
  records_ok st →
  (∀ i m k, shards st !! i = Some m → m !! k = Some a → i = shard ∧ k = key) →
  releaseInflight st key a shard = Some st' →
  records_ok st'.
Proof.
  intros Hok Huniq Hrel.
  pose proof Hok as [_ _ _ Hcd Hrl Hfr].
  destruct (release_spec _ _ _ _ _ Hrel)
    as (inf & m & Ha & Hm & Hh & Hs & Hc & _ & Hn & _).
  assert (∀ b, registered st' b → registered st b) as Hreg.
  { intros b (i & m' & k & Hi & Hk). rewrite Hs in Hi.
    destruct (bool_decide (refs inf - 1 ≤ 0) && bool_decide (m !! key = Some a));
      [|by exists i, m', k].
    apply LoaderSpec.insert_lookup_cases in Hi as [[-> ->]|[_ Hi]].
    - apply lookup_delete_Some in Hk as [_ Hk]. by exists shard, m, k.
    - by exists i, m', k. }
  eapply (records_ok_update st st' a inf); try done.
  - intros id Hin. rewrite Hc. destruct (bool_decide _); [|done].
    apply elem_of_union. by right.
  - intros id. rewrite Hc. destruct (bool_decide _); [|by left].
    intros [->%elem_of_singleton|?]%elem_of_union; [by right|by left].
  - simpl. intros Hin. rewrite Hc in Hin. case_bool_decide as Hlast.
    + split; [done|].
      intros (i & m' & k & Hi & Hk). rewrite Hs in Hi. simpl in Hi.
      case_bool_decide as Hcur; simpl in Hi.
      * apply LoaderSpec.insert_lookup_cases in Hi as [[-> ->]|[Hne Hi]].
        -- apply lookup_delete_Some in Hk as [Hk1 Hk].
           destruct (Huniq _ _ _ Hm Hk) as [_ ->]. done.
        -- destruct (Huniq _ _ _ Hi Hk) as [-> _]. done.
      * destruct (Huniq _ _ _ Hi Hk) as [-> ->]. congruence.
    + destruct (Hcd _ _ Ha Hin) as [Hrefs _]. lia.
  - simpl. intros Hrefs. rewrite Hc, bool_decide_true by done.
    apply elem_of_union. left. by apply elem_of_singleton.
  - simpl. by apply (Hfr a inf Ha).
Qed.

Lemma records_ok_finish (st st' : state V) a shard v e :
  records_ok st → finishInflight st a shard v e = Some st' → records_ok st'.
Proof.
  intros Hok Hfin.
  pose proof Hok as [_ _ _ Hcd Hrl Hfr].
  destruct (finish_spec _ _ _ _ _ _ Hfin)
    as (inf & inf' & Ha & Hh & Hcx & Hcl & Hrefs & Hd & Hs & Hc & Hn).
  eapply (records_ok_update st st' a inf inf'); try done.
  - intros b (i & m & k & Hi & Hk). exists i, m, k. by rewrite <- Hs.
  - intros id. by rewrite Hc.
  - intros id. rewrite Hc. by left.
  - rewrite Hc, Hrefs. intros Hin.
    destruct (Hcd _ _ Ha Hin) as [? Hnr]. split; [done|].
    intros (i & m & k & Hi & Hk). apply Hnr. exists i, m, k. by rewrite <- Hs.
  - rewrite Hc, Hrefs. by apply (Hrl a inf Ha).
  - by rewrite Hd.
Qed.

Lemma records_ok_acquire (st st' : state V) c key pick r :
  records_ok st → acquireInflight zeroV hashKey st c key pick = Some (st', r) →
  records_ok st'.
Proof.
  intros Hok Hacq. destruct r as [[a leader] i].
  pose proof Hok as [_ _ _ Hcd Hrl Hfr].
  destruct (LoaderSpec.acquire_cases _ _ _ _ _ _ _ _ _ _ Hacq)
    as (-> & m & Hm & [(-> & _ & -> & ->)|(-> & inf & Hk & Ha & _ & ->)]).
  - by apply records_ok_leader.
  - eapply (records_ok_update st _ a inf (set_refs inf (refs inf + 1)));
      try done; simpl.
    + intros id Hin. by left.
    + intros Hin. destruct (Hcd _ _ Ha Hin) as [_ Hnr].
      destruct Hnr. by exists (shardFor hashKey st key), m, key.
    + intros Hrefs. apply (Hrl _ _ Ha). lia.
    + by apply (Hfr a inf Ha).
Qed.

Lemma keys_acquire (st st' : state V) c key pick r :
  keys_in_own_shard st →
  acquireInflight zeroV hashKey st c key pick = Some (st', r) →
  keys_in_own_shard st'.
Proof.
  intros Hk Hacq. destruct r as [[a leader] i].
  destruct (LoaderSpec.acquire_cases _ _ _ _ _ _ _ _ _ _ Hacq)
    as (-> & m & Hm & [(-> & _ & _ & ->)|(-> & inf & _ & _ & _ & ->)]).
  - by apply keys_leader.
  - done.
Qed.

(** Every step keeps the invariants. *)
Lemma inv_records_step (s s' : system V) act :
  inv_records s → step s act = Some s' → inv_records s'.
Proof.
  intros (Hinv & Hok & Hkeys) Hstep.
  split; [by eapply LoaderSpec.inv_step|].
  assert (∀ tid c a key shard st',
            callers s !! tid = Some c → caller_ref c = Some (a, key, shard) →
            releaseInflight (ldr s) key a shard = Some st' →
            records_ok st' ∧ keys_in_own_shard st') as Hrelease.
  { intros tid c a key shard st' Hc Href Hrel. split.
    - eapply records_ok_release; [done| |done].
      intros i m k Hi Hk. by eapply (inv_holder s Hinv).
    - destruct (LoaderSpec.release_effect _ _ _ _ _ Hrel)
        as (inf & inf' & _ & _ & _ & _ & _ & _ & _ & Hlen & Hsub & _).
      by eapply keys_mono. }
  apply LoaderSpec.step_steps_to in Hstep.
  destruct Hstep as
    [c key|tid pick c key st inf leader shard Hc Hacq
    |tid c key inf leader shard Hc|tid c key inf leader shard i0 Hc Hi
    |tid e c key inf leader shard ch0 Hc HD He
    |tid c key inf leader shard ch0 Hc Hcl
    |tid c key inf leader shard ch0 i0 Hc Hi
    |tid key inf leader shard v e ch0 st Hc Hrel
    |tid key inf leader shard e st Hc Hrel
    |k c inf shard Hk|k v e inf shard st Hk Hfin|n|d Hd];
    simpl; try done.
  - split; [by eapply records_ok_acquire|by eapply keys_acquire].
  - by eapply (Hrelease tid _ inf key shard).
  - by eapply (Hrelease tid _ inf key shard).
  - split; [by eapply records_ok_env|done].
  - split; [by eapply records_ok_finish|].
    match goal with
    | Hfin : finishInflight _ _ _ _ _ = Some _ |- _ =>
        destruct (finish_spec _ _ _ _ _ _ Hfin)
          as (inf0 & inf' & _ & _ & _ & _ & _ & _ & Hs & _)
    end.
    eapply keys_mono; [done|by rewrite Hs|].
    intros i m key0 b Hi Hb. exists m. by rewrite <- Hs.
  - split; [|done]. eapply records_ok_env; try done; simpl.
    + intros id Hin. apply elem_of_union. by right.
    + intros n' [Hin%elem_of_singleton|Hin]%elem_of_union; done.
  - split; [by eapply records_ok_env|done].
Qed.

Lemma inv_records_initial g : inv_records (initial g).
Proof.
  split; [apply LoaderSpec.inv_initial, LoaderSpec.shardCount_pos|].
  split; [apply records_ok_initial|].
  intros i m k a Hi Hk. simpl in Hi.
  apply lookup_replicate in Hi as [-> _]. by rewrite lookup_empty in Hk.
Qed.

Lemma reachable_inv_records g (s : system V) :
  reachable g s → inv_records s.
Proof.
  induction 1 as [|s act s' _ IH Hstep]; [apply inv_records_initial|].
  by eapply inv_records_step.
Qed.

(** *** Consequences *)

Lemma holds_pos a (c : caller V) :
  1 ≤ holds a c → ∃ key shard, caller_ref c = Some (a, key, shard).
Proof.
  unfold holds. destruct (caller_ref c) as [[[b key] shard]|]; [|lia].
  case_bool_decide; [|lia]. subst. eauto.
Qed.

Lemma holder_refs (s : system V) tid c a key shard inf :
  inv s → callers s !! tid = Some c → caller_ref c = Some (a, key, shard) →
  heap (ldr s) !! a = Some inf →
  1 ≤ refs inf ∧ pooled inf = false.
Proof.
  intros Hinv Hc Href Ha.
  assert (1 ≤ refs inf) as Hrefs.
  { rewrite (inv_refs s Hinv _ _ Ha).
    pose proof (LoaderSpec.tally_lookup_le (holds a) (callers s) tid c
                  (LoaderSpec.holds_nonneg a) Hc) as Hle.
    rewrite (LoaderSpec.holds_ref a c a key shard Href) in Hle.
    rewrite bool_decide_true in Hle by done. done. }
  split; [done|].
  destruct (pooled inf) eqn:Hp; [|done].
  destruct (wf_pooled _ (inv_wf s Hinv) _ _ Ha Hp) as [_ ?]. lia.
Qed.

Lemma done_iff_released (s : system V) a inf :
  inv_records s → heap (ldr s) !! a = Some inf →
  Done (the_world (ldr s)) (ctx inf) = bool_decide (refs inf ≤ 0)
  ∧ Deadline (ctx inf) = None.
Proof.
  intros (Hinv & [Hctx _ _ Hcd Hrl _] & _) Ha.
  destruct (Hctx _ _ Ha) as (c & n & -> & Hcn & _). simpl.
  split; [|done]. rewrite orb_false_r. apply bool_decide_ext.
  rewrite <- Hcn. split.
  - intros Hin. by destruct (Hcd _ _ Ha Hin).
  - by apply (Hrl _ _ Ha).
Qed.

(** X9: in every state the loader reaches, a map entry lies in the shard
    [shardFor] selects for its key, so a key has at most one entry in the
    whole loader and a record is entered under at most one key.
    [acquireInflight] for a key that has an entry looks into that shard and
    finds it: the caller leads exactly when the record is done, and joins
    that very record otherwise. *)
Theorem key_registered_in_own_shard g (s : system V) :
  reachable g s →
  let st := ldr s in
  (∀ i m k a, shards st !! i = Some m → m !! k = Some a →
     i = shardFor hashKey st k)
  ∧ (∀ i i' m m' k a a', shards st !! i = Some m → m !! k = Some a →
       shards st !! i' = Some m' → m' !! k = Some a' → i = i' ∧ a = a')
  ∧ (∀ i i' m m' k k' a, shards st !! i = Some m → m !! k = Some a →
       shards st !! i' = Some m' → m' !! k' = Some a → i = i' ∧ k = k')
  ∧ (∀ i m k a c pick, shards st !! i = Some m → m !! k = Some a →
       ∃ st' b leader inf,
         acquireInflight zeroV hashKey st c k pick = Some (st', (b, leader, i))
         ∧ heap st !! a = Some inf ∧ leader = done inf
         ∧ (leader = false → b = a)).
Proof.
  intros Hr st. subst st.
  destruct (reachable_inv_records g s Hr) as (Hinv & Hok & Hkeys).
  pose proof (inv_wf s Hinv) as Hwf.
  split_and!.
  - exact Hkeys.
  - intros i i' m m' k a a' Hi Hk Hi' Hk'.
    pose proof (Hkeys _ _ _ _ Hi Hk) as E1.
    pose proof (Hkeys _ _ _ _ Hi' Hk') as E2.
    assert (i = i') as <- by congruence. split; [done|]. congruence.
  - intros i i' m m' k k' a Hi Hk Hi' Hk'.
    by eapply (wf_map_unique _ Hwf).
  - intros i m k a c pick Hi Hk.
    destruct (LoaderSpec.acquire_enabled zeroV hashKey s c k pick Hinv)
      as [[st' [[b leader] j]] Hacq].
    destruct (LoaderSpec.acquire_cases _ _ _ _ _ _ _ _ _ _ Hacq)
      as (-> & m0 & Hm0 & Hcase).
    pose proof (Hkeys _ _ _ _ Hi Hk) as ->.
    assert (m0 = m) as -> by congruence.
    destruct (wf_map _ Hwf _ _ _ _ Hi Hk) as (inf & Ha & _).
    exists st', b, leader, inf. split; [done|]. split; [done|].
    destruct Hcase as [(-> & Hsup & _)|(-> & inf' & Hk' & Ha' & Hopen & _)].
    + destruct Hsup as [Hnone|(a0 & inf0 & Hk0 & Ha0 & Hcl)]; [congruence|].
      assert (a0 = a) as -> by congruence.
      assert (inf0 = inf) as -> by congruence.
      split; [|done]. symmetry. by apply (wf_done_closed _ Hwf _ _ Ha).
    + assert (b = a) as -> by congruence.
      assert (inf' = inf) as -> by congruence.
      split; [|done]. symmetry.
      destruct (done inf) eqn:Hd; [|done].
      destruct Hopen. by apply (wf_done_closed _ Hwf _ _ Ha).
Qed.

(** X10: the reference count of a record is the number of callers inside
    [load] that hold it, and is never negative.  A record that a map points
    to is held by a caller and is not pooled; a caller that holds a record
    will release it under the key and the shard of its map entry; a record
    in the pool has no holder and is done. *)
Theorem refs_counts_holders g (s : system V) (a : nat) (inf : inflight V) :
  reachable g s → heap (ldr s) !! a = Some inf →
  refs inf = holders a (callers s)
  ∧ 0 ≤ refs inf
  ∧ (registered (ldr s) a → 1 ≤ refs inf ∧ pooled inf = false)
  ∧ (1 ≤ refs inf →
     ∃ tid c key shard,
       callers s !! tid = Some c ∧ caller_ref c = Some (a, key, shard))
  ∧ (∀ tid c key shard, callers s !! tid = Some c →
       caller_ref c = Some (a, key, shard) →
       1 ≤ refs inf ∧ pooled inf = false ∧
       ∀ i m k, shards (ldr s) !! i = Some m → m !! k = Some a →
                i = shard ∧ k = key)
  ∧ (a ∈ inflightPool (ldr s) → refs inf = 0 ∧ done inf = true).
Proof.
  intros Hr Ha.
  pose proof (LoaderSpec.reachable_inv zeroV hashKey g s Hr) as Hinv.
  pose proof (inv_wf s Hinv) as Hwf.
  pose proof (LoaderSpec.refs_nonneg zeroV s a inf Hinv Ha) as Hnn.
  split_and!.
  - by apply (inv_refs s Hinv).
  - done.
  - intros (i & m & k & Hi & Hk).
    destruct (wf_map _ Hwf _ _ _ _ Hi Hk) as (inf' & Ha' & ? & ?).
    by assert (inf' = inf) as -> by congruence.
  - intros Hrefs. rewrite (inv_refs s Hinv _ _ Ha) in Hrefs.
    destruct (tally_pos _ _ Hrefs) as (tid & c & Hc & Hh).
    destruct (holds_pos _ _ Hh) as (key & shard & Href).
    by exists tid, c, key, shard.
  - intros tid c key shard Hc Href.
    destruct (holder_refs s tid c a key shard inf Hinv Hc Href Ha) as [? ?].
    split_and!; [done|done|].
    intros i m k Hi Hk. by eapply (inv_holder s Hinv).
  - intros Hin.
    destruct (wf_pool _ Hwf _ Hin) as (inf' & Ha' & Hp).
    assert (inf' = inf) as -> by congruence.
    destruct (wf_pooled _ Hwf _ _ Ha Hp) as [? ?]. split; [lia|done].
Qed.

(** X11: [load] leaves nothing behind.  When no caller is between
    [acquireInflight] and [releaseInflight], every shard map is empty, every
    record has [refs = 0] and the load context of every record has been
    cancelled. *)
Theorem no_entry_left_behind g (s : system V) :
  reachable g s →
  (∀ tid c, callers s !! tid = Some c → caller_ref c = None) →
  (∀ i m, shards (ldr s) !! i = Some m → m = ∅)
  ∧ (∀ a inf, heap (ldr s) !! a = Some inf →
       refs inf = 0 ∧ Done (the_world (ldr s)) (ctx inf) = true).
Proof.
  intros Hr Hidle.
  pose proof (reachable_inv_records g s Hr) as Hir.
  pose proof Hir as (Hinv & _ & _).
  pose proof (inv_wf s Hinv) as Hwf.
  assert (∀ a inf, heap (ldr s) !! a = Some inf → refs inf = 0) as Hzero.
  { intros a inf Ha. rewrite (inv_refs s Hinv _ _ Ha).
    apply LoaderSpec.holders_zero. intros tid c Hc.
    by apply LoaderSpec.holds_none, (Hidle tid). }
  split.
  - intros i m Hi. apply map_empty. intros k.
    destruct (m !! k) as [a|] eqn:Hk; [|done].
    destruct (wf_map _ Hwf _ _ _ _ Hi Hk) as (inf & Ha & Hrefs & _).
    rewrite (Hzero _ _ Ha) in Hrefs. lia.
  - intros a inf Ha. split; [by eapply Hzero|].
    destruct (done_iff_released s a inf Hir Ha) as [-> _].
    rewrite (Hzero _ _ Ha). by apply bool_decide_true.
Qed.

(** X12: a record is fetched once.  A record that is not done has exactly
    one fetch ahead of it, a leader about to run its [go] statement or the
    goroutine itself, and a record that is done has none: no two goroutines
    fetch for the same record, and a goroutine inside the fetch works on a
    record that is not done. *)
Theorem one_fetch_per_record g (s : system V) (a : nat) (inf : inflight V) :
  reachable g s → heap (ldr s) !! a = Some inf →
  pending a s = (if done inf then 0 else 1)
  ∧ (∀ k k' sh sh', tasks s !! k = Some (Fetching a sh) →
       tasks s !! k' = Some (Fetching a sh') → k = k')
  ∧ (∀ k sh, tasks s !! k = Some (Fetching a sh) →
       done inf = false ∧
       ∀ tid c, callers s !! tid = Some c → to_start a c = 0)
  ∧ (done inf = true →
       (∀ k t, tasks s !! k = Some t → runs a t = 0) ∧
       (∀ tid c, callers s !! tid = Some c → to_start a c = 0)).
Proof.
  intros Hr Ha.
  pose proof (LoaderSpec.reachable_inv zeroV hashKey g s Hr) as Hinv.
  pose proof (inv_pending s Hinv _ _ Ha) as Hp. unfold pending in *.
  pose proof (LoaderSpec.tally_nonneg (to_start a) (callers s)
                (LoaderSpec.to_start_nonneg a)) as Hts.
  pose proof (LoaderSpec.tally_nonneg (runs a) (tasks s)
                (LoaderSpec.runs_nonneg a)) as Hrs.
  assert (∀ sh, runs a (Fetching a sh) = 1) as Hrun1.
  { intros sh. simpl. by rewrite bool_decide_true. }
  split_and!.
  - done.
  - intros k k' sh sh' Hk Hk'.
    destruct (decide (k = k')) as [|Hne]; [done|].
    pose proof (tally_two (runs a) (tasks s) k k' _ _
                  (LoaderSpec.runs_nonneg a) Hne Hk Hk') as Hle.
    rewrite !Hrun1 in Hle.
    destruct (done inf); lia.
  - intros k sh Hk.
    pose proof (LoaderSpec.tally_lookup_le (runs a) (tasks s) k _
                  (LoaderSpec.runs_nonneg a) Hk) as Hle.
    rewrite Hrun1 in Hle.
    split; [destruct (done inf); [lia|done]|].
    intros tid c Hc.
    pose proof (LoaderSpec.tally_lookup_le (to_start a) (callers s) tid c
                  (LoaderSpec.to_start_nonneg a) Hc) as Hle'.
    pose proof (LoaderSpec.to_start_nonneg a c).
    destruct (done inf); lia.
  - intros Hd. rewrite Hd in Hp. split.
    + intros k t Hk.
      pose proof (LoaderSpec.tally_lookup_le (runs a) (tasks s) k t
                    (LoaderSpec.runs_nonneg a) Hk).
      pose proof (LoaderSpec.runs_nonneg a t). lia.
    + intros tid c Hc.
      pose proof (LoaderSpec.tally_lookup_le (to_start a) (callers s) tid c
                    (LoaderSpec.to_start_nonneg a) Hc).
      pose proof (LoaderSpec.to_start_nonneg a c). lia.
Qed.

(** X13: the load context of a record is done exactly when no caller
    holds the record any more, and it has no deadline.  While a caller
    holds the record the fetch is not cancelled, whatever cancel functions
    the callers' environment calls and however much time passes. *)
Theorem load_context_done_iff_released g (s : system V) (a : nat)
    (inf : inflight V) :
  reachable g s → heap (ldr s) !! a = Some inf →
  Done (the_world (ldr s)) (ctx inf) = bool_decide (refs inf = 0)
  ∧ Deadline (ctx inf) = None
  ∧ (∀ tid c key shard, callers s !! tid = Some c →
       caller_ref c = Some (a, key, shard) →
       Done (the_world (ldr s)) (ctx inf) = false)
  ∧ (∀ n s', step s (ActCancel n) = Some s' →
       heap (ldr s') = heap (ldr s) ∧
       Done (the_world (ldr s')) (ctx inf) = Done (the_world (ldr s)) (ctx inf))
  ∧ (∀ d s', step s (ActTick d) = Some s' →
       heap (ldr s') = heap (ldr s) ∧
       Done (the_world (ldr s')) (ctx inf) = Done (the_world (ldr s)) (ctx inf)).
Proof.
  intros Hr Ha.
  pose proof (reachable_inv_records g s Hr) as Hir.
  pose proof Hir as (Hinv & _ & _).
  destruct (done_iff_released s a inf Hir Ha) as [HD Hdl].
  pose proof (LoaderSpec.refs_nonneg zeroV s a inf Hinv Ha) as Hnn.
  assert (∀ act s', step s act = Some s' → heap (ldr s') = heap (ldr s) →
            Done (the_world (ldr s')) (ctx inf) = Done (the_world (ldr s)) (ctx inf))
    as Henv.
  { intros act s' Hstep Hh.
    pose proof (inv_records_step s s' act Hir Hstep) as Hir'.
    rewrite <- Hh in Ha.
    destruct (done_iff_released s' a inf Hir' Ha) as [-> _]. by rewrite HD. }
  split_and!.
  - rewrite HD. apply bool_decide_ext. lia.
  - done.
  - intros tid c key shard Hc Href.
    destruct (holder_refs s tid c a key shard inf Hinv Hc Href Ha) as [? _].
    rewrite HD. apply bool_decide_false. lia.
  - intros n s' Hstep.
    assert (heap (ldr s') = heap (ldr s)) as Hh
      by (simpl in Hstep; by injection Hstep as <-).
    split; [done|]. by eapply Henv.
  - intros d s' Hstep.
    assert (heap (ldr s') = heap (ldr s)) as Hh.
    { simpl in Hstep. case_bool_decide; [|done]. by injection Hstep as <-. }
    split; [done|]. by eapply Henv.
Qed.

(** X14: [releaseInflight] by a caller that holds the record does not
    panic.  It takes one from [refs] and leaves the entries of all other
    records alone.  When the caller is the last holder, the record is in no
    map afterwards, its load context is cancelled, and it goes to the pool
    exactly when its fetch has completed; otherwise the maps, the cancelled
    contexts and the pool are as before and the load context is not
    done. *)
Theorem release_last_reference g (s : system V) (tid : nat) (c : caller V)
    (a : nat) (key : string) (shard : nat) (inf : inflight V) :
  reachable g s →
  callers s !! tid = Some c → caller_ref c = Some (a, key, shard) →
  heap (ldr s) !! a = Some inf →
  ∃ st',
    releaseInflight (ldr s) key a shard = Some st'
    ∧ 1 ≤ refs inf
    ∧ heap st' =
        <[a := set_pooled (set_refs inf (refs inf - 1))
                 (bool_decide (refs inf = 1) && done inf)]> (heap (ldr s))
    ∧ same_entries_but a (ldr s) st'
    ∧ if bool_decide (refs inf = 1)
      then ¬ registered st' a
           ∧ cancelled st' = {[cancel inf]} ∪ cancelled (ldr s)
           ∧ Done (the_world st') (ctx inf) = true
           ∧ inflightPool st' =
               (if done inf then a :: inflightPool (ldr s)
                else inflightPool (ldr s))
      else shards st' = shards (ldr s)
           ∧ cancelled st' = cancelled (ldr s)
           ∧ Done (the_world st') (ctx inf) = false
           ∧ inflightPool st' = inflightPool (ldr s).
Proof.
  intros Hr Hc Href Ha.
  pose proof (reachable_inv_records g s Hr) as Hir.
  pose proof Hir as (Hinv & Hok & _).
  destruct (holder_refs s tid c a key shard inf Hinv Hc Href Ha) as [Hrefs Hnp].
  destruct (LoaderSpec.release_enabled zeroV s tid c a key shard Hinv Hc Href)
    as [st' Hrel].
  assert (∀ i m k, shards (ldr s) !! i = Some m → m !! k = Some a →
                   i = shard ∧ k = key) as Huniq.
  { intros i m k Hi Hk. by eapply (inv_holder s Hinv). }
  pose proof (records_ok_release _ _ _ _ _ Hok Huniq Hrel) as Hok'.
  destruct (release_spec _ _ _ _ _ Hrel)
    as (inf0 & m & Ha0 & Hm & Hh & Hs & Hcl & Hpool & Hn & Hnow).
  assert (inf0 = inf) as -> by congruence.
  assert (bool_decide (refs inf - 1 ≤ 0) = bool_decide (refs inf = 1)) as Hlast
    by (apply bool_decide_ext; lia).
  simpl in Hh, Hs, Hcl, Hpool. rewrite Hlast, Hnp in *.
  rewrite orb_false_r, andb_true_r in Hh. rewrite andb_true_r in Hpool.
  assert (heap st' !! a =
          Some (set_pooled (set_refs inf (refs inf - 1))
                  (bool_decide (refs inf = 1) && done inf))) as Ha'
    by (by rewrite Hh, lookup_insert_eq).
  pose proof Hok' as [Hctx' _ _ Hcd' Hrl' _].
  exists st'. split; [done|]. split; [done|]. split; [done|]. split.
  - intros i k b Hne. rewrite Hs.
    destruct (bool_decide (refs inf = 1) && bool_decide (m !! key = Some a))
      eqn:Hcond; [|done].
    apply andb_true_iff in Hcond as [_ Hcur%bool_decide_eq_true].
    pose proof (lookup_lt_Some _ _ _ Hm) as Hlt.
    destruct (decide (i = shard)) as [->|Hi].
    + rewrite list_lookup_insert_eq by done. split.
      * intros (m' & [= <-] & [_ Hk]%lookup_delete_Some). by exists m.
      * intros (m' & Hm' & Hk). assert (m' = m) as -> by congruence.
        eexists. split; [done|]. apply lookup_delete_Some. split; [|done].
        intros ->. congruence.
    + by rewrite list_lookup_insert_ne.
  - destruct (Hctx' _ _ Ha') as (c0 & n & Hc0 & Hcn & _). simpl in Hc0, Hcn.
    case_bool_decide as H1; simpl in *.
    + assert (cancel inf ∈ cancelled st') as Hin.
      { rewrite Hcl. apply elem_of_union. left. by apply elem_of_singleton. }
      destruct (Hcd' _ _ Ha' Hin) as [_ Hnr].
      split_and!; [done|done| |done].
      rewrite Hc0. simpl. rewrite <- Hcn, bool_decide_true; done.
    + split_and!; [done|done| |done].
      rewrite Hc0. simpl. rewrite orb_false_r, <- Hcn.
      apply bool_decide_false. intros Hin.
      destruct (Hcd' _ _ Ha' Hin) as [Hle _]. simpl in Hle. lia.
Qed.

(** X15: [load] and the fetch goroutine do not panic.  In every state
    the loader reaches, a caller at any point of [load] and a goroutine at
    any point of the fetch can take its next step: [acquireInflight] finds
    its shard, [finishInflight] closes a channel that is open, and the
    record is there to be read and released.  The [select] lets a caller
    through on the record's channel exactly when the record is done, and on
    its own context exactly when that context is done. *)
Theorem load_never_panics g (s : system V) :
  reachable g s →
  (∀ tid c key pick, callers s !! tid = Some (Calling c key) →
     is_Some (step s (ActAcquire tid pick)))
  ∧ (∀ tid c key a leader shard,
       callers s !! tid = Some (Acquired c key a leader shard true) →
       is_Some (step s (ActSpawn tid)))
  ∧ (∀ tid c key a leader shard,
       callers s !! tid = Some (Acquired c key a leader shard false) →
       is_Some (step s (ActSelect tid)))
  ∧ (∀ tid c key a leader shard ch,
       callers s !! tid = Some (Waiting c key a leader shard ch) →
       (is_Some (step s (ActDoneCh tid)) ↔
        ∃ inf, heap (ldr s) !! a = Some inf ∧ done inf = true) ∧
       (∀ e, is_Some (step s (ActCtxDone tid e)) ↔
             Done (the_world (ldr s)) c = true ∧ is_ctx_err e = true))
  ∧ (∀ tid c key a leader shard ch,
       callers s !! tid = Some (Woken c key a leader shard ch) →
       is_Some (step s (ActRead tid)))
  ∧ (∀ tid key a leader shard v e ch,
       callers s !! tid = Some (Loaded key a leader shard v e ch) →
       is_Some (step s (ActRelease tid)))
  ∧ (∀ tid key a leader shard e,
       callers s !! tid = Some (Cancelled key a leader shard e) →
       is_Some (step s (ActRelease tid)))
  ∧ (∀ k c a shard, tasks s !! k = Some (Spawned c a shard) →
       is_Some (step s (ActRecordLoad k)))
  ∧ (∀ k a shard v e, tasks s !! k = Some (Fetching a shard) →
       is_Some (step s (ActFinish k v e))).
Proof.
  intros Hr.
  pose proof (LoaderSpec.reachable_inv zeroV hashKey g s Hr) as Hinv.
  pose proof (inv_wf s Hinv) as Hwf.
  split_and!.
  - intros tid c key pick Hc. simpl. rewrite Hc.
    destruct (LoaderSpec.acquire_enabled zeroV hashKey s c key pick Hinv)
      as [[st' [[a leader] i]] ->]. simpl. eauto.
  - intros tid c key a leader shard Hc. simpl. rewrite Hc. eauto.
  - intros tid c key a leader shard Hc. simpl. rewrite Hc.
    destruct (inv_callers s Hinv _ _ Hc) as ([inf ->] & _). simpl. eauto.
  - intros tid c key a leader shard ch Hc.
    destruct (inv_callers s Hinv _ _ Hc) as ((inf & Ha & Hch) & _).
    split.
    + simpl. rewrite Hc. split.
      * case_bool_decide as Hcl; [|by intros [? ?]]. intros _.
        exists inf. split; [done|]. apply (wf_done_closed _ Hwf _ _ Ha).
        by rewrite Hch.
      * intros (inf' & Ha' & Hd). assert (inf' = inf) as -> by congruence.
        apply (wf_done_closed _ Hwf _ _ Ha) in Hd. rewrite Hch in Hd.
        rewrite bool_decide_true by done. eauto.
    + intros e. simpl. rewrite Hc.
      destruct (Done (the_world (ldr s)) c), (is_ctx_err e); simpl;
        split; try done; try (by intros [? ?]); eauto.
  - intros tid c key a leader shard ch Hc. simpl. rewrite Hc.
    destruct (inv_callers s Hinv _ _ Hc) as ((inf & -> & _) & _). simpl. eauto.
  - intros tid key a leader shard v e ch Hc. simpl. rewrite Hc.
    destruct (LoaderSpec.release_enabled zeroV s tid _ a key shard Hinv Hc eq_refl)
      as [st' ->]. simpl. destruct (load_result zeroV v e leader) as [[? ?] ?]. eauto.
  - intros tid key a leader shard e Hc. simpl. rewrite Hc.
    destruct (LoaderSpec.release_enabled zeroV s tid _ a key shard Hinv Hc eq_refl)
      as [st' ->]. simpl. eauto.
  - intros k c a shard Hk. simpl. rewrite Hk. eauto.
  - intros k a shard v e Hk. simpl. rewrite Hk.
    destruct (LoaderSpec.finish_enabled zeroV s k a shard v e Hinv Hk)
      as (inf & _ & _ & [st' ->]). simpl. eauto.
Qed.

(** A caller that waits while the fetch of its record runs. *)
Lemma waiter_served (s : system V) (k a sh tid : nat)
    (c : Context) (key : string) (leader : bool) (shard ch : nat)
    (v : V) (e : option error) :
  inv s →
  tasks s !! k = Some (Fetching a sh) →
  callers s !! tid = Some (Waiting c key a leader shard ch) →
  step s (ActDoneCh tid) = None
  ∧ ∃ s',
      run s [ActFinish k v e; ActDoneCh tid; ActRead tid; ActRelease tid] = Some s'
      ∧ callers s' !! tid =
          Some (Returned (if e is Some _ then zeroV else v) leader e (Some ch)).
Proof.
  intros Hinv Hk Hc.
  pose proof (inv_wf s Hinv) as Hwf.
  destruct (LoaderSpec.finish_enabled zeroV s k a sh v e Hinv Hk)
    as (inf & Ha & Hd & [st1 Hfin]).
  destruct (inv_callers s Hinv _ _ Hc) as ((inf0 & Ha0 & Hch) & _).
  assert (inf0 = inf) as -> by congruence.
  pose proof (lookup_lt_Some _ _ _ Hc) as Hlt.
  split.
  { simpl. rewrite Hc, bool_decide_false; [done|].
    rewrite <- Hch. intros Hcl. apply (wf_done_closed _ Hwf _ _ Ha) in Hcl.
    congruence. }
  destruct (LoaderSpec.finish_effect _ _ _ _ _ _ Hfin)
    as (inf1 & inf' & Ha1 & _ & Hh & _ & _ & _ & Hv & He & _ & Hcl & _).
  assert (inf1 = inf) as -> by congruence.
  (* the fetch completes *)
  set (s1 := set_task s st1 k Exited).
  assert (step s (ActFinish k v e) = Some s1) as Hs1.
  { simpl. rewrite Hk, Hfin. done. }
  pose proof (LoaderSpec.inv_step zeroV hashKey _ _ _ Hinv Hs1) as Hinv1.
  (* the caller receives from the channel *)
  set (s2 := set_caller s1 (ldr s1) tid (Woken c key a leader shard ch)).
  assert (step s1 (ActDoneCh tid) = Some s2) as Hs2.
  { simpl. rewrite Hc, bool_decide_true; [done|].
    rewrite Hcl, Hch. apply elem_of_union. left. by apply elem_of_singleton. }
  pose proof (LoaderSpec.inv_step zeroV hashKey _ _ _ Hinv1 Hs2) as Hinv2.
  (* it reads the result *)
  set (s3 := set_caller s2 (ldr s2) tid (Loaded key a leader shard v e ch)).
  assert (step s2 (ActRead tid) = Some s3) as Hs3.
  { simpl. rewrite list_lookup_insert_eq by done. simpl.
    rewrite Hh, lookup_insert_eq. simpl. by rewrite Hv, He. }
  pose proof (LoaderSpec.inv_step zeroV hashKey _ _ _ Hinv2 Hs3) as Hinv3.
  (* and releases the record *)
  assert (callers s3 !! tid = Some (Loaded key a leader shard v e ch)) as Hc3.
  { simpl. rewrite list_lookup_insert_eq; [done|]. by rewrite length_insert. }
  destruct (LoaderSpec.release_enabled zeroV s3 tid _ a key shard Hinv3 Hc3 eq_refl)
    as [st4 Hrel].
  exists (set_caller s3 st4 tid
            (Returned (if e is Some _ then zeroV else v) leader e (Some ch))).
  split.
  - cbn [Loader.run]. rewrite Hs1. cbn [mbind option_bind]. rewrite Hs2.
    cbn [mbind option_bind]. rewrite Hs3. cbn [mbind option_bind].
    assert (step s3 (ActRelease tid) =
            Some (set_caller s3 st4 tid
                    (Returned (if e is Some _ then zeroV else v) leader e (Some ch))))
      as ->; [|done].
    unfold Loader.step. rewrite Hc3, Hrel. simpl. by destruct e.
  - simpl. rewrite list_lookup_insert_eq; [done|]. by rewrite !length_insert.
Qed.

(** X16: a caller that waits on a record while its fetch runs cannot pass
    the [select] on the record's channel before [finishInflight]; once the
    fetch completes with [(v, e)] the caller can receive, read and release,
    and it returns [e] with its own leader flag, and [v] or, when [e] is an
    error, the zero value. *)
Theorem finish_delivers_to_waiters g (s : system V) (k a sh tid : nat)
    (c : Context) (key : string) (leader : bool) (shard ch : nat)
    (v : V) (e : option error) :
  reachable g s →
  tasks s !! k = Some (Fetching a sh) →
  callers s !! tid = Some (Waiting c key a leader shard ch) →
  step s (ActDoneCh tid) = None
  ∧ ∃ s',
      run s [ActFinish k v e; ActDoneCh tid; ActRead tid; ActRelease tid] = Some s'
      ∧ callers s' !! tid =
          Some (Returned (if e is Some _ then zeroV else v) leader e (Some ch)).
Proof.
  intros Hr Hk Hc.
  apply (waiter_served s k a sh tid c key leader shard ch v e); [|done|done].
  by eapply LoaderSpec.reachable_inv.
Qed.

(** X17: [newInflight] on a state the loader reaches.  The record it
    returns has every field as written by [newInflight], whether it was
    allocated or came out of the pool; it is out of the pool, no map points
    to it, no caller holds it and no goroutine fetches for it; all other
    records are untouched; the channel and the cancel function it gets are
    new, open and not cancelled.  A record that came out of the pool was
    done with [refs = 0]. *)
Theorem newInflight_recycles_cleanly g (s : system V) (c : Context) (pick : nat) :
  reachable g s →
  let st := ldr s in
  let st1 := (newInflight zeroV st c pick).1 in
  let a := (newInflight zeroV st c pick).2 in
  heap st1 !! a = Some (fresh_record zeroV st c)
  ∧ (∀ b, b ≠ a → heap st1 !! b = heap st !! b)
  ∧ (a ∉ inflightPool st1) ∧ ¬ registered st a
  ∧ (∀ tid cl, callers s !! tid = Some cl → holds a cl = 0)
  ∧ (∀ k t, tasks s !! k = Some t → runs a t = 0)
  ∧ (∀ b ib, heap st !! b = Some ib →
       doneCh ib ≠ next_chan st ∧ cancel ib ≠ inr (next_cancel st))
  ∧ (next_chan st ∉ closed st1) ∧ (inr (next_cancel st) ∉ cancelled st1)
  ∧ match inflightPool st !! pick with
    | Some a0 =>
        a = a0 ∧ inflightPool st1 = delete pick (inflightPool st)
        ∧ ∃ old, heap st !! a0 = Some old ∧ done old = true
                 ∧ pooled old = true ∧ refs old = 0
    | None => heap st !! a = None ∧ inflightPool st1 = inflightPool st
    end.
Proof.
  intros Hr st st1 a. subst a st1 st.
  pose proof (reachable_inv_records g s Hr) as (Hinv & [Hctx _ Hb _ _ _] & _).
  pose proof (inv_wf s Hinv) as Hwf.
  destruct (LoaderSpec.newInflight_eq zeroV (ldr s) c pick)
    as (a0 & pool' & na & Hget & Hnew).
  rewrite Hnew. simpl.
  destruct (LoaderSpec.pool_Get_spec _ _ _ _ _ Hwf Hget)
    as (Hfrom & Hnin & _ & _ & _ & _).
  destruct (LoaderSpec.pool_Get_free zeroV s pick a0 pool' na Hinv Hget)
    as [Hcallers Htasks].
  split_and!.
  - by rewrite lookup_insert_eq.
  - intros b Hne. by rewrite lookup_insert_ne.
  - done.
  - intros (i & m & k & Hi & Hk).
    pose proof (LoaderSpec.newInflight_not_mapped zeroV (ldr s) c pick i m k Hwf Hi) as Hnm.
    rewrite Hnew in Hnm. done.
  - intros tid cl Hcl. by destruct (Hcallers _ _ Hcl).
  - done.
  - intros b ib Hb1. split.
    + destruct (wf_heap_bound _ Hwf _ _ Hb1) as [_ ?]. lia.
    + destruct (Hctx _ _ Hb1) as (c' & n & _ & Hcn & Hlt). rewrite Hcn.
      intros [= ->]. lia.
  - intros Hin. apply (wf_closed_bound _ Hwf) in Hin. lia.
  - intros Hin. apply Hb in Hin. lia.
  - unfold pool_Get in Hget.
    destruct (inflightPool (ldr s) !! pick) as [a1|] eqn:Hp.
    + injection Hget as <- <- <-. split; [done|]. split; [done|].
      assert (a1 ∈ inflightPool (ldr s)) as Hin by (by eapply list_elem_of_lookup_2).
      destruct (wf_pool _ Hwf _ Hin) as (old & Ha1 & Hpd).
      destruct (wf_pooled _ Hwf _ _ Ha1 Hpd) as [Hd Hle].
      pose proof (LoaderSpec.refs_nonneg zeroV s a1 old Hinv Ha1).
      exists old. split_and!; [done|done|done|lia].
    + injection Hget as <- <- <-. split; [|done].
      destruct (heap (ldr s) !! next_addr (ldr s)) as [x|] eqn:Hx; [|done].
      destruct (wf_heap_bound _ Hwf _ _ Hx) as [? _]. lia.
Qed.

(** *** One leader for each fetch *)

Lemma tally_ext {A : Type} (f f' : A → Z) (l : list A) :
  (∀ i x, l !! i = Some x → f x = f' x) → tally f l = tally f' l.
Proof.
  induction l as [|z l IH]; intros Hf; simpl; [done|].
  rewrite (Hf 0%nat z eq_refl), IH; [done|].
  intros i x Hi. by apply (Hf (S i)).
Qed.

Lemma leads_nonneg ch (st : state V) (c : caller V) : 0 ≤ leads ch st c.
Proof. unfold leads. destruct (_ && _); lia. Qed.

Lemma leads_follower ch (st : state V) (c : caller V) :
  is_leader c = false → leads ch st c = 0.
Proof. unfold leads. by intros ->. Qed.

(** What a caller leads depends only on the channel of the record it
    holds. *)
Lemma leads_same ch (st st' : state V) (c c' : caller V) :
  is_leader c' = is_leader c → fetch_of st' c' = fetch_of st c →
  leads ch st' c' = leads ch st c.
Proof. unfold leads. by intros -> ->. Qed.

Lemma fetch_of_ref (st : state V) (c : caller V) a key shard :
  caller_ref c = Some (a, key, shard) →
  fetch_of st c = doneCh <$> heap st !! a.
Proof. destruct c; simpl; intros [= -> -> ->]; done. Qed.

(** The channel of a caller's fetch has been made. *)
Lemma fetch_of_bound (s : system V) tid c ch :
  inv s → callers s !! tid = Some c → fetch_of (ldr s) c = Some ch →
  (ch < next_chan (ldr s))%nat.
Proof.
  intros Hinv Hc Hf.
  pose proof (inv_wf s Hinv) as Hwf.
  pose proof (inv_callers s Hinv _ _ Hc) as Hok.
  destruct (caller_ref c) as [[[a key] shard]|] eqn:Href.
  - rewrite (fetch_of_ref _ _ _ _ _ Href) in Hf.
    destruct (heap (ldr s) !! a) as [inf|] eqn:Ha; [|done].
    injection Hf as <-. by destruct (wf_heap_bound _ Hwf _ _ Ha).
  - destruct c; simplify_eq/=.
    destruct Hok as (v0 & e0 & Hcomp & _).
    apply (wf_closed_bound _ Hwf), (wf_completions_closed _ Hwf). eauto.
Qed.

(** The loader state changes, and the records that callers hold keep their
    channels. *)
Lemma leads_frame (s : system V) (st' : state V) ch :
  inv s →
  (∀ tid c a key shard inf, callers s !! tid = Some c →
     caller_ref c = Some (a, key, shard) → heap (ldr s) !! a = Some inf →
     ∃ inf', heap st' !! a = Some inf' ∧ doneCh inf' = doneCh inf) →
  tally (leads ch st') (callers s) = tally (leads ch (ldr s)) (callers s).
Proof.
  intros Hinv Hkeep. apply tally_ext. intros tid c Hc.
  apply leads_same; [done|].
  destruct (caller_ref c) as [[[a key] shard]|] eqn:Href.
  - rewrite !(fetch_of_ref _ _ _ _ _ Href).
    destruct (LoaderSpec.caller_ok_ref zeroV _ _ _ _ _
                (inv_callers s Hinv _ _ Hc) Href) as [[inf Ha] _].
    destruct (Hkeep _ _ _ _ _ _ Hc Href Ha) as (inf' & -> & Hch).
    rewrite Ha. simpl. by rewrite Hch.
  - by destruct c.
Qed.

Lemma leads_insert (s : system V) (st' : state V) ch tid c c' :
  callers s !! tid = Some c →
  tally (leads ch st') (<[tid := c']> (callers s)) =
    tally (leads ch st') (callers s) - leads ch st' c + leads ch st' c'.
Proof. apply LoaderSpec.tally_insert. Qed.

(** A caller moves on: the loader state is as before, and the caller leads
    what it led. *)
Lemma leads_move (s : system V) ch tid c c' :
  callers s !! tid = Some c →
  is_leader c' = is_leader c → fetch_of (ldr s) c' = fetch_of (ldr s) c →
  tally (leads ch (ldr s)) (<[tid := c']> (callers s)) =
    tally (leads ch (ldr s)) (callers s).
Proof.
  intros Hc Hl Hf. rewrite (leads_insert s (ldr s) ch tid c c' Hc).
  rewrite (leads_same ch (ldr s) (ldr s) c c' Hl Hf). lia.
Qed.

Lemma leads_release (s : system V) (st' : state V) ch tid c c' a key shard :
  inv s → callers s !! tid = Some c → caller_ref c = Some (a, key, shard) →
  releaseInflight (ldr s) key a shard = Some st' →
  is_leader c' = is_leader c →
  (fetch_of st' c' = fetch_of (ldr s) c ∨ fetch_of st' c' = None) →
  tally (leads ch st') (<[tid := c']> (callers s)) ≤
    tally (leads ch (ldr s)) (callers s).
Proof.
  intros Hinv Hc Href Hrel Hl Hf.
  destruct (LoaderSpec.release_effect _ _ _ _ _ Hrel)
    as (inf & inf' & Ha & Hh & _ & Hch & _).
  assert (∀ b ib, heap (ldr s) !! b = Some ib →
            ∃ ib', heap st' !! b = Some ib' ∧ doneCh ib' = doneCh ib) as Hkeep.
  { intros b ib Hb. rewrite Hh. destruct (decide (b = a)) as [->|Hne].
    - rewrite lookup_insert_eq. exists inf'. split; [done|]. congruence.
    - rewrite lookup_insert_ne by done. eauto. }
  rewrite (leads_insert s st' ch tid c c' Hc).
  rewrite (leads_frame s st' ch Hinv) by eauto.
  assert (leads ch st' c = leads ch (ldr s) c) as ->.
  { apply leads_same; [done|]. rewrite !(fetch_of_ref _ _ _ _ _ Href).
    destruct (Hkeep _ _ Ha) as (ib' & -> & Hd). rewrite Ha. simpl. by rewrite Hd. }
  destruct Hf as [Hf|Hf].
  - rewrite (leads_same ch (ldr s) st' c c' Hl Hf). lia.
  - assert (leads ch st' c' = 0) as ->; [|pose proof (leads_nonneg ch (ldr s) c); lia].
    unfold leads. rewrite Hf. by rewrite andb_false_r.
Qed.

Lemma leads_step (s s' : system V) act :
  inv s → step s act = Some s' →
  (∀ ch, tally (leads ch (ldr s)) (callers s) ≤ 1) →
  ∀ ch, tally (leads ch (ldr s')) (callers s') ≤ 1.
Proof.
  intros Hinv Hstep Hone ch. specialize (Hone ch).
  pose proof (inv_wf s Hinv) as Hwf.
  apply LoaderSpec.step_steps_to in Hstep.
  destruct Hstep as
    [c key|tid pick c key st inf leader shard Hc Hacq
    |tid c key inf leader shard Hc|tid c key inf leader shard i0 Hc Hi
    |tid e c key inf leader shard ch0 Hc HD He
    |tid c key inf leader shard ch0 Hc Hcl
    |tid c key inf leader shard ch0 i0 Hc Hi
    |tid key inf leader shard v e ch0 st Hc Hrel
    |tid key inf leader shard e st Hc Hrel
    |k c inf shard Hk|k v e inf shard st Hk Hfin|n|d Hd];
    simpl.
  - (* call *)
    rewrite LoaderSpec.tally_app. simpl. rewrite leads_follower by done. lia.
  - (* acquire *)
    match goal with
    | Hacq : acquireInflight _ _ _ _ _ _ = Some _ |- _ =>
        destruct (LoaderSpec.acquire_cases _ _ _ _ _ _ _ _ _ _ Hacq)
          as (-> & m & Hm & [(-> & _ & -> & ->)|(-> & i0 & Hk & Ha & _ & ->)])
    end.
    + (* leader *)
      destruct (LoaderSpec.newInflight_eq zeroV (ldr s) c pick)
        as (a & pool' & na & Hget & Hnew).
      rewrite Hnew. simpl.
      destruct (LoaderSpec.pool_Get_free zeroV s pick a pool' na Hinv Hget)
        as [Hfree _].
      set (st' := set_shard _ _ _).
      assert (heap st' = <[a := fresh_record zeroV (ldr s) c]> (heap (ldr s)))
        as Hh by done.
      assert (tally (leads ch st') (callers s) =
              tally (leads ch (ldr s)) (callers s)) as Hframe.
      { apply leads_frame; [done|].
        intros tid' c' b key' shard' ib Hc' Href' Hb.
        rewrite Hh. destruct (decide (b = a)) as [->|Hne].
        - destruct (Hfree _ _ Hc') as [Hh0 _].
          rewrite (LoaderSpec.holds_ref a c' a key' shard' Href') in Hh0.
          by rewrite bool_decide_true in Hh0.
        - rewrite lookup_insert_ne by done. eauto. }
      rewrite (leads_insert s st' ch tid _ _ Hc), Hframe.
      rewrite (leads_follower ch st' (Calling c key)) by done.
      destruct (decide (ch = next_chan (ldr s))) as [->|Hne].
      * assert (tally (leads (next_chan (ldr s)) (ldr s)) (callers s) = 0) as ->.
        { apply LoaderSpec.tally_zero. intros tid' c' Hc'. unfold leads.
          destruct (is_leader c'); [|done]. simpl.
          rewrite bool_decide_false; [done|]. intros Hf.
          pose proof (fetch_of_bound s tid' c' _ Hinv Hc' Hf). lia. }
        pose proof (leads_nonneg (next_chan (ldr s)) st'
                      (Acquired c key a true (shardFor hashKey (ldr s) key) true)).
        unfold leads in *. destruct (_ && _); lia.
      * assert (leads ch st' (Acquired c key a true (shardFor hashKey (ldr s) key) true)
                = 0) as ->; [|lia].
        unfold leads. simpl. rewrite lookup_insert_eq. simpl.
        rewrite bool_decide_false; [done|]. congruence.
    + (* follower *)
      set (st' := set_heap _ _ _).
      rewrite (leads_insert s st' ch tid _ _ Hc).
      rewrite (leads_frame s st' ch Hinv).
      * rewrite !leads_follower by done. lia.
      * intros tid' c' b key' shard' ib Hc' Href' Hb. simpl.
        destruct (decide (b = inf)) as [->|Hne].
        -- rewrite lookup_insert_eq. eexists. split; [done|]. simpl. congruence.
        -- rewrite lookup_insert_ne by done. eauto.
  - (* spawn *)
    by rewrite (leads_move s ch tid _ _ Hc).
  - (* select *)
    by rewrite (leads_move s ch tid _ _ Hc).
  - (* ctx.Done() *)
    by rewrite (leads_move s ch tid _ _ Hc).
  - (* doneCh *)
    by rewrite (leads_move s ch tid _ _ Hc).
  - (* read *)
    by rewrite (leads_move s ch tid _ _ Hc).
  - (* release, after the fetch *)
    etransitivity; [|exact Hone].
    eapply (leads_release s st ch tid _ _ inf key shard); try done.
    + by destruct e.
    + left. simpl.
      destruct (inv_callers s Hinv _ _ Hc) as ((i0 & -> & <-) & _). done.
  - (* release, after the context *)
    etransitivity; [|exact Hone].
    eapply (leads_release s st ch tid _ _ inf key shard); try done.
    by right.
  - (* RecordLoad *)
    by rewrite (leads_frame s _ ch Hinv) by eauto.
  - (* finish *)
    match goal with
    | Hfin : finishInflight _ _ _ _ _ = Some _ |- _ =>
        destruct (LoaderSpec.finish_effect _ _ _ _ _ _ Hfin)
          as (i0 & i1 & Ha & _ & Hh & _ & Hch & _)
    end.
    rewrite (leads_frame s st ch Hinv); [done|].
    intros tid' c' b key' shard' ib Hc' Href' Hb. rewrite Hh.
    destruct (decide (b = inf)) as [->|Hne].
    + rewrite lookup_insert_eq. eexists. split; [done|]. congruence.
    + rewrite lookup_insert_ne by done. eauto.
  - (* cancel *)
    by rewrite (leads_frame s _ ch Hinv) by eauto.
  - (* tick *)
    by rewrite (leads_frame s _ ch Hinv) by eauto.
Qed.

Lemma reachable_leads g (s : system V) ch :
  reachable g s → tally (leads ch (ldr s)) (callers s) ≤ 1.
Proof.
  intros Hr. revert ch.
  induction Hr as [|s act s' Hr IH Hstep]; [simpl; lia|].
  eapply leads_step; [|done|done].
  by eapply LoaderSpec.reachable_inv.
Qed.

(** X18: a fetch has at most one leader.  Among the callers that take
    part in the same fetch, those that hold the record and those that have
    returned its result, at most one carries [leader = true]; only a leader
    runs the [go] statement. *)
Theorem one_leader_per_fetch g (s : system V) :
  reachable g s →
  (∀ ch, tally (leads ch (ldr s)) (callers s) ≤ 1)
  ∧ (∀ tid tid' c c' ch,
       callers s !! tid = Some c → callers s !! tid' = Some c' →
       is_leader c = true → is_leader c' = true →
       fetch_of (ldr s) c = Some ch → fetch_of (ldr s) c' = Some ch →
       tid = tid')
  ∧ (∀ tid tid' v v' e e' ch,
       callers s !! tid = Some (Returned v true e (Some ch)) →
       callers s !! tid' = Some (Returned v' true e' (Some ch)) →
       tid = tid')
  ∧ (∀ tid c key a leader shard to_spawn,
       callers s !! tid = Some (Acquired c key a leader shard to_spawn) →
       to_spawn = true → leader = true).
Proof.
  intros Hr.
  pose proof (LoaderSpec.reachable_inv zeroV hashKey g s Hr) as Hinv.
  assert (∀ tid tid' c c' ch,
            callers s !! tid = Some c → callers s !! tid' = Some c' →
            is_leader c = true → is_leader c' = true →
            fetch_of (ldr s) c = Some ch → fetch_of (ldr s) c' = Some ch →
            tid = tid') as Huniq.
  { intros tid tid' c c' ch Hc Hc' Hl Hl' Hf Hf'.
    destruct (decide (tid = tid')) as [|Hne]; [done|].
    pose proof (tally_two (leads ch (ldr s)) (callers s) tid tid' c c'
                  (leads_nonneg ch (ldr s)) Hne Hc Hc') as Hle.
    pose proof (reachable_leads g s ch Hr) as Hone.
    unfold leads in Hle at 1 2.
    rewrite Hl, Hl', Hf, Hf', !bool_decide_true in Hle by done.
    simpl in Hle. lia. }
  split_and!.
  - intros ch. by apply (reachable_leads g).
  - exact Huniq.
  - intros tid tid' v v' e e' ch Hc Hc'.
    by eapply (Huniq tid tid' _ _ ch Hc Hc').
  - intros tid c key a leader shard to_spawn Hc.
    by destruct (inv_callers s Hinv _ _ Hc) as (_ & _ & ?).
Qed.

(** X19: the shard count lies between 8 and 32 for every value of
    [GOMAXPROCS], also when the product [GOMAXPROCS * 2] wraps around (for
    [2 ^ 62] it is 8).  [newSingleflightLoader] makes that many shards,
    each with an empty map, so [shardFor] never divides by zero and its
    index is in range. *)
Theorem shardCount_in_range (g : Z) :
  8 ≤ shardCount g ≤ 32
  ∧ length (shards (@newSingleflightLoader V g)) = Z.to_nat (shardCount g)
  ∧ (∀ i m, shards (@newSingleflightLoader V g) !! i = Some m → m = ∅)
  ∧ (∀ key, is_Some (shards (@newSingleflightLoader V g)
                       !! shardFor hashKey (@newSingleflightLoader V g) key))
  ∧ (0 ≤ g < 2 ^ 62 → g ≤ 4 → shardCount g = 8)
  ∧ (0 ≤ g < 2 ^ 62 → 16 ≤ g → shardCount g = 32)
  ∧ shardCount (2 ^ 62) = 8.
Proof.
  assert (8 ≤ shardCount g ≤ 32) as Hrange.
  { unfold shardCount, minShardCount, maxShardCount. lia. }
  assert (∀ x, -2 ^ 63 ≤ x < 2 ^ 63 → wrap_int x = x) as Hwrap.
  { intros x Hx. unfold wrap_int.
    rewrite Z.mod_small by lia. lia. }
  split_and!.
  - lia.
  - lia.
  - simpl. by rewrite length_replicate.
  - intros i m Hi. simpl in Hi. by apply lookup_replicate in Hi as [-> _].
  - intros key. apply lookup_lt_is_Some. apply LoaderSpec.shardFor_lt.
    simpl. intros Hnil. apply (f_equal length) in Hnil.
    rewrite length_replicate in Hnil. simpl in Hnil. lia.
  - intros Hg Hle. unfold shardCount, shardMultiplier, minShardCount, maxShardCount.
    rewrite Hwrap by lia. lia.
  - intros Hg Hle. unfold shardCount, shardMultiplier, minShardCount, maxShardCount.
    rewrite Hwrap by lia. lia.
  - reflexivity.
Qed.

(** *** Every call can return *)

Local Abbreviation can_return := (LoaderRecords.can_return zeroV hashKey).

Lemma can_return_step (s s1 : system V) act tid :
  step s act = Some s1 → can_return s1 tid → can_return s tid.
Proof.
  intros Hstep (acts & s' & v & leader & e & served & Hrun & Hc).
  exists (act :: acts), s', v, leader, e, served. split; [|done].
  cbn [Loader.run]. rewrite Hstep. done.
Qed.

Lemma return_released (s : system V) tid c a key shard :
  inv s → callers s !! tid = Some c → caller_ref c = Some (a, key, shard) →
  (∃ leader v e ch, c = Loaded key a leader shard v e ch)
  ∨ (∃ leader e, c = Cancelled key a leader shard e) →
  can_return s tid.
Proof.
  intros Hinv Hc Href Hshape.
  pose proof (lookup_lt_Some _ _ _ Hc) as Hlt.
  destruct (LoaderSpec.release_enabled zeroV s tid c a key shard Hinv Hc Href)
    as [st' Hrel].
  destruct Hshape as [(leader & v & e & ch & ->)|(leader & e & ->)].
  - destruct (load_result zeroV v e leader) as [[v' leader'] e'] eqn:Hres.
    exists [ActRelease tid],
      (set_caller s st' tid (Returned v' leader' e' (Some ch))),
      v', leader', e', (Some ch).
    split.
    + cbn [Loader.run]. unfold Loader.step. rewrite Hc, Hrel. simpl.
      by rewrite Hres.
    + simpl. by rewrite list_lookup_insert_eq.
  - exists [ActRelease tid],
      (set_caller s st' tid (Returned zeroV leader (Some e) None)),
      zeroV, leader, (Some e), None.
    split.
    + cbn [Loader.run]. unfold Loader.step. by rewrite Hc, Hrel.
    + simpl. by rewrite list_lookup_insert_eq.
Qed.

Lemma return_woken (s : system V) tid c key a leader shard ch :
  inv s → callers s !! tid = Some (Woken c key a leader shard ch) →
  can_return s tid.
Proof.
  intros Hinv Hc.
  pose proof (lookup_lt_Some _ _ _ Hc) as Hlt.
  destruct (inv_callers s Hinv _ _ Hc) as ((inf & Ha & _) & _).
  set (s1 := set_caller s (ldr s) tid (Loaded key a leader shard (val inf) (err inf) ch)).
  assert (step s (ActRead tid) = Some s1) as Hstep.
  { unfold Loader.step. by rewrite Hc, Ha. }
  apply (can_return_step s s1 _ tid Hstep).
  eapply (return_released s1 tid _ a key shard).
  - by eapply LoaderSpec.inv_step.
  - simpl. by rewrite list_lookup_insert_eq.
  - done.
  - left. eauto.
Qed.

Lemma return_waiting_done (s : system V) tid c key a leader shard ch inf :
  inv s → callers s !! tid = Some (Waiting c key a leader shard ch) →
  heap (ldr s) !! a = Some inf → done inf = true →
  can_return s tid.
Proof.
  intros Hinv Hc Ha Hd.
  pose proof (lookup_lt_Some _ _ _ Hc) as Hlt.
  destruct (inv_callers s Hinv _ _ Hc) as ((inf0 & Ha0 & Hch) & _).
  assert (inf0 = inf) as -> by congruence.
  set (s1 := set_caller s (ldr s) tid (Woken c key a leader shard ch)).
  assert (step s (ActDoneCh tid) = Some s1) as Hstep.
  { unfold Loader.step. rewrite Hc, bool_decide_true; [done|].
    rewrite <- Hch. by apply (wf_done_closed _ (inv_wf s Hinv) _ _ Ha). }
  apply (can_return_step s s1 _ tid Hstep).
  eapply (return_woken s1 tid c key a leader shard ch).
  - by eapply LoaderSpec.inv_step.
  - simpl. by rewrite list_lookup_insert_eq.
Qed.

Lemma return_waiting_fetching (s : system V) tid c key a leader shard ch k sh :
  inv s → callers s !! tid = Some (Waiting c key a leader shard ch) →
  tasks s !! k = Some (Fetching a sh) →
  can_return s tid.
Proof.
  intros Hinv Hc Hk.
  destruct (LoaderSpec.finish_enabled zeroV s k a sh zeroV None Hinv Hk)
    as (inf & Ha & _ & [st1 Hfin]).
  destruct (LoaderSpec.finish_effect _ _ _ _ _ _ Hfin)
    as (inf1 & inf' & _ & _ & Hh & _ & _ & Hd & _).
  set (s1 := set_task s st1 k Exited).
  assert (step s (ActFinish k zeroV None) = Some s1) as Hstep.
  { unfold Loader.step. by rewrite Hk, Hfin. }
  apply (can_return_step s s1 _ tid Hstep).
  eapply (return_waiting_done s1 tid c key a leader shard ch inf').
  - by eapply LoaderSpec.inv_step.
  - done.
  - simpl. by rewrite Hh, lookup_insert_eq.
  - done.
Qed.

Lemma return_waiting_spawned (s : system V) tid c key a leader shard ch k c' sh :
  inv s → callers s !! tid = Some (Waiting c key a leader shard ch) →
  tasks s !! k = Some (Spawned c' a sh) →
  can_return s tid.
Proof.
  intros Hinv Hc Hk.
  pose proof (lookup_lt_Some _ _ _ Hk) as Hlt.
  set (s1 := set_task s (record_metric (ldr s) (RecordLoad c')) k (Fetching a sh)).
  assert (step s (ActRecordLoad k) = Some s1) as Hstep.
  { unfold Loader.step. by rewrite Hk. }
  apply (can_return_step s s1 _ tid Hstep).
  eapply (return_waiting_fetching s1 tid c key a leader shard ch k sh).
  - by eapply LoaderSpec.inv_step.
  - done.
  - simpl. by rewrite list_lookup_insert_eq.
Qed.

Lemma return_waiting (s : system V) tid c key a leader shard ch :
  inv s → callers s !! tid = Some (Waiting c key a leader shard ch) →
  can_return s tid.
Proof.
  intros Hinv Hc.
  destruct (inv_callers s Hinv _ _ Hc) as ((inf & Ha & _) & _).
  destruct (done inf) eqn:Hd; [by eapply return_waiting_done|].
  pose proof (inv_pending s Hinv _ _ Ha) as Hp. rewrite Hd in Hp.
  unfold pending in Hp.
  destruct (decide (1 ≤ tally (runs a) (tasks s))) as [Hr|Hr].
  - destruct (tally_pos _ _ Hr) as (k & t & Hk & Ht).
    destruct t as [c' a' sh|a' sh|]; simpl in Ht; [| |lia].
    + case_bool_decide; [subst a'|lia]. by eapply return_waiting_spawned.
    + case_bool_decide; [subst a'|lia]. by eapply return_waiting_fetching.
  - assert (1 ≤ tally (to_start a) (callers s)) as Hs by lia.
    destruct (tally_pos _ _ Hs) as (tid' & c' & Hc' & Ht).
    destruct c' as [| c' key' a' leader' sh' []| | | | |]; simpl in Ht; try lia.
    case_bool_decide; [subst a'|lia].
    assert (tid ≠ tid') as Hne by (intros ->; congruence).
    set (s1 := mkSystem (ldr s)
                 (<[tid' := Acquired c' key' a leader' sh' false]> (callers s))
                 (tasks s ++ [Spawned c' a sh'])).
    assert (step s (ActSpawn tid') = Some s1) as Hstep.
    { unfold Loader.step. by rewrite Hc'. }
    apply (can_return_step s s1 _ tid Hstep).
    eapply (return_waiting_spawned s1 tid c key a leader shard ch
              (length (tasks s)) c' sh').
    + by eapply LoaderSpec.inv_step.
    + simpl. by rewrite list_lookup_insert_ne.
    + simpl. by rewrite lookup_app_r, Nat.sub_diag.
Qed.

Lemma return_acquired (s : system V) tid c key a leader shard to_spawn :
  inv s → callers s !! tid = Some (Acquired c key a leader shard to_spawn) →
  can_return s tid.
Proof.
  intros Hinv Hc.
  pose proof (lookup_lt_Some _ _ _ Hc) as Hlt.
  assert (∀ s0 : system V, inv s0 →
            callers s0 !! tid = Some (Acquired c key a leader shard false) →
            can_return s0 tid) as Hselect.
  { intros s0 Hinv0 Hc0.
    pose proof (lookup_lt_Some _ _ _ Hc0) as Hlt0.
    destruct (inv_callers s0 Hinv0 _ _ Hc0) as ([inf Ha] & _).
    set (s1 := set_caller s0 (ldr s0) tid
                 (Waiting c key a leader shard (doneCh inf))).
    assert (step s0 (ActSelect tid) = Some s1) as Hstep.
    { unfold Loader.step. by rewrite Hc0, Ha. }
    apply (can_return_step s0 s1 _ tid Hstep).
    eapply (return_waiting s1 tid c key a leader shard (doneCh inf)).
    - by eapply LoaderSpec.inv_step.
    - simpl. by rewrite list_lookup_insert_eq. }
  destruct to_spawn; [|by apply Hselect].
  set (s1 := mkSystem (ldr s)
               (<[tid := Acquired c key a leader shard false]> (callers s))
               (tasks s ++ [Spawned c a shard])).
  assert (step s (ActSpawn tid) = Some s1) as Hstep.
  { unfold Loader.step. by rewrite Hc. }
  apply (can_return_step s s1 _ tid Hstep).
  apply Hselect.
  - by eapply LoaderSpec.inv_step.
  - simpl. by rewrite list_lookup_insert_eq.
Qed.

(** X20: a call of [load] can always complete.  From every state the
    loader reaches, each caller has a continuation of the run that takes it
    to its return: a caller that waits on a record that is not done always
    has the record's fetch ahead, started or about to be, and the close of
    the channel reaches it. *)
Theorem load_can_always_return g (s : system V) (tid : nat) (c : caller V) :
  reachable g s → callers s !! tid = Some c →
  can_return s tid.
Proof.
  intros Hr Hc.
  pose proof (LoaderSpec.reachable_inv zeroV hashKey g s Hr) as Hinv.
  pose proof (lookup_lt_Some _ _ _ Hc) as Hlt.
  destruct c as [c key|c key a leader shard to_spawn|c key a leader shard ch
                |c key a leader shard ch|key a leader shard v e ch
                |key a leader shard e|v leader e served].
  - destruct (LoaderSpec.acquire_enabled zeroV hashKey s c key 0%nat Hinv)
      as [[st' [[a leader] i]] Hacq].
    set (s1 := set_caller s st' tid (Acquired c key a leader i leader)).
    assert (step s (ActAcquire tid 0) = Some s1) as Hstep.
    { unfold Loader.step. by rewrite Hc, Hacq. }
    apply (can_return_step s s1 _ tid Hstep).
    eapply (return_acquired s1 tid c key a leader i leader).
    + by eapply LoaderSpec.inv_step.
    + simpl. by rewrite list_lookup_insert_eq.
  - by eapply return_acquired.
  - by eapply return_waiting.
  - by eapply return_woken.
  - eapply (return_released s tid _ a key shard); [done|done|done|].
    left. eauto.
  - eapply (return_released s tid _ a key shard); [done|done|done|].
    right. eauto.
  - by exists [], s, v, leader, e, served.
Qed.

(** *** [RecordLoad] *)

Lemma load_metric_step (s s' : system V) act :
  step s act = Some s' →
  tally is_load (metrics (ldr s)) = tally started (tasks s) →
  tally is_load (metrics (ldr s')) = tally started (tasks s').
Proof.
  intros Hstep Heq.
  apply LoaderSpec.step_steps_to in Hstep.
  destruct Hstep as
    [c key|tid pick c key st inf leader shard Hc Hacq
    |tid c key inf leader shard Hc|tid c key inf leader shard i0 Hc Hi
    |tid e c key inf leader shard ch0 Hc HD He
    |tid c key inf leader shard ch0 Hc Hcl
    |tid c key inf leader shard ch0 i0 Hc Hi
    |tid key inf leader shard v e ch0 st Hc Hrel
    |tid key inf leader shard e st Hc Hrel
    |k c inf shard Hk|k v e inf shard st Hk Hfin|n|d Hd];
    simpl; try done.
  - match goal with
    | Hacq : acquireInflight _ _ _ _ _ _ = Some _ |- _ =>
        destruct (LoaderSpec.acquire_frame _ _ _ _ _ _ _ _ Hacq) as (-> & _)
    end. done.
  - rewrite LoaderSpec.tally_app. simpl. lia.
  - match goal with
    | Hrel : releaseInflight _ _ _ _ = Some _ |- _ =>
        destruct (LoaderSpec.release_effect _ _ _ _ _ Hrel)
          as (? & ? & _ & _ & _ & _ & _ & _ & _ & _ & _ & _ & _ & ->)
    end. done.
  - match goal with
    | Hrel : releaseInflight _ _ _ _ = Some _ |- _ =>
        destruct (LoaderSpec.release_effect _ _ _ _ _ Hrel)
          as (? & ? & _ & _ & _ & _ & _ & _ & _ & _ & _ & _ & _ & ->)
    end. done.
  - rewrite LoaderSpec.tally_app.
    rewrite (LoaderSpec.tally_insert started (tasks s) k _ (Fetching inf shard) Hk).
    simpl. lia.
  - match goal with
    | Hfin : finishInflight _ _ _ _ _ = Some _ |- _ =>
        destruct (LoaderSpec.finish_effect _ _ _ _ _ _ Hfin)
          as (? & ? & _ & _ & _ & _ & _ & _ & _ & _ & _ & _ & _ & ->)
    end.
    rewrite LoaderSpec.tally_app.
    rewrite (LoaderSpec.tally_insert started (tasks s) k _ Exited Hk).
    simpl. lia.
Qed.

Lemma reachable_load_metric g (s : system V) :
  reachable g s → tally is_load (metrics (ldr s)) = tally started (tasks s).
Proof.
  induction 1 as [|s act s' _ IH Hstep]; [done|].
  by eapply load_metric_step.
Qed.

Lemma started_split (ts : list task) :
  tally started ts = tally is_exited ts + tally is_fetching ts.
Proof. induction ts as [|[] ts IH]; simpl; lia. Qed.

(** X21: [RecordLoad] is called once for each fetch, by the goroutine of
    the leader before it calls the loader function: there are as many calls
    as goroutines that have got that far, and they exceed the
    [RecordLoadConcurrency] calls by the number of fetches now running.  The
    call carries the leader's own context; only a leader starts a goroutine,
    and no other step calls [RecordLoad]. *)
Theorem record_load_once_per_fetch g (s : system V) :
  reachable g s →
  tally is_load (metrics (ldr s)) = tally started (tasks s)
  ∧ tally is_load (metrics (ldr s)) =
      tally is_concurrency (metrics (ldr s)) + tally is_fetching (tasks s)
  ∧ (∀ k c a shard, tasks s !! k = Some (Spawned c a shard) →
       ∃ s', step s (ActRecordLoad k) = Some s' ∧
             metrics (ldr s') = metrics (ldr s) ++ [RecordLoad c] ∧
             tasks s' = <[k := Fetching a shard]> (tasks s))
  ∧ (∀ tid c key a leader shard,
       callers s !! tid = Some (Acquired c key a leader shard true) →
       ∃ s', step s (ActSpawn tid) = Some s' ∧
             tasks s' = tasks s ++ [Spawned c a shard] ∧ leader = true)
  ∧ (∀ act s', step s act = Some s' → (∀ k, act ≠ ActRecordLoad k) →
       tally is_load (metrics (ldr s')) = tally is_load (metrics (ldr s))).
Proof.
  intros Hr.
  pose proof (LoaderSpec.reachable_inv zeroV hashKey g s Hr) as Hinv.
  pose proof (reachable_load_metric g s Hr) as Hload.
  split_and!.
  - done.
  - rewrite Hload, started_split, (inv_metrics s Hinv). done.
  - intros k c a shard Hk. eexists. split; [|split].
    + simpl. by rewrite Hk.
    + done.
    + done.
  - intros tid c key a leader shard Hc. eexists. split; [|split].
    + simpl. by rewrite Hc.
    + done.
    + by destruct (inv_callers s Hinv _ _ Hc) as (_ & _ & ->).
  - intros act s' Hstep Hact.
    pose proof (load_metric_step s s' act Hstep Hload) as Hload'.
    rewrite Hload', Hload.
    apply LoaderSpec.step_steps_to in Hstep.
    destruct Hstep as
    [c key|tid pick c key st inf leader shard Hc Hacq
    |tid c key inf leader shard Hc|tid c key inf leader shard i0 Hc Hi
    |tid e c key inf leader shard ch0 Hc HD He
    |tid c key inf leader shard ch0 Hc Hcl
    |tid c key inf leader shard ch0 i0 Hc Hi
    |tid key inf leader shard v e ch0 st Hc Hrel
    |tid key inf leader shard e st Hc Hrel
    |k c inf shard Hk|k v e inf shard st Hk Hfin|n|d Hd];
    simpl; try done.
    + rewrite LoaderSpec.tally_app. simpl. lia.
    + by destruct (Hact k).
    + rewrite (LoaderSpec.tally_insert started (tasks s) k _ Exited Hk).
      simpl. lia.
Qed.

(** *** A call that meets no other *)

Lemma run_app (s : system V) (l1 l2 : list (action V)) :
  run s (l1 ++ l2) = run s l1 ≫= λ s1, run s1 l2.
Proof.
  revert s. induction l1 as [|act l1 IH]; intros s; [done|].
  cbn [app Loader.run]. destruct (step s act) as [s1|]; [|done].
  cbn [mbind option_bind]. apply IH.
Qed.

(** X22: a call that meets no other behaves as [directLoader.load].  From
    a state the loader reaches in which the key has no entry, a caller that
    enters [load], leads, starts the fetch and waits for it returns what
    [directLoader.load] returns for a loader function with the same result:
    the value or, on an error, the zero value, [leader = true] and the
    error. *)
Theorem uncontended_load_agrees_with_direct g (s : system V) (c : Context)
    (key : string) (pick : nat) (v : V) (e : option error) :
  reachable g s →
  (∀ m, shards (ldr s) !! shardFor hashKey (ldr s) key = Some m → m !! key = None) →
  let tid := length (callers s) in
  let k := length (tasks s) in
  let r := directLoader_load zeroV c key (λ _, (v, e)) in
  ∃ s' ch,
    run s [ActCall c key; ActAcquire tid pick; ActSpawn tid; ActSelect tid;
           ActRecordLoad k; ActFinish k v e; ActDoneCh tid; ActRead tid;
           ActRelease tid] = Some s'
    ∧ callers s' !! tid = Some (Returned r.1.1 r.1.2 r.2 (Some ch)).
Proof.
  intros Hr Hfree tid k r.
  pose proof (LoaderSpec.reachable_inv zeroV hashKey g s Hr) as Hinv.
  (* the call enters load *)
  set (s0 := mkSystem (ldr s) (callers s ++ [Calling c key]) (tasks s)).
  assert (step s (ActCall c key) = Some s0) as Hs0 by done.
  pose proof (LoaderSpec.inv_step zeroV hashKey _ _ _ Hinv Hs0) as Hinv0.
  assert (callers s0 !! tid = Some (Calling c key)) as Hc0.
  { simpl. by rewrite lookup_app_r, Nat.sub_diag. }
  assert (tid < length (callers s0))%nat as Hlt0.
  { simpl. rewrite length_app. simpl. lia. }
  (* it finds no entry and leads *)
  destruct (LoaderSpec.acquire_enabled zeroV hashKey s0 c key pick Hinv0)
    as [[st1 [[a leader] i]] Hacq].
  assert (leader = true) as ->.
  { destruct (LoaderSpec.acquire_cases _ _ _ _ _ _ _ _ _ _ Hacq)
      as (_ & m & Hm & [(-> & _)|(_ & inf & Hk & _)]); [done|].
    simpl in Hm. destruct (LoaderSpec.acquire_cases _ _ _ _ _ _ _ _ _ _ Hacq)
      as (-> & _). rewrite (Hfree _ Hm) in Hk. done. }
  set (s1 := set_caller s0 st1 tid (Acquired c key a true i true)).
  assert (step s0 (ActAcquire tid pick) = Some s1) as Hs1.
  { unfold Loader.step. by rewrite Hc0, Hacq. }
  pose proof (LoaderSpec.inv_step zeroV hashKey _ _ _ Hinv0 Hs1) as Hinv1.
  assert (callers s1 !! tid = Some (Acquired c key a true i true)) as Hc1.
  { simpl. by rewrite list_lookup_insert_eq. }
  (* it starts the fetch *)
  set (s2 := mkSystem (ldr s1)
               (<[tid := Acquired c key a true i false]> (callers s1))
               (tasks s1 ++ [Spawned c a i])).
  assert (step s1 (ActSpawn tid) = Some s2) as Hs2.
  { unfold Loader.step. by rewrite Hc1. }
  pose proof (LoaderSpec.inv_step zeroV hashKey _ _ _ Hinv1 Hs2) as Hinv2.
  assert (callers s2 !! tid = Some (Acquired c key a true i false)) as Hc2.
  { simpl. rewrite list_lookup_insert_eq; [done|]. by rewrite length_insert. }
  (* and waits *)
  destruct (inv_callers s2 Hinv2 _ _ Hc2) as ([inf Ha] & _).
  set (s3 := set_caller s2 (ldr s2) tid (Waiting c key a true i (doneCh inf))).
  assert (step s2 (ActSelect tid) = Some s3) as Hs3.
  { unfold Loader.step. by rewrite Hc2, Ha. }
  pose proof (LoaderSpec.inv_step zeroV hashKey _ _ _ Hinv2 Hs3) as Hinv3.
  (* the goroutine runs *)
  assert (tasks s3 !! k = Some (Spawned c a i)) as Hk3.
  { simpl. by rewrite lookup_app_r, Nat.sub_diag. }
  set (s4 := set_task s3 (record_metric (ldr s3) (RecordLoad c)) k (Fetching a i)).
  assert (step s3 (ActRecordLoad k) = Some s4) as Hs4.
  { unfold Loader.step. by rewrite Hk3. }
  pose proof (LoaderSpec.inv_step zeroV hashKey _ _ _ Hinv3 Hs4) as Hinv4.
  assert (tasks s4 !! k = Some (Fetching a i)) as Hk4.
  { simpl. rewrite list_lookup_insert_eq; [done|].
    rewrite length_app. simpl. lia. }
  assert (callers s4 !! tid = Some (Waiting c key a true i (doneCh inf))) as Hc4.
  { simpl. rewrite list_lookup_insert_eq; [done|]. by rewrite !length_insert. }
  destruct (waiter_served s4 k a i tid c key true i (doneCh inf) v e
              Hinv4 Hk4 Hc4) as (_ & s' & Hrun & Hret).
  exists s', (doneCh inf). split.
  - change (run s ([ActCall c key; ActAcquire tid pick; ActSpawn tid;
                    ActSelect tid; ActRecordLoad k] ++
                   [ActFinish k v e; ActDoneCh tid; ActRead tid; ActRelease tid])
            = Some s').
    rewrite run_app. cbn [Loader.run].
    rewrite Hs0. cbn [mbind option_bind]. rewrite Hs1. cbn [mbind option_bind].
    rewrite Hs2. cbn [mbind option_bind]. rewrite Hs3. cbn [mbind option_bind].
    rewrite Hs4. cbn [mbind option_bind]. exact Hrun.
  - rewrite Hret. subst r. unfold directLoader_load. by destruct e.
Qed.

End Specs.

Lemma key_registered_in_own_shard_witness :
  ∃ s : system Z,
    reachable 0 demo_hash 4 s
    ∧ (map_to_list <$> shards (ldr s) !! 1%nat) = Some [("k"%string, 0%nat)]
    ∧ ∀ i m k a, shards (ldr s) !! i = Some m → m !! k = Some a →
        i = shardFor demo_hash (ldr s) k.
Proof.
  destruct (run 0 demo_hash (initial 4) one_waiting) as [s|] eqn:Hrun;
    [|by vm_compute in Hrun].
  pose proof (LoaderSpec.reachable_run 0 demo_hash 4 _ _ Hrun) as Hr.
  destruct (key_registered_in_own_shard 0 demo_hash 4 s Hr) as (Hown & _).
  exists s. split_and!; [exact Hr| |exact Hown].
  vm_compute in Hrun. by injection Hrun as <-.
Defined.

Lemma refs_counts_holders_witness :
  ∃ (s : system Z) inf,
    reachable 0 demo_hash 4 s ∧ heap (ldr s) !! 0%nat = Some inf
    ∧ refs inf = 2 ∧ refs inf = holders 0 (callers s).
Proof.
  destruct (run 0 demo_hash (initial 4) two_waiting) as [s|] eqn:Hrun;
    [|by vm_compute in Hrun].
  pose proof (LoaderSpec.reachable_run 0 demo_hash 4 _ _ Hrun) as Hr.
  vm_compute in Hrun. injection Hrun as <-.
  eexists _, _. split; [exact Hr|]. split; [reflexivity|].
  split; [reflexivity|].
  apply (refs_counts_holders 0 demo_hash 4 _ 0%nat _ Hr eq_refl).
Defined.

Lemma no_entry_left_behind_witness :
  ∃ s : system Z,
    reachable 0 demo_hash 4 s
    ∧ callers s = [Returned 7 true None (Some 0%nat)]
    ∧ ∀ i m, shards (ldr s) !! i = Some m → m = ∅.
Proof.
  destruct (run 0 demo_hash (initial 4) one_load_done) as [s|] eqn:Hrun;
    [|by vm_compute in Hrun].
  pose proof (LoaderSpec.reachable_run 0 demo_hash 4 _ _ Hrun) as Hr.
  vm_compute in Hrun. injection Hrun as <-.
  eexists. split; [exact Hr|]. split; [reflexivity|].
  apply (no_entry_left_behind 0 demo_hash 4 _ Hr).
  intros [|tid] c Hc; simpl in Hc; [by injection Hc as <-|discriminate].
Defined.

Lemma one_fetch_per_record_witness :
  ∃ (s : system Z) inf,
    reachable 0 demo_hash 4 s ∧ heap (ldr s) !! 0%nat = Some inf
    ∧ tasks s = [Fetching 0 1]
    ∧ pending 0 s = (if done inf then 0 else 1).
Proof.
  destruct (run 0 demo_hash (initial 4) one_waiting) as [s|] eqn:Hrun;
    [|by vm_compute in Hrun].
  pose proof (LoaderSpec.reachable_run 0 demo_hash 4 _ _ Hrun) as Hr.
  vm_compute in Hrun. injection Hrun as <-.
  eexists _, _. split; [exact Hr|]. split; [reflexivity|].
  split; [reflexivity|].
  apply (one_fetch_per_record 0 demo_hash 4 _ 0%nat _ Hr eq_refl).
Defined.

Lemma load_context_done_iff_released_witness :
  ∃ (s : system Z) inf,
    reachable 0 demo_hash 4 s ∧ heap (ldr s) !! 0%nat = Some inf
    ∧ refs inf = 1
    ∧ Done (the_world (ldr s)) (ctx inf) = bool_decide (refs inf = 0).
Proof.
  destruct (run 0 demo_hash (initial 4) (one_waiting ++ [ActCancel 0]))
    as [s|] eqn:Hrun; [|by vm_compute in Hrun].
  pose proof (LoaderSpec.reachable_run 0 demo_hash 4 _ _ Hrun) as Hr.
  vm_compute in Hrun. injection Hrun as <-.
  eexists _, _. split; [exact Hr|]. split; [reflexivity|].
  split; [reflexivity|].
  apply (load_context_done_iff_released 0 demo_hash 4 _ 0%nat _ Hr eq_refl).
Defined.

Lemma release_last_reference_witness :
  ∃ (s : system Z) st',
    reachable 0 demo_hash 4 s
    ∧ callers s = [Cancelled "k" 0 true 1 Canceled]
    ∧ releaseInflight (ldr s) "k" 0 1 = Some st'
    ∧ ¬ registered st' 0.
Proof.
  destruct (run 0 demo_hash (initial 4)
              (one_waiting ++ [ActCancel 0; ActCtxDone 0 Canceled]))
    as [s|] eqn:Hrun; [|by vm_compute in Hrun].
  pose proof (LoaderSpec.reachable_run 0 demo_hash 4 _ _ Hrun) as Hr.
  vm_compute in Hrun. injection Hrun as <-.
  destruct (release_last_reference 0 demo_hash 4 _ 0%nat _ 0%nat "k" 1%nat _
              Hr eq_refl eq_refl eq_refl) as (st' & Hrel & _ & _ & _ & Hlast).
  rewrite bool_decide_true in Hlast by reflexivity.
  destruct Hlast as [Hnr _].
  eexists _, st'. split; [exact Hr|]. split; [reflexivity|].
  split; [exact Hrel|exact Hnr].
Defined.

Lemma load_never_panics_witness :
  ∃ s : system Z,
    reachable 0 demo_hash 4 s ∧ tasks s = [Fetching 0 1]
    ∧ ∀ k a shard v e, tasks s !! k = Some (Fetching a shard) →
        is_Some (step 0 demo_hash s (ActFinish k v e)).
Proof.
  destruct (run 0 demo_hash (initial 4) one_waiting) as [s|] eqn:Hrun;
    [|by vm_compute in Hrun].
  pose proof (LoaderSpec.reachable_run 0 demo_hash 4 _ _ Hrun) as Hr.
  destruct (load_never_panics 0 demo_hash 4 s Hr)
    as (_ & _ & _ & _ & _ & _ & _ & _ & Hfinish).
  exists s. split_and!; [exact Hr| |exact Hfinish].
  vm_compute in Hrun. by injection Hrun as <-.
Defined.

Lemma finish_delivers_to_waiters_witness :
  ∃ s s' : system Z,
    reachable 0 demo_hash 4 s
    ∧ run 0 demo_hash s
        [ActFinish 0 7 None; ActDoneCh 0; ActRead 0; ActRelease 0] = Some s'
    ∧ callers s' !! 0%nat = Some (Returned 7 true None (Some 0%nat)).
Proof.
  destruct (run 0 demo_hash (initial 4) one_waiting) as [s|] eqn:Hrun;
    [|by vm_compute in Hrun].
  pose proof (LoaderSpec.reachable_run 0 demo_hash 4 _ _ Hrun) as Hr.
  vm_compute in Hrun. injection Hrun as <-.
  destruct (finish_delivers_to_waiters 0 demo_hash 4 _ 0%nat 0%nat 1%nat 0%nat
              demo_ctx "k" true 1%nat 0%nat 7 None Hr eq_refl eq_refl)
    as (_ & s' & Hrun' & Hret).
  eexists _, s'. split; [exact Hr|]. split; [exact Hrun'|exact Hret].
Defined.

Lemma newInflight_recycles_cleanly_witness :
  ∃ s : system Z,
    reachable 0 demo_hash 4 s ∧ inflightPool (ldr s) = [0%nat]
    ∧ (newInflight 0 (ldr s) Background 0).2 = 0%nat
    ∧ heap (newInflight 0 (ldr s) Background 0).1 !! 0%nat =
        Some (fresh_record 0 (ldr s) Background).
Proof.
  destruct (run 0 demo_hash (initial 4) one_load_done) as [s|] eqn:Hrun;
    [|by vm_compute in Hrun].
  pose proof (LoaderSpec.reachable_run 0 demo_hash 4 _ _ Hrun) as Hr.
  vm_compute in Hrun. injection Hrun as <-.
  eexists. split; [exact Hr|]. split; [reflexivity|]. split; [reflexivity|].
  apply (newInflight_recycles_cleanly 0 demo_hash 4 _ Background 0%nat Hr).
Defined.

Lemma one_leader_per_fetch_witness :
  ∃ s : system Z,
    reachable 0 demo_hash 4 s
    ∧ callers s = [Returned 0 true (Some (Foreign "boom")) (Some 0%nat);
                   Returned 0 false (Some (Foreign "boom")) (Some 0%nat)]
    ∧ ∀ ch, tally (leads ch (ldr s)) (callers s) ≤ 1.
Proof.
  destruct (run 0 demo_hash (initial 4) two_callers_failed_fetch) as [s|] eqn:Hrun;
    [|by vm_compute in Hrun].
  pose proof (LoaderSpec.reachable_run 0 demo_hash 4 _ _ Hrun) as Hr.
  destruct (one_leader_per_fetch 0 demo_hash 4 s Hr) as (Hone & _).
  exists s. split_and!; [exact Hr| |exact Hone].
  vm_compute in Hrun. by injection Hrun as <-.
Defined.

Lemma load_can_always_return_witness :
  ∃ s : system Z,
    reachable 0 demo_hash 4 s
    ∧ callers s = [Waiting demo_ctx "k" 0 true 1 0]
    ∧ can_return 0 demo_hash s 0.
Proof.
  destruct (run 0 demo_hash (initial 4) one_waiting) as [s|] eqn:Hrun;
    [|by vm_compute in Hrun].
  pose proof (LoaderSpec.reachable_run 0 demo_hash 4 _ _ Hrun) as Hr.
  vm_compute in Hrun. injection Hrun as <-.
  eexists. split; [exact Hr|]. split; [reflexivity|].
  apply (load_can_always_return 0 demo_hash 4 _ 0%nat _ Hr eq_refl).
Defined.

Lemma record_load_once_per_fetch_witness :
  ∃ s : system Z,
    reachable 0 demo_hash 4 s
    ∧ metrics (ldr s) = [RecordLoad demo_ctx]
    ∧ tally is_load (metrics (ldr s)) = tally started (tasks s).
Proof.
  destruct (run 0 demo_hash (initial 4) one_waiting) as [s|] eqn:Hrun;
    [|by vm_compute in Hrun].
  pose proof (LoaderSpec.reachable_run 0 demo_hash 4 _ _ Hrun) as Hr.
  destruct (record_load_once_per_fetch 0 demo_hash 4 s Hr) as (Hload & _).
  exists s. split_and!; [exact Hr| |exact Hload].
  vm_compute in Hrun. by injection Hrun as <-.
Defined.

Lemma uncontended_load_agrees_with_direct_witness :
  ∃ (s' : system Z) ch,
    run 0 demo_hash (initial 4)
      [ActCall Background "k"; ActAcquire 0 0; ActSpawn 0; ActSelect 0;
       ActRecordLoad 0; ActFinish 0 7 None; ActDoneCh 0; ActRead 0;
       ActRelease 0] = Some s'
    ∧ callers s' !! 0%nat = Some (Returned 7 true None (Some ch)).
Proof.
  apply (uncontended_load_agrees_with_direct 0 demo_hash 4 (initial 4)
           Background "k" 0 7 None (reachable_initial 0 demo_hash 4)).
  intros m Hm. vm_compute in Hm. by injection Hm as <-.
Defined.

End LoaderExtra.
